(** * TMSG: the search-and-extraction pipeline of [main.py]

    A shallow embedding of the pure core of the program (size normaliser,
    magnet hash extractor, HTML row parser, endpoint fetchers, search
    orchestrator, result filter/ranker, magnet builder, size display) and
    the properties its specification states about them, followed by
    further properties read off the code.

    Conventions of the embedding.

    - A Python [str] is a [string] of the Standard Library; one [ascii] is
      one code point, so the character model is the Latin-1 block
      (U+0000 to U+00FF).  The character tables ([py_isspace], [py_lower],
      [py_isdigit_char]) are Python's, restricted to that block.  The
      magnet builder is also written out on every [str], a list of code
      points ([ustring]), where [quote] can raise on a surrogate; on the
      strings of the model the two agree
      ([build_magnet_unicode_codes]).
    - A Python [int] is a [Z].
    - A Python [float] is a [float64]: sign, integer significand and
      binary exponent, with the rounding of IEEE 754 binary64 written out
      over [Z] ([round_ratio]).
    - A parsed JSON document, a row and every other dynamically typed
      value is a [pyval]; a dictionary is an association list.
    - A Python exception is an [exn], its class and its text; code that
      can raise returns a [result].
    - The functions of the standard library the program calls ([re.search]
      with the size pattern, [float], [int], [str] methods, the format
      [.1f], [urllib.parse.quote], [urlparse], [parse_qs]) are written out as far
      as the program uses them.  The network ([urlopen]), [json.loads] and
      the tokenizer of [html.parser] are parameters of the fetchers: the
      properties hold whatever they do.  The parser is the three handlers
      [html.parser] calls, run on the sequence of its calls; the
      tokenizer gives this sequence and the exception it may raise
      itself at its end.
    - [for] loops with [continue] and [return] are recursive functions on
      the list they go through; the requests made are kept in a [trace],
      which is also what the network may look at to answer. *)

From Stdlib Require Import String Ascii ZArith List Bool Lia Arith.
From Stdlib Require Import Permutation Sorted.
From Stdlib Require Import DecimalString.
Import ListNotations.

Local Open Scope string_scope.
Local Open Scope Z_scope.

(* ================================================================== *)
(** * Exceptions and results *)

Inductive exn_class : Type :=
| URLError | HTTPError | TimeoutError | OSError
| JSONDecodeError | ValueError | TypeError | AttributeError
| OverflowError | KeyError | RuntimeError | OtherError
| UnicodeEncodeError | AssertionError.

(** An exception object: its class and the text of its message.  For an
    exception that comes from the network or from [json.loads] the text
    is [str(exc)], which is what the program reads of it.  For an
    exception that the library functions written out below raise, it is
    the fixed part of the message, without the value Python quotes in
    it; the program never reads these. *)
Record exn : Type := mkExn { exn_cls : exn_class; exn_msg : string }.

Inductive result (A : Type) : Type :=
| Ok (a : A)
| Raise (e : exn).
Arguments Ok {A} a.
Arguments Raise {A} e.

Definition bind {A B : Type} (r : result A) (k : A -> result B) : result B :=
  match r with
  | Ok a => k a
  | Raise e => Raise e
  end.

Notation "'do' x <- r ; k" := (bind r (fun x => k))
  (at level 10, x name, r at level 100, k at level 200).

(* ================================================================== *)
(** * Python strings over Latin-1 *)

Definition code (c : ascii) : Z := Z.of_nat (nat_of_ascii c).

Definition chr (z : Z) : ascii := ascii_of_nat (Z.to_nat z).

Definition in_range (lo hi : Z) (c : ascii) : bool :=
  (lo <=? code c) && (code c <=? hi).

(** [[0-9]] *)
Definition is_ascii_digit (c : ascii) : bool := in_range 48 57 c.

(** [[A-Za-z]] *)
Definition is_ascii_alpha (c : ascii) : bool :=
  in_range 65 90 c || in_range 97 122 c.

(** [str.isspace] on one character, which is also what [\s] matches in a
    [str] pattern and what [str.strip()] removes: TAB..CR, FS..US, SPACE,
    NEL (U+0085) and NBSP (U+00A0). *)
Definition py_isspace (c : ascii) : bool :=
  in_range 9 13 c || in_range 28 32 c || (code c =? 133) || (code c =? 160).

(** [str.isdigit] on one character: the decimal digits and the
    superscripts U+00B2, U+00B3, U+00B9. *)
Definition py_isdigit_char (c : ascii) : bool :=
  is_ascii_digit c || (code c =? 178) || (code c =? 179) || (code c =? 185).

(** [str.lower] on one character: A-Z and the Latin-1 capitals U+00C0 to
    U+00DE (the multiplication sign U+00D7 apart). *)
Definition py_lower_char (c : ascii) : ascii :=
  if in_range 65 90 c then chr (code c + 32)
  else if in_range 192 222 c && negb (code c =? 215) then chr (code c + 32)
  else c.

Fixpoint string_map (f : ascii -> ascii) (s : string) : string :=
  match s with
  | EmptyString => EmptyString
  | String c r => String (f c) (string_map f r)
  end.

Fixpoint string_forallb (f : ascii -> bool) (s : string) : bool :=
  match s with
  | EmptyString => true
  | String c r => f c && string_forallb f r
  end.

Definition is_empty (s : string) : bool :=
  match s with EmptyString => true | _ => false end.

(** [s.lower()] *)
Definition py_lower (s : string) : string := string_map py_lower_char s.

(** [s.isdigit()]: at least one character, all of them digits. *)
Definition py_isdigit (s : string) : bool :=
  negb (is_empty s) && string_forallb py_isdigit_char s.

(** The longest prefix of characters satisfying [f], and the rest. *)
Fixpoint span (f : ascii -> bool) (s : string) : string * string :=
  match s with
  | EmptyString => (EmptyString, EmptyString)
  | String c r =>
      if f c then let (a, b) := span f r in (String c a, b)
      else (EmptyString, s)
  end.

Fixpoint drop_while (f : ascii -> bool) (s : string) : string :=
  match s with
  | EmptyString => EmptyString
  | String c r => if f c then drop_while f r else s
  end.

Fixpoint string_rev_onto (s acc : string) : string :=
  match s with
  | EmptyString => acc
  | String c r => string_rev_onto r (String c acc)
  end.

Definition string_rev (s : string) : string := string_rev_onto s EmptyString.

(** [s.strip()] *)
Definition py_strip (s : string) : string :=
  string_rev (drop_while py_isspace (string_rev (drop_while py_isspace s))).

(** [Some rest] when [s = p ++ rest]. *)
Fixpoint strip_prefix (p s : string) : option string :=
  match p with
  | EmptyString => Some s
  | String a p' =>
      match s with
      | EmptyString => None
      | String b s' => if Ascii.eqb a b then strip_prefix p' s' else None
      end
  end.

(** [s.startswith(p)] *)
Definition startswith (s p : string) : bool :=
  match strip_prefix p s with Some _ => true | None => false end.

(** [needle in hay] *)
Fixpoint contains (needle hay : string) : bool :=
  startswith hay needle ||
  match hay with
  | EmptyString => false
  | String _ r => contains needle r
  end.

(** [s.split(sep, 1)] for a one-character [sep], as the pair of the part
    before the first [sep] and the part after it; [None] when [sep] does
    not occur in [s]. *)
Fixpoint split_first (sep : ascii) (s : string) : option (string * string) :=
  match s with
  | EmptyString => None
  | String c r =>
      if Ascii.eqb c sep then Some (EmptyString, r)
      else match split_first sep r with
           | Some (a, b) => Some (String c a, b)
           | None => None
           end
  end.

(** [s.split(sep)] for a one-character [sep]. *)
Fixpoint split_on_aux (sep : ascii) (s cur : string) : list string :=
  match s with
  | EmptyString => [string_rev cur]
  | String c r =>
      if Ascii.eqb c sep then string_rev cur :: split_on_aux sep r EmptyString
      else split_on_aux sep r (String c cur)
  end.

Definition split_on (sep : ascii) (s : string) : list string :=
  split_on_aux sep s EmptyString.

(** [sep.join(parts)] *)
Fixpoint join (sep : string) (parts : list string) : string :=
  match parts with
  | [] => EmptyString
  | [p] => p
  | p :: rest => p ++ sep ++ join sep rest
  end.

Fixpoint string_filter (f : ascii -> bool) (s : string) : string :=
  match s with
  | EmptyString => EmptyString
  | String c r => if f c then String c (string_filter f r) else string_filter f r
  end.

(** The value of a string of decimal digits, most significant first. *)
Fixpoint digits_value_acc (s : string) (acc : Z) : Z :=
  match s with
  | EmptyString => acc
  | String c r => digits_value_acc r (10 * acc + (code c - 48))
  end.

Definition digits_value (s : string) : Z := digits_value_acc s 0.

(* ================================================================== *)
(** * Python floats: IEEE 754 binary64 over [Z] *)

(** [FFin neg m e] is the finite value [(-1)^neg * m * 2^e]. *)
Inductive float64 : Type :=
| FFin (neg : bool) (m e : Z)
| FInf (neg : bool)
| FNaN.

(** [num / den] rounded to the nearest integer, ties to even. *)
Definition round_half_even (num den : Z) : Z :=
  let d := num / den in
  let r := num mod den in
  match 2 * r ?= den with
  | Lt => d
  | Gt => d + 1
  | Eq => if Z.even d then d else d + 1
  end.

(** [floor (log2 (p / q))] for positive [p] and [q]. *)
Definition floor_log2_ratio (p q : Z) : Z :=
  let e0 := Z.log2 p - Z.log2 q in
  let above := if 0 <=? e0 then q * 2 ^ e0 <=? p else q <=? p * 2 ^ (- e0) in
  if above then e0 else e0 - 1.

(** The binary64 nearest to [p / q] ([0 <= p], [0 < q]), ties to even:
    53 significant bits, least exponent -1074 (subnormals), infinity from
    [2^1024] on. *)
Definition round_ratio (neg : bool) (p q : Z) : float64 :=
  if p =? 0 then FFin neg 0 0
  else
    let e := Z.max (floor_log2_ratio p q - 52) (-1074) in
    let m := if 0 <=? e then round_half_even p (q * 2 ^ e)
             else round_half_even (p * 2 ^ (- e)) q in
    if (972 <=? e) || ((e =? 971) && (m =? 2 ^ 53)) then FInf neg
    else FFin neg m e.

(** [x * y] on floats. *)
Definition fmul (x y : float64) : float64 :=
  match x, y with
  | FNaN, _ | _, FNaN => FNaN
  | FInf s1, FInf s2 => FInf (xorb s1 s2)
  | FInf s1, FFin s2 m _ | FFin s2 m _, FInf s1 =>
      if m =? 0 then FNaN else FInf (xorb s1 s2)
  | FFin s1 m1 e1, FFin s2 m2 e2 =>
      let e := e1 + e2 in
      if 0 <=? e then round_ratio (xorb s1 s2) (m1 * m2 * 2 ^ e) 1
      else round_ratio (xorb s1 s2) (m1 * m2) (2 ^ (- e))
  end.

(** The conversion of the [int] operand of [float * int]. *)
Definition float_of_int (z : Z) : result float64 :=
  match round_ratio (z <? 0) (Z.abs z) 1 with
  | FInf _ => Raise (mkExn OverflowError "int too large to convert to float")
  | f => Ok f
  end.

(** [int(x)] for a float [x]: truncation toward zero. *)
Definition int_of_float (x : float64) : result Z :=
  match x with
  | FFin neg m e =>
      let a := if 0 <=? e then m * 2 ^ e else m / 2 ^ (- e) in
      Ok (if neg then - a else a)
  | FInf _ => Raise (mkExn OverflowError "cannot convert float infinity to integer")
  | FNaN => Raise (mkExn ValueError "cannot convert float NaN to integer")
  end.

(** [float(s)] for the literals the size pattern captures: decimal digits,
    optionally followed by a point and decimal digits.  (The other
    literals [float] accepts are not needed and not modelled.) *)
Definition float_of_decimal (s : string) : result float64 :=
  let (ip, r) := span is_ascii_digit s in
  let bad := Raise (mkExn ValueError "could not convert string to float") in
  if is_empty ip then bad
  else match r with
       | EmptyString => Ok (round_ratio false (digits_value ip) 1)
       | String c fp =>
           if Ascii.eqb c "." && negb (is_empty fp) && string_forallb is_ascii_digit fp
           then Ok (round_ratio false (digits_value (ip ++ fp))
                                (10 ^ Z.of_nat (String.length fp)))
           else bad
       end.

(* ================================================================== *)
(** * Dynamically typed values *)

(** What [json.loads] can return, which is also what a row holds. *)
#[warnings="-register-all"]
Inductive pyval : Type :=
| VNone
| VBool (b : bool)
| VInt (z : Z)
| VFloat (f : float64)
| VStr (s : string)
| VList (l : list pyval)
| VDict (d : list (string * pyval)).

(** Truth value of an object ([if v], [not v]). *)
Definition truthy (v : pyval) : bool :=
  match v with
  | VNone => false
  | VBool b => b
  | VInt z => negb (z =? 0)
  | VFloat (FFin _ m _) => negb (m =? 0)
  | VFloat _ => true
  | VStr s => negb (is_empty s)
  | VList l => match l with [] => false | _ => true end
  | VDict d => match d with [] => false | _ => true end
  end.

(** Digits with single underscores between them, as [int] accepts. *)
Fixpoint int_body_ok (s : string) (prev_digit : bool) : bool :=
  match s with
  | EmptyString => prev_digit
  | String c r =>
      if is_ascii_digit c then int_body_ok r true
      else if Ascii.eqb c "_" then prev_digit && int_body_ok r false
      else false
  end.

(** [sys.int_info.default_max_str_digits]: the longest digit string [int]
    converts. *)
Definition int_max_str_digits : Z := 4300.

(** The white space [int] lets surround a number: TAB to CR, SPACE, and
    the two white space characters beyond ASCII, NEL (U+0085) and NBSP
    (U+00A0).  The separators FS to US (U+001C to U+001F) are not among
    them, although [str.strip] removes them: [int] refuses a text that
    holds one. *)
Definition int_isspace (c : ascii) : bool :=
  in_range 9 13 c || (code c =? 32) || (code c =? 133) || (code c =? 160).

(** [s] without the characters satisfying [f] at its two ends. *)
Definition strip_with (f : ascii -> bool) (s : string) : string :=
  string_rev (drop_while f (string_rev (drop_while f s))).

(** [int(s)] for a string: surrounding whitespace, an optional sign,
    decimal digits, no more of them than [int_max_str_digits]. *)
Definition int_of_str (s : string) : result Z :=
  let t := strip_with int_isspace s in
  let bad := Raise (mkExn ValueError "invalid literal for int() with base 10") in
  let body_value (neg : bool) (b : string) :=
    if int_body_ok b false
    then let digits := string_filter is_ascii_digit b in
         if int_max_str_digits <? Z.of_nat (String.length digits)
         then Raise (mkExn ValueError "Exceeds the limit for integer string conversion")
         else let v := digits_value digits in
              Ok (if neg then - v else v)
    else bad in
  match t with
  | EmptyString => bad
  | String c r =>
      if Ascii.eqb c "-" then body_value true r
      else if Ascii.eqb c "+" then body_value false r
      else body_value false t
  end.

(** [int(v)] *)
Definition py_int (v : pyval) : result Z :=
  match v with
  | VBool b => Ok (if b then 1 else 0)
  | VInt z => Ok z
  | VFloat f => int_of_float f
  | VStr s => int_of_str s
  | VNone | VList _ | VDict _ =>
      Raise (mkExn TypeError "int() argument must be a string, a bytes-like object or a real number")
  end.

(** Lookup in an association list; the first binding of a key counts. *)
Fixpoint assoc {A : Type} (k : string) (d : list (string * A)) : option A :=
  match d with
  | [] => None
  | (k', v) :: r => if String.eqb k k' then Some v else assoc k r
  end.

(** [d.get(k, default)] *)
Definition dict_get {A : Type} (d : list (string * A)) (k : string) (default : A) : A :=
  match assoc k d with Some v => v | None => default end.

(* ================================================================== *)
(** * Fixed tables *)

Definition API_ENDPOINTS : list (string -> string -> string) :=
  [ (fun query category => "https://apibay.org/q.php?q=" ++ query ++ "&cat=" ++ category);
    (fun query category => "https://pirateproxy.live/apibay/q.php?q=" ++ query ++ "&cat=" ++ category);
    (fun query category => "https://apibay.sbs/q.php?q=" ++ query ++ "&cat=" ++ category) ].

Definition HTML_ENDPOINTS : list (string -> string -> string) :=
  [ (fun query cat => "https://thepiratebay.org/search/" ++ query ++ "/1/99/" ++ cat);
    (fun query cat => "https://thepiratebay0.org/search/" ++ query ++ "/1/99/" ++ cat);
    (fun query cat => "https://tpb.party/search/" ++ query ++ "/1/99/" ++ cat) ].

Definition CATEGORY_SETS : list (string * list string) :=
  [ ("movies_hd", ["207"; "201"; "200"]);
    ("shows_hd", ["208"; "205"; "200"]);
    ("all_video", ["200"; "0"]) ].

Definition TRACKERS : list string :=
  [ "udp://tracker.opentrackr.org:1337/announce";
    "udp://open.demonii.com:1337/announce";
    "udp://tracker.coppersurfer.tk:6969/announce";
    "udp://tracker.leechers-paradise.org:6969/announce" ].

(* ================================================================== *)
(** * Size normaliser: [parse_size_bytes] *)

(** One attempt of the pattern
    [Size ([0-9]+(?:\.[0-9]+)?)\s*([A-Za-z]+)] at the start of [s];
    the two groups when it matches.  Every quantifier of the pattern is
    followed by something its own characters cannot start, so the greedy
    choice is the only one that can succeed. *)
Definition size_match_here (s : string) : option (string * string) :=
  match strip_prefix "Size " s with
  | None => None
  | Some r1 =>
      let (ip, r2) := span is_ascii_digit r1 in
      if is_empty ip then None
      else
        let (num, r3) :=
          match r2 with
          | String c r2' =>
              if Ascii.eqb c "." then
                let (fp, r3) := span is_ascii_digit r2' in
                if is_empty fp then (ip, r2) else (ip ++ "." ++ fp, r3)
              else (ip, r2)
          | EmptyString => (ip, r2)
          end in
        let (unit, _) := span is_ascii_alpha (drop_while py_isspace r3) in
        if is_empty unit then None else Some (num, unit)
  end.

(** [re.search]: the leftmost start at which the pattern matches. *)
Fixpoint size_search (s : string) : option (string * string) :=
  match size_match_here s with
  | Some g => Some g
  | None =>
      match s with
      | EmptyString => None
      | String _ r => size_search r
      end
  end.

Definition size_scale : list (string * Z) :=
  [ ("b", 1);
    ("kib", 1024);
    ("kb", 1024);
    ("mib", 1024 ^ 2);
    ("mb", 1024 ^ 2);
    ("gib", 1024 ^ 3);
    ("gb", 1024 ^ 3);
    ("tib", 1024 ^ 4);
    ("tb", 1024 ^ 4) ].

Definition parse_size_bytes (text : string) : result Z :=
  match size_search text with
  | None => Ok 0
  | Some (g1, g2) =>
      do value <- float_of_decimal g1;
      let unit := py_lower g2 in
      let scale := dict_get size_scale unit 1 in
      do fscale <- float_of_int scale;
      int_of_float (fmul value fscale)
  end.

(* ================================================================== *)
(** * [urllib.parse]: quoting, unquoting, query strings *)

Definition string_mem (c : ascii) (s : string) : bool :=
  negb (string_forallb (fun d => negb (Ascii.eqb c d)) s).

(** The characters [quote] never encodes: letters, digits and [_.-~]. *)
Definition always_safe (c : ascii) : bool :=
  is_ascii_alpha c || is_ascii_digit c || string_mem c "_.-~".

(** [s.encode("utf-8")] for Latin-1 code points: one byte below U+0080,
    two bytes from there on. *)
Fixpoint utf8_encode (s : string) : string :=
  match s with
  | EmptyString => EmptyString
  | String c r =>
      if code c <? 128 then String c (utf8_encode r)
      else String (chr (192 + code c / 64))
             (String (chr (128 + code c mod 64)) (utf8_encode r))
  end.

Definition hex_upper (n : Z) : ascii :=
  if n <? 10 then chr (48 + n) else chr (55 + n).

(** ["%{:02X}".format(b)] *)
Definition percent_byte (b : ascii) : string :=
  String "%" (String (hex_upper (code b / 16)) (String (hex_upper (code b mod 16)) EmptyString)).

Fixpoint quote_bytes (safe bs : string) : string :=
  match bs with
  | EmptyString => EmptyString
  | String b r =>
      (if always_safe b || ((code b <? 128) && string_mem b safe)
       then String b EmptyString else percent_byte b) ++ quote_bytes safe r
  end.

(** [urllib.parse.quote(s, safe=safe)]; the default [safe] is ["/"]. *)
Definition quote (s safe : string) : string := quote_bytes safe (utf8_encode s).

(** ** The whole of [str] *)

(** A Python [str] is a sequence of code points, from 0 to U+10FFFF.
    The strings of the model are those whose code points stay below
    U+0100; where a property is about every [str], the function is
    written out on lists of code points. *)
Definition ustring : Type := list Z.

(** The code points of a string of the model. *)
Definition codes (s : string) : ustring := map code (list_ascii_of_string s).

Definition is_code_point (cp : Z) : bool := (0 <=? cp) && (cp <? 1114112).

(** A surrogate, U+D800 to U+DFFF: a code point that a [str] can hold
    ([json.loads] makes one of the escape [\ud800]) and that UTF-8 does
    not encode. *)
Definition is_surrogate (cp : Z) : bool := (55296 <=? cp) && (cp <=? 57343).

(** The UTF-8 bytes of a code point: one to four. *)
Definition utf8_of_code_point (cp : Z) : string :=
  if cp <? 128 then String (chr cp) EmptyString
  else if cp <? 2048 then
    String (chr (192 + cp / 64)) (String (chr (128 + cp mod 64)) EmptyString)
  else if cp <? 65536 then
    String (chr (224 + cp / 4096))
      (String (chr (128 + (cp / 64) mod 64))
         (String (chr (128 + cp mod 64)) EmptyString))
  else
    String (chr (240 + cp / 262144))
      (String (chr (128 + (cp / 4096) mod 64))
         (String (chr (128 + (cp / 64) mod 64))
            (String (chr (128 + cp mod 64)) EmptyString))).

(** [s.encode("utf-8")], the errors strict: the first surrogate raises
    [UnicodeEncodeError]. *)
Fixpoint encode_utf8 (s : ustring) : result string :=
  match s with
  | [] => Ok EmptyString
  | cp :: r =>
      if is_surrogate cp
      then Raise (mkExn UnicodeEncodeError "surrogates not allowed")
      else do bs <- encode_utf8 r; Ok (utf8_of_code_point cp ++ bs)
  end.

(** [urllib.parse.quote(s, safe=safe)] on any [str]. *)
Definition quote_unicode (s : ustring) (safe : string) : result string :=
  do bs <- encode_utf8 s; Ok (quote_bytes safe bs).

(** A list comprehension whose element can raise. *)
Fixpoint map_result {A B : Type} (f : A -> result B) (l : list A) : result (list B) :=
  match l with
  | [] => Ok []
  | x :: r => do y <- f x; do ys <- map_result f r; Ok (y :: ys)
  end.

Definition hex_value (c : ascii) : option Z :=
  if is_ascii_digit c then Some (code c - 48)
  else if in_range 65 70 c then Some (code c - 55)
  else if in_range 97 102 c then Some (code c - 87)
  else None.

(** State of the UTF-8 decoder inside a multi-byte sequence: bytes still
    expected, code point so far, and the range the next byte must lie in. *)
Record utf8_pending : Type :=
  mkPending { pend_left : nat; pend_acc : Z; pend_lo : Z; pend_hi : Z }.

(** A byte met outside a sequence: a code point, the start of a sequence,
    or (neither) a malformed byte. *)
Definition utf8_lead (b : Z) : option Z * option utf8_pending :=
  if b <? 128 then (Some b, None)
  else if (194 <=? b) && (b <=? 223) then (None, Some (mkPending 1 (b - 192) 128 191))
  else if b =? 224 then (None, Some (mkPending 2 (b - 224) 160 191))
  else if b =? 237 then (None, Some (mkPending 2 (b - 224) 128 159))
  else if (225 <=? b) && (b <=? 239) then (None, Some (mkPending 2 (b - 224) 128 191))
  else if b =? 240 then (None, Some (mkPending 3 (b - 240) 144 191))
  else if (241 <=? b) && (b <=? 243) then (None, Some (mkPending 3 (b - 240) 128 191))
  else if b =? 244 then (None, Some (mkPending 3 (b - 240) 128 143))
  else (Some 65533, None).

(** [bs.decode("utf-8", errors="replace")] as a list of code points; a
    malformed sequence gives U+FFFD. *)
Fixpoint utf8_decode (bs : list Z) (st : option utf8_pending) : list Z :=
  match bs with
  | [] => match st with None => [] | Some _ => [65533] end
  | b :: r =>
      let fresh (pre : list Z) :=
        match utf8_lead b with
        | (Some cp, _) => (pre ++ cp :: utf8_decode r None)%list
        | (None, st') => (pre ++ utf8_decode r st')%list
        end in
      match st with
      | None => fresh []
      | Some p =>
          if (pend_lo p <=? b) && (b <=? pend_hi p) then
            let acc := pend_acc p * 64 + (b - 128) in
            match pend_left p with
            | S (S n) => utf8_decode r (Some (mkPending (S n) acc 128 191))
            | _ => acc :: utf8_decode r None
            end
          else fresh [65533]
      end
  end.

(** A code point as a character of the model; code points beyond U+00FF
    have no character in the Latin-1 model and are written [?]. *)
Definition latin1_of_code_point (cp : Z) : ascii :=
  if cp <? 256 then chr cp else "?"%char.

Fixpoint string_of_code_points (l : list Z) : string :=
  match l with
  | [] => EmptyString
  | cp :: r => String (latin1_of_code_point cp) (string_of_code_points r)
  end.

Definition flush_bytes (pending : list Z) : string :=
  string_of_code_points (utf8_decode (rev pending) None).

(** [urllib.parse.unquote(s)]: in every run of ASCII characters the
    escapes [%XX] become bytes and the run is decoded as UTF-8; the other
    characters stay.  [pending] holds the bytes of the current run, last
    byte first. *)
Fixpoint unquote_aux (s : string) (pending : list Z) : string :=
  match s with
  | EmptyString => flush_bytes pending
  | String c r =>
      let literal :=
        if code c <? 128 then unquote_aux r (code c :: pending)
        else flush_bytes pending ++ String c (unquote_aux r []) in
      if Ascii.eqb c "%" then
        match r with
        | String h1 (String h2 r') =>
            match hex_value h1, hex_value h2 with
            | Some a, Some b => unquote_aux r' (16 * a + b :: pending)
            | _, _ => literal
            end
        | _ => literal
        end
      else literal
  end.

Definition unquote (s : string) : string := unquote_aux s [].

(** [s.replace("+", " ")] *)
Definition plus_to_space (s : string) : string :=
  string_map (fun c => if Ascii.eqb c "+" then " "%char else c) s.

(** [urllib.parse.parse_qsl(qs)]: the fields between [&], each split at
    its first [=]; a field without [=] or with an empty value is left out. *)
Definition parse_qsl (qs : string) : list (string * string) :=
  flat_map
    (fun name_value =>
       match split_first "=" name_value with
       | None => []
       | Some (n, v) =>
           if is_empty v then []
           else [(unquote (plus_to_space n), unquote (plus_to_space v))]
       end)
    (split_on "&" qs).

(** [urllib.parse.parse_qs(qs).get(name) or []]: the values of the fields
    called [name], in their order. *)
Definition qs_values (name qs : string) : list string :=
  map snd (filter (fun nv => String.eqb (fst nv) name) (parse_qsl qs)).

(** [urllib.parse.urlparse(url).query] for a [url] that starts with
    ["magnet:?"]: TAB, CR and LF are removed, the scheme ends at the first
    colon, nothing else comes before the query (the rest starts with [?]
    and not with [//]), a fragment is cut at the first [#]. *)
Definition url_query (url : string) : string :=
  let url := string_filter
               (fun c => negb ((code c =? 9) || (code c =? 10) || (code c =? 13))) url in
  match split_first ":" url with
  | None => EmptyString
  | Some (_, rest) =>
      let rest := match split_first "#" rest with
                  | Some (before, _) => before
                  | None => rest
                  end in
      match split_first "?" rest with
      | Some (_, query) => query
      | None => EmptyString
      end
  end.

(** The last element of [s.split(sep, n)]. *)
Fixpoint split_max_last (sep : ascii) (n : nat) (s : string) : string :=
  match n with
  | O => s
  | S n' =>
      match split_first sep s with
      | Some (_, r) => split_max_last sep n' r
      | None => s
      end
  end.

(* ================================================================== *)
(** * Magnet hash extractor: [parse_btih_from_magnet] *)

(** [for xt in xt_values] *)
Fixpoint first_btih (xt_values : list string) : option string :=
  match xt_values with
  | [] => None
  | xt :: rest =>
      if startswith xt "urn:btih:" then Some (split_max_last ":" 2 xt)
      else first_btih rest
  end.

Definition parse_btih_from_magnet (magnet : string) : option string :=
  if negb (startswith magnet "magnet:?") then None
  else
    let xt_values := qs_values "xt" (url_query magnet) in
    first_btih xt_values.

(* ================================================================== *)
(** * HTML row parser: [TPBHTMLParser] *)

(** The calls [HTMLParser.feed] makes on the parser, in document order. *)
Inductive event : Type :=
| StartTag (tag : string) (attrs : list (string * option string))
| EndTag (tag : string)
| Data (data : string).

(** [self.current] *)
Record current_row : Type := mkCurrent {
  cur_name : option string;
  cur_magnet : option string;
  cur_size : Z
}.

Record parser : Type := mkParser {
  rows : list pyval;
  in_tr : bool;
  in_det_name : bool;
  in_title_anchor : bool;
  in_det_desc : bool;
  in_align_right : bool;
  align_right_values : list Z;
  current : current_row
}.

Definition fresh_current : current_row := mkCurrent None None 0.

(** [_reset_row]: everything but [rows]. *)
Definition reset_row (p : parser) : parser :=
  mkParser (rows p) false false false false false [] fresh_current.

(** [TPBHTMLParser()] *)
Definition new_parser : parser :=
  reset_row (mkParser [] false false false false false [] fresh_current).

(** [dict(attrs).get(k)]: the last pair called [k] counts; the outer
    [None] is a missing key, the inner one an attribute without value. *)
Definition attrs_get (attrs : list (string * option string)) (k : string)
  : option (option string) :=
  assoc k (rev attrs).

(** [dict(attrs).get(k) == v] *)
Definition attr_is (attrs : list (string * option string)) (k v : string) : bool :=
  match attrs_get attrs k with
  | Some (Some x) => String.eqb x v
  | _ => false
  end.

Definition set_in_det_name (b : bool) (p : parser) : parser :=
  mkParser (rows p) (in_tr p) b (in_title_anchor p) (in_det_desc p)
           (in_align_right p) (align_right_values p) (current p).

Definition set_in_title_anchor (b : bool) (p : parser) : parser :=
  mkParser (rows p) (in_tr p) (in_det_name p) b (in_det_desc p)
           (in_align_right p) (align_right_values p) (current p).

Definition set_in_det_desc (b : bool) (p : parser) : parser :=
  mkParser (rows p) (in_tr p) (in_det_name p) (in_title_anchor p) b
           (in_align_right p) (align_right_values p) (current p).

Definition set_in_align_right (b : bool) (p : parser) : parser :=
  mkParser (rows p) (in_tr p) (in_det_name p) (in_title_anchor p) (in_det_desc p)
           b (align_right_values p) (current p).

Definition set_align_right_values (l : list Z) (p : parser) : parser :=
  mkParser (rows p) (in_tr p) (in_det_name p) (in_title_anchor p) (in_det_desc p)
           (in_align_right p) l (current p).

Definition set_current (c : current_row) (p : parser) : parser :=
  mkParser (rows p) (in_tr p) (in_det_name p) (in_title_anchor p) (in_det_desc p)
           (in_align_right p) (align_right_values p) c.

Definition set_rows (l : list pyval) (p : parser) : parser :=
  mkParser l (in_tr p) (in_det_name p) (in_title_anchor p) (in_det_desc p)
           (in_align_right p) (align_right_values p) (current p).

Definition when (b : bool) (f : parser -> parser) (p : parser) : parser :=
  if b then f p else p.

Definition handle_starttag (tag : string) (attrs : list (string * option string))
    (p : parser) : result parser :=
  if String.eqb tag "tr" then
    Ok (mkParser (rows p) true (in_det_name p) (in_title_anchor p) (in_det_desc p)
                 (in_align_right p) [] fresh_current)
  else if negb (in_tr p) then Ok p
  else
    let p := when (String.eqb tag "div" && attr_is attrs "class" "detName")
                  (set_in_det_name true) p in
    let p := when (String.eqb tag "font" && attr_is attrs "class" "detDesc")
                  (set_in_det_desc true) p in
    do p <-
      (if String.eqb tag "a" then
         (* href = attrs.get("href", "") *)
         let href := match attrs_get attrs "href" with
                     | Some v => v
                     | None => Some EmptyString
                     end in
         match href with
         | None =>
             Raise (mkExn AttributeError
                          "'NoneType' object has no attribute 'startswith'")
         | Some href =>
             if startswith href "magnet:?xt=" then
               Ok (set_current (mkCurrent (cur_name (current p)) (Some href)
                                          (cur_size (current p))) p)
             else Ok (when (in_det_name p) (set_in_title_anchor true) p)
         end
       else Ok p);
    Ok (when (String.eqb tag "td" && attr_is attrs "align" "right")
             (set_in_align_right true) p).

(** The dictionary appended to [self.rows]. *)
Definition make_row (name info_hash : string) (seeders leechers size : Z) : pyval :=
  VDict [ ("name", VStr name);
          ("info_hash", VStr info_hash);
          ("seeders", VInt seeders);
          ("leechers", VInt leechers);
          ("size", VInt size) ].

Definition handle_endtag (tag : string) (p : parser) : parser :=
  let p :=
    if String.eqb tag "tr" && in_tr p then
      let info_hash :=
        parse_btih_from_magnet
          (match cur_magnet (current p) with Some m => m | None => EmptyString end) in
      let p :=
        match cur_name (current p), info_hash with
        | Some name, Some h =>
            if negb (is_empty name) && negb (is_empty h) then
              let seeders := nth 0 (align_right_values p) 0 in
              let leechers := nth 1 (align_right_values p) 0 in
              set_rows (rows p ++ [make_row name h seeders leechers
                                            (cur_size (current p))])%list p
            else p
        | _, _ => p
        end in
      reset_row p
    else p in
  let p := when (String.eqb tag "div") (set_in_det_name false) p in
  let p := when (String.eqb tag "a") (set_in_title_anchor false) p in
  let p := when (String.eqb tag "font") (set_in_det_desc false) p in
  when (String.eqb tag "td" && in_align_right p) (set_in_align_right false) p.

Definition handle_data (data : string) (p : parser) : result parser :=
  if negb (in_tr p) then Ok p
  else
    let text := py_strip data in
    if is_empty text then Ok p
    else
      let p := when (in_title_anchor p && in_det_name p)
                    (set_current (mkCurrent (Some text) (cur_magnet (current p))
                                            (cur_size (current p)))) p in
      do p <-
        (if in_det_desc p then
           do size_bytes <- parse_size_bytes text;
           Ok (when (negb (size_bytes =? 0))
                    (set_current (mkCurrent (cur_name (current p))
                                            (cur_magnet (current p)) size_bytes)) p)
         else Ok p);
      if in_align_right p && py_isdigit text then
        do v <- int_of_str text;
        Ok (set_align_right_values (align_right_values p ++ [v])%list p)
      else Ok p.

Definition handle (ev : event) (p : parser) : result parser :=
  match ev with
  | StartTag tag attrs => handle_starttag tag attrs p
  | EndTag tag => Ok (handle_endtag tag p)
  | Data data => handle_data data p
  end.

(** The handlers run on the calls [HTMLParser.feed] makes, in their
    order; the exception of a handler ends the run. *)
Fixpoint feed (evs : list event) (p : parser) : result parser :=
  match evs with
  | [] => Ok p
  | ev :: rest => do p' <- handle ev p; feed rest p'
  end.

(** What [HTMLParser.feed] does with a page: the calls it makes on the
    handlers, in document order, and the exception its own code raises
    after the last of them, if it raises one (an [AssertionError] on the
    marked section [<![x]>], for one). *)
Record tokens : Type := mkTokens {
  calls : list event;
  tokenizer_error : option exn
}.

(** [parser.feed(html)], on what the tokenizer makes of [html]. *)
Definition feed_tokens (t : tokens) (p : parser) : result parser :=
  do p' <- feed (calls t) p;
  match tokenizer_error t with
  | Some e => Raise e
  | None => Ok p'
  end.

(* ================================================================== *)
(** * Endpoint fetchers and search orchestrator *)

(** [urllib.request.Request(url, headers=...)] with the [timeout] it is
    opened with. *)
Record request : Type := mkRequest {
  req_url : string;
  req_headers : list (string * string);
  req_timeout : Z
}.

(** What one [urlopen ... read().decode("utf-8", errors="ignore")] gives:
    the text of the body, or the exception raised on the way. *)
Definition response : Type := result string.

(** The requests made so far with what came back, oldest first. *)
Definition trace : Type := list (request * response).

(** How the loop over the categories of one endpoint, or over the
    endpoints, ends: a [return], falling off the end with the current
    [last_error], or an exception no [except] clause catches. *)
Inductive loop_out : Type :=
| Return (data : list pyval)
| Exhausted (last_error : option exn)
| Uncaught (e : exn).

(** [except (URLError, HTTPError, TimeoutError)] *)
Definition is_network_error (e : exn) : bool :=
  match exn_cls e with
  | URLError | HTTPError | TimeoutError => true
  | _ => false
  end.

(** [except json.JSONDecodeError] *)
Definition is_json_error (e : exn) : bool :=
  match exn_cls e with
  | JSONDecodeError => true
  | _ => false
  end.

Definition user_agent : list (string * string) := [("User-Agent", "Mozilla/5.0")].

Section Fetchers.

(** The network: the answer to a request may depend on everything that
    was requested before. *)
Variable urlopen : trace -> request -> response.

(** [json.loads] *)
Variable json_loads : string -> result pyval.

(** The tokenizer of [html.parser.HTMLParser]. *)
Variable tokenize : string -> tokens.

(** The body of the [try] of [fetch_html_results], after the request. *)
Definition html_attempt (resp : response) : result (list pyval) :=
  do html <- resp;
  do p <- feed_tokens (tokenize html) new_parser;
  Ok (rows p).

(** [for cat in CATEGORY_SETS[category_key]] of [fetch_html_results] *)
Fixpoint html_cats (endpoint : string -> string -> string) (encoded_query : string)
    (cats : list string) (last_error : option exn) (tr : trace)
  : loop_out * trace :=
  match cats with
  | [] => (Exhausted last_error, tr)
  | cat :: cats' =>
      let url := endpoint encoded_query cat in
      let req := mkRequest url user_agent 10 in
      let resp := urlopen tr req in
      let tr := (tr ++ [(req, resp)])%list in
      match html_attempt resp with
      | Ok (r :: rs) => (Return (r :: rs), tr)
      | Ok [] => html_cats endpoint encoded_query cats' last_error tr
      | Raise exc =>
          if is_network_error exc
          then html_cats endpoint encoded_query cats' (Some exc) tr
          else (Uncaught exc, tr)
      end
  end.

(** [for endpoint in HTML_ENDPOINTS] *)
Fixpoint html_endpoints (endpoints : list (string -> string -> string))
    (encoded_query : string) (cats : list string) (last_error : option exn)
    (tr : trace) : loop_out * trace :=
  match endpoints with
  | [] => (Exhausted last_error, tr)
  | endpoint :: endpoints' =>
      match html_cats endpoint encoded_query cats last_error tr with
      | (Exhausted last_error, tr) =>
          html_endpoints endpoints' encoded_query cats last_error tr
      | out => out
      end
  end.

(** [KeyError(k)]: the text is the key the exception carries; [str(exc)]
    is its [repr], the key between quotes. *)
Definition key_error (k : string) : exn := mkExn KeyError k.

Definition fetch_html_results (query category_key : string) (tr : trace)
  : result (list pyval) * trace :=
  let encoded_query := quote query "/" in
  match assoc category_key CATEGORY_SETS with
  | None => (Raise (key_error category_key), tr)
  | Some cats =>
      match html_endpoints HTML_ENDPOINTS encoded_query cats None tr with
      | (Return rows, tr) => (Ok rows, tr)
      | (Uncaught e, tr) => (Raise e, tr)
      | (Exhausted (Some last_error), tr) =>
          (Raise (mkExn RuntimeError
                        ("All HTML endpoints failed. Last error: " ++ exn_msg last_error)),
           tr)
      | (Exhausted None, tr) => (Ok [], tr)
      end
  end.

(** The body of the [try] of [fetch_results], after the request; [None]
    is an answer that is not a non-empty list. *)
Definition json_attempt (resp : response) : result (option (list pyval)) :=
  do body <- resp;
  do data <- json_loads body;
  match data with
  | VList (r :: rs) => Ok (Some (r :: rs))
  | _ => Ok None
  end.

(** [for cat in CATEGORY_SETS[category_key]] of [fetch_results] *)
Fixpoint json_cats (endpoint : string -> string -> string) (encoded_query : string)
    (cats : list string) (last_error : option exn) (tr : trace)
  : loop_out * trace :=
  match cats with
  | [] => (Exhausted last_error, tr)
  | cat :: cats' =>
      let url := endpoint encoded_query cat in
      let req := mkRequest url user_agent 8 in
      let resp := urlopen tr req in
      let tr := (tr ++ [(req, resp)])%list in
      match json_attempt resp with
      | Ok (Some data) => (Return data, tr)
      | Ok None => json_cats endpoint encoded_query cats' last_error tr
      | Raise exc =>
          if is_network_error exc || is_json_error exc
          then json_cats endpoint encoded_query cats' (Some exc) tr
          else (Uncaught exc, tr)
      end
  end.

(** [for endpoint in API_ENDPOINTS] *)
Fixpoint json_endpoints (endpoints : list (string -> string -> string))
    (encoded_query : string) (cats : list string) (last_error : option exn)
    (tr : trace) : loop_out * trace :=
  match endpoints with
  | [] => (Exhausted last_error, tr)
  | endpoint :: endpoints' =>
      match json_cats endpoint encoded_query cats last_error tr with
      | (Exhausted last_error, tr) =>
          json_endpoints endpoints' encoded_query cats last_error tr
      | out => out
      end
  end.

Definition fetch_results (query category_key : string) (tr : trace)
  : result (list pyval) * trace :=
  let encoded_query := quote query "/" in
  match assoc category_key CATEGORY_SETS with
  | None => (Raise (key_error category_key), tr)
  | Some cats =>
      match json_endpoints API_ENDPOINTS encoded_query cats None tr with
      | (Return data, tr) => (Ok data, tr)
      | (Uncaught e, tr) => (Raise e, tr)
      | (Exhausted last_error, tr) =>
          match fetch_html_results query category_key tr with
          | (Raise e, tr) => (Raise e, tr)
          | (Ok (r :: rs), tr) => (Ok (r :: rs), tr)
          | (Ok [], tr) =>
              match last_error with
              | Some last_error =>
                  (Raise (mkExn RuntimeError
                                ("All proxy endpoints/categories failed. Last error: "
                                 ++ exn_msg last_error)),
                   tr)
              | None => (Ok [], tr)
              end
          end
      end
  end.

End Fetchers.

(* ================================================================== *)
(** * Magnet builder: [build_magnet] *)

Definition build_magnet (info_hash name : string) : string :=
  let xt := "urn:btih:" ++ info_hash in
  let dn := quote name " " in
  let trackers := join "&" (map (fun tr => "tr=" ++ quote tr "/") TRACKERS) in
  "magnet:?xt=" ++ xt ++ "&dn=" ++ dn ++ "&" ++ trackers.

(** [build_magnet] on any [str]; the result holds the code points of the
    info-hash as they are. *)
Definition build_magnet_unicode (info_hash name : ustring) : result ustring :=
  let xt := (codes "urn:btih:" ++ info_hash)%list in
  do dn <- quote_unicode name " ";
  do trackers <- map_result (fun tr => do q <- quote_unicode (codes tr) "/";
                                       Ok ("tr=" ++ q)) TRACKERS;
  Ok (codes "magnet:?xt=" ++ xt ++ codes ("&dn=" ++ dn ++ "&" ++ join "&" trackers))%list.

(* ================================================================== *)
(** * Result filter/ranker: [filter_and_sort] *)

(** One element of the list [filter_and_sort] returns. *)
Record ranked : Type := mkRanked {
  r_name : string;
  r_info_hash : pyval;
  r_seeders : Z;
  r_leechers : Z;
  r_size : Z
}.

Definition attribute_error (attr : string) : exn :=
  mkExn AttributeError ("object has no attribute '" ++ attr ++ "'").

(** [row.get(k, default)]: only a dictionary has [get]. *)
Definition row_get (row : pyval) (k : string) (default : pyval) : result pyval :=
  match row with
  | VDict d => Ok (dict_get d k default)
  | _ => Raise (attribute_error "get")
  end.

(** The body of the loop on one row: [None] is a [continue]. *)
Definition filter_row (resolution : string) (row : pyval) : result (option ranked) :=
  do name <- row_get row "name" (VStr EmptyString);
  if negb (truthy name) then Ok None
  else
    match name with
    | VStr name_s =>
        let lower_name := py_lower name_s in
        if String.eqb resolution "1080" && negb (contains "1080" lower_name) then Ok None
        else if String.eqb resolution "4k"
                && negb (contains "2160" lower_name || contains "4k" lower_name
                         || contains "uhd" lower_name) then Ok None
        else
          do info_hash <- row_get row "info_hash" VNone;
          if negb (truthy info_hash) then Ok None
          else
            do seeders_v <- row_get row "seeders" (VInt 0);
            do seeders <- py_int seeders_v;
            do leechers_v <- row_get row "leechers" (VInt 0);
            do leechers <- py_int leechers_v;
            do size_v <- row_get row "size" (VInt 0);
            do size <- py_int size_v;
            Ok (Some (mkRanked name_s info_hash seeders leechers size))
    | _ => Raise (attribute_error "lower")
    end.

(** [for row in rows], appending to [filtered]. *)
Fixpoint filter_loop (resolution : string) (rows : list pyval) (filtered : list ranked)
  : result (list ranked) :=
  match rows with
  | [] => Ok filtered
  | row :: rest =>
      do r <- filter_row resolution row;
      filter_loop resolution rest
        (match r with Some x => (filtered ++ [x])%list | None => filtered end)
  end.

(** [x] goes before the first element whose key is not greater than its
    own: elements with equal keys keep their order. *)
Fixpoint insert_desc (x : ranked) (l : list ranked) : list ranked :=
  match l with
  | [] => [x]
  | y :: r => if r_seeders x <? r_seeders y then y :: insert_desc x r else x :: l
  end.

(** [l.sort(key=lambda r: r["seeders"], reverse=True)]: the stable sort
    by decreasing key. *)
Fixpoint sort_by_seeders_desc (l : list ranked) : list ranked :=
  match l with
  | [] => []
  | x :: r => insert_desc x (sort_by_seeders_desc r)
  end.

Definition filter_and_sort (rows : list pyval) (resolution : string)
  : result (list ranked) :=
  do filtered <- filter_loop resolution rows [];
  Ok (firstn 100 (sort_by_seeders_desc filtered)).

(* ================================================================== *)
(** * Size display: [human_size] *)

(** [x / y] on floats; a zero divisor raises [ZeroDivisionError] (a class
    of its own in Python, [OtherError] here). *)
Definition fdiv (x y : float64) : result float64 :=
  match x, y with
  | _, FFin _ 0 _ => Raise (mkExn OtherError "float division by zero")
  | FNaN, _ | _, FNaN => Ok FNaN
  | FInf _, FInf _ => Ok FNaN
  | FInf s1, FFin s2 _ _ => Ok (FInf (xorb s1 s2))
  | FFin s1 _ _, FInf s2 => Ok (FFin (xorb s1 s2) 0 0)
  | FFin s1 m1 e1, FFin s2 m2 e2 =>
      let e := e1 - e2 in
      Ok (if 0 <=? e then round_ratio (xorb s1 s2) (m1 * 2 ^ e) m2
          else round_ratio (xorb s1 s2) m1 (m2 * 2 ^ (- e)))
  end.

(** [x < n] for a float [x] and an [int] [n]: the comparison of the two
    numbers. *)
Definition float_lt_int (x : float64) (n : Z) : bool :=
  match x with
  | FFin neg m e =>
      let s := if neg then - m else m in
      if 0 <=? e then s * 2 ^ e <? n else s <? n * 2 ^ (- e)
  | FInf neg => neg
  | FNaN => false
  end.

(** [str(n)] for a non-negative [int]. *)
Definition decimal (n : Z) : string :=
  NilZero.string_of_uint (N.to_uint (Z.to_N n)).

(** A number of tenths, written with one decimal. *)
Definition tenths (t : Z) : string :=
  decimal (t / 10) ++ "." ++ decimal (t mod 10).

(** [f"{x:.1f}"]: the value rounded to one decimal, ties to even. *)
Definition format_1f (x : float64) : string :=
  match x with
  | FFin neg m e =>
      (if neg then "-" else "")
      ++ tenths (if 0 <=? e then 10 * m * 2 ^ e
                 else round_half_even (10 * m) (2 ^ (- e)))
  | FInf neg => if neg then "-inf" else "inf"
  | FNaN => "nan"
  end.

(** [for unit in units] of [human_size], and the [return] after it. *)
Fixpoint human_size_loop (units : list string) (size : float64) : result string :=
  match units with
  | [] => Ok (format_1f size ++ " PB")
  | unit :: rest =>
      if float_lt_int size 1024 then Ok (format_1f size ++ " " ++ unit)
      else
        do divisor <- float_of_int 1024;
        do size <- fdiv size divisor;
        human_size_loop rest size
  end.

Definition human_size (size_bytes : Z) : result string :=
  do size <- float_of_int size_bytes;
  human_size_loop ["B"; "KB"; "MB"; "GB"; "TB"] size.

(* ================================================================== *)
(** * Vocabulary of the specification *)

(** ** Percent-encoding, character by character *)

(** The UTF-8 bytes of one Latin-1 character, each written [%XX]. *)
Definition percent_char (c : ascii) : string :=
  if code c <? 128 then percent_byte c
  else percent_byte (chr (192 + code c / 64)) ++ percent_byte (chr (128 + code c mod 64)).

(** Every character is written [%XX] except those [keep] lets through. *)
Fixpoint percent_encode (keep : ascii -> bool) (s : string) : string :=
  match s with
  | EmptyString => EmptyString
  | String c r =>
      (if keep c then String c EmptyString else percent_char c) ++ percent_encode keep r
  end.

(** The unreserved characters of RFC 3986, which no percent-encoding
    touches. *)
Definition unreserved (c : ascii) : bool := always_safe c.

Definition unreserved_or (extra : ascii) (c : ascii) : bool :=
  unreserved c || Ascii.eqb c extra.

Fixpoint concat_strings (l : list string) : string :=
  match l with
  | [] => EmptyString
  | x :: r => x ++ concat_strings r
  end.

(** The magnet form with the name encoded by [enc_name] and every tracker
    of the fixed list, in its order, encoded by [enc_tracker]. *)
Definition magnet_form (enc_name enc_tracker : string -> string)
    (info_hash name : string) : string :=
  "magnet:?xt=urn:btih:" ++ info_hash ++ "&dn=" ++ enc_name name
  ++ concat_strings (map (fun tr => "&tr=" ++ enc_tracker tr) TRACKERS).

(** The form as the specification words it: spaces of the name literal,
    trackers fully encoded. *)
Definition magnet_as_specified : string -> string -> string :=
  magnet_form (percent_encode (unreserved_or " ")) (percent_encode unreserved).

(** ** Percent-encoding of any [str] *)

(** Every byte written [%XX]. *)
Fixpoint percent_bytes (bs : string) : string :=
  match bs with
  | EmptyString => EmptyString
  | String b r => percent_byte b ++ percent_bytes r
  end.

(** Every code point is written as the [%XX] of its UTF-8 bytes, except
    the ASCII characters [keep] lets through. *)
Fixpoint percent_encode_points (keep : ascii -> bool) (s : ustring) : string :=
  match s with
  | [] => EmptyString
  | cp :: r =>
      (if (cp <? 128) && keep (chr cp) then String (chr cp) EmptyString
       else percent_bytes (utf8_of_code_point cp))
      ++ percent_encode_points keep r
  end.

(** A sequence of code points. *)
Definition code_points (s : ustring) : Prop :=
  forallb is_code_point s = true.

(** A name of three code points: a letter, a character of four UTF-8
    bytes, a space. *)
Definition example_wide_name : ustring := [77; 128253; 32].

(** A name with a lone surrogate. *)
Definition example_surrogate_name : ustring := [77; 55296].

(** Forty times the letter A. *)
Definition hash_A40 : string := "AAAAAAAAAAAAAAAAAAAAAAAAAAAAAAAAAAAAAAAA".

(** ** The size pattern *)

(** The units the specification lists. *)
Definition size_units : list string :=
  ["B"; "KiB"; "KB"; "MiB"; "MB"; "GiB"; "GB"; "TiB"; "TB"].

(** [s] begins with one of the listed units, in any letter case. *)
Definition unit_here (s : string) : bool :=
  existsb (fun u => startswith (py_lower s) (py_lower u)) size_units.

(** [s] begins with "Size <number> <unit>", the unit a listed one. *)
Definition listed_pattern_here (s : string) : bool :=
  match strip_prefix "Size " s with
  | None => false
  | Some r1 =>
      let (ip, r2) := span is_ascii_digit r1 in
      negb (is_empty ip) &&
      (unit_here (drop_while py_isspace r2) ||
       match r2 with
       | String c r2' =>
           Ascii.eqb c "." &&
           (let (fp, r3) := span is_ascii_digit r2' in
            negb (is_empty fp) && unit_here (drop_while py_isspace r3))
       | EmptyString => false
       end)
  end.

(** [s] contains "Size <number> <unit>" with a listed unit. *)
Fixpoint has_listed_pattern (s : string) : bool :=
  listed_pattern_here s ||
  match s with
  | EmptyString => false
  | String _ r => has_listed_pattern r
  end.

Definition all_chars (f : ascii -> bool) (s : string) : Prop :=
  string_forallb f s = true.

(** A decimal number: digits, optionally a point and digits. *)
Definition is_number (s : string) : Prop :=
  exists ip, ip <> EmptyString /\ all_chars is_ascii_digit ip /\
    (s = ip \/
     exists fp, fp <> EmptyString /\ all_chars is_ascii_digit fp /\ s = ip ++ "." ++ fp).

(** [s] contains "Size <number>", optional white space and at least one
    letter: the language of the pattern [parse_size_bytes] searches. *)
Definition has_size_word_pattern (s : string) : Prop :=
  exists before num spaces c after,
    s = before ++ "Size " ++ num ++ spaces ++ String c after /\
    is_number num /\ all_chars py_isspace spaces /\ is_ascii_alpha c = true.

(** The first character of [s], if any, does not satisfy [f]. *)
Definition head_not (f : ascii -> bool) (s : string) : Prop :=
  match s with
  | EmptyString => True
  | String c _ => f c = false
  end.


(** [int(float(num) * scale)], what [parse_size_bytes] makes of a
    matched number with the scale of its unit. *)
Definition scaled_size (num : string) (scale : Z) : result Z :=
  do value <- float_of_decimal num;
  do fscale <- float_of_int scale;
  int_of_float (fmul value fscale).

(** The decimal-prefix units with the binary-prefix unit of the same
    magnitude and the power of 1024 it stands for. *)
Definition unit_aliases : list (string * string * Z) :=
  [ ("KB", "KiB", 1); ("MB", "MiB", 2); ("GB", "GiB", 3); ("TB", "TiB", 4) ].

(** ** The filter/ranker *)

(** The value a row holds under [k], if the row is a dictionary that has
    the key. *)
Definition field (row : pyval) (k : string) : option pyval :=
  match row with
  | VDict d => assoc k d
  | _ => None
  end.

(** The name of a row; the empty string when it has none. *)
Definition row_name (row : pyval) : string :=
  match field row "name" with
  | Some (VStr s) => s
  | _ => EmptyString
  end.

(** The row has an info-hash that counts as present. *)
Definition has_info_hash (row : pyval) : bool :=
  match field row "info_hash" with
  | Some v => truthy v
  | None => false
  end.

(** The resolution test on the lowercase name. *)
Definition passes_resolution (resolution lower_name : string) : bool :=
  if String.eqb resolution "1080" then contains "1080" lower_name
  else if String.eqb resolution "4k" then
    contains "2160" lower_name || contains "4k" lower_name || contains "uhd" lower_name
  else true.

(** The rows the specification keeps. *)
Definition keeps (resolution : string) (row : pyval) : bool :=
  negb (is_empty (row_name row))
  && passes_resolution resolution (py_lower (row_name row))
  && has_info_hash row.

(** [z] is [int(row.get(k, 0))]: the integer of the value under [k], and
    0 when the row has no such key. *)
Definition coerced (row : pyval) (k : string) (z : Z) : Prop :=
  match field row k with
  | Some v => py_int v = Ok z
  | None => z = 0
  end.

(** [int(row.get(k, 0))], and 0 where [int] would raise. *)
Definition int_field (row : pyval) (k : string) : Z :=
  match field row k with
  | Some v => match py_int v with Ok z => z | Raise _ => 0 end
  | None => 0
  end.

Definition coercible (row : pyval) (k : string) : bool :=
  match field row k with
  | Some v => match py_int v with Ok _ => true | Raise _ => false end
  | None => true
  end.

(** The shape of a row the ranker can ingest: a dictionary whose name, if
    it has one that is not empty, is a string, and whose seeders, leechers
    and size, where present, have an integer value. *)
Definition row_shaped (row : pyval) : bool :=
  match row with
  | VDict d =>
      match assoc "name" d with
      | None | Some (VStr _) => true
      | Some v => negb (truthy v)
      end
      && coercible row "seeders" && coercible row "leechers" && coercible row "size"
  | _ => false
  end.

(** The record made of a kept row. *)
Definition to_ranked (row : pyval) : ranked :=
  mkRanked (row_name row)
           (match field row "info_hash" with Some v => v | None => VNone end)
           (int_field row "seeders") (int_field row "leechers") (int_field row "size").

(** [r] is the record of [row]: it has the name and the info-hash of the
    row, and for seeders, leechers and size the integer [int] makes of the
    value of the row, 0 where the row has none. *)
Definition record_of (row : pyval) (r : ranked) : Prop :=
  r_name r = row_name row /\
  field row "info_hash" = Some (r_info_hash r) /\
  coerced row "seeders" (r_seeders r) /\
  coerced row "leechers" (r_leechers r) /\
  coerced row "size" (r_size r).

(** The elements of [l] whose seeders are [k], in their order. *)
Definition with_seeders (k : Z) (l : list ranked) : list ranked :=
  filter (fun r => r_seeders r =? k) l.

Definition sorted_desc (l : list ranked) : Prop :=
  StronglySorted (fun a b => r_seeders b <= r_seeders a) l.

(** [l'] is [l] stable-sorted by seeders descending: sorted, the same
    elements, and among equal seeders the order of [l]. *)
Definition stable_sort_desc_of (l l' : list ranked) : Prop :=
  sorted_desc l' /\ Permutation l l' /\
  forall k, with_seeders k l' = with_seeders k l.

(** A row as the JSON endpoints give it: every value a string. *)
Definition api_row (name info_hash seeders leechers size : string) : pyval :=
  VDict [ ("id", VStr "1"); ("name", VStr name); ("info_hash", VStr info_hash);
          ("leechers", VStr leechers); ("seeders", VStr seeders);
          ("size", VStr size) ].

(** Rows of both shapes, with a tie on the seeders, a name without
    resolution, a row without info-hash and a row without name. *)
Definition example_rows : list pyval :=
  [ api_row "Example.Movie.1080p.x264" hash_A40 "5" "2" "1000";
    api_row "Example.Movie.720p" hash_A40 "700" "1" "900";
    make_row "Example.Movie.1080P.HEVC" hash_A40 120 5 (2 * 1024 ^ 3);
    VDict [ ("name", VStr "Other.1080p"); ("info_hash", VStr hash_A40);
            ("seeders", VInt 5) ];
    VDict [ ("name", VStr "No.Hash.1080p"); ("seeders", VInt 900) ];
    VDict [ ("info_hash", VStr hash_A40); ("seeders", VStr "12") ] ].

(** A row with a name, an info-hash and a count that is no number. *)
Definition bad_count_row : pyval :=
  VDict [ ("name", VStr "Example.Movie.1080p"); ("info_hash", VStr hash_A40);
          ("seeders", VStr "n/a") ].

(** A row whose counts are negative. *)
Definition negative_row : pyval :=
  VDict [ ("name", VStr "Example.Movie.1080p"); ("info_hash", VStr hash_A40);
          ("seeders", VInt (-5)); ("leechers", VStr "-1") ].

(** ** The HTML row parser *)

(** A magnet link that carries [info_hash]. *)
Definition magnet_of (info_hash : string) : string :=
  "magnet:?xt=urn:btih:" ++ info_hash ++ "&dn=Example.Movie.1080p".

(** The events of one table row: a title anchor in the title container, a
    magnet anchor, a description with the size, two right-aligned cells.
    They are what [HTMLParser.feed] calls on the markup
<<
<tr><td><div class="detName"><a href="/torrent/1/Example.Movie.1080p"
class="detLink">Example.Movie.1080p</a></div><a
href="magnet:?xt=urn:btih:<info_hash>&dn=Example.Movie.1080p"
title="Download"><img src="/static/img/icon-magnet.gif"></a><font
class="detDesc">Uploaded 03-14 2020, Size 2 GiB, ULed by someone</font
></td><td align="right">120</td><td align="right">5</td></tr>
>>
    (written here with line breaks inside the tags). *)
Definition row_events_before_magnet : list event :=
  [ StartTag "tr" [];
    StartTag "td" [];
    StartTag "div" [("class", Some "detName")];
    StartTag "a" [("href", Some "/torrent/1/Example.Movie.1080p");
                  ("class", Some "detLink")];
    Data "Example.Movie.1080p";
    EndTag "a";
    EndTag "div" ].

Definition row_events_after_magnet : list event :=
  [ StartTag "img" [("src", Some "/static/img/icon-magnet.gif")];
    EndTag "a";
    StartTag "font" [("class", Some "detDesc")];
    Data "Uploaded 03-14 2020, Size 2 GiB, ULed by someone";
    EndTag "font";
    EndTag "td";
    StartTag "td" [("align", Some "right")];
    Data "120";
    EndTag "td";
    StartTag "td" [("align", Some "right")];
    Data "5";
    EndTag "td" ].

Definition row_events (info_hash : string) : list event :=
  (row_events_before_magnet
   ++ [StartTag "a" [("href", Some (magnet_of info_hash)); ("title", Some "Download")]]
   ++ row_events_after_magnet
   ++ [EndTag "tr"])%list.

Definition example_row_events : list event := row_events hash_A40.



(** The magnet links of the anchors among [evs]. *)
Definition magnet_links (evs : list event) : list string :=
  flat_map (fun ev =>
              match ev with
              | StartTag tag attrs =>
                  match attrs_get attrs "href" with
                  | Some (Some href) =>
                      if String.eqb tag "a" && startswith href "magnet:?xt="
                      then [href] else []
                  | _ => []
                  end
              | _ => []
              end) evs.

(** [row] has a name, and an info-hash that one of [links] yields. *)
Definition complete_row (links : list string) (row : pyval) : Prop :=
  exists name info_hash seeders leechers size magnet,
    row = make_row name info_hash seeders leechers size /\
    name <> EmptyString /\ info_hash <> EmptyString /\
    In magnet links /\ parse_btih_from_magnet magnet = Some info_hash.

(** What the parser has read: complete rows, and a magnet link that is
    one of [links]. *)
Definition parser_inv (links : list string) (p : parser) : Prop :=
  Forall (complete_row links) (rows p) /\
  forall magnet, cur_magnet (current p) = Some magnet -> In magnet links.


(** ** The fetchers and the orchestrator *)

(** How one request of a fetcher ends. *)
Inductive attempt : Type :=
| Hit (data : list pyval)   (* a non-empty result *)
| Empty                     (* a clean answer with nothing in it *)
| Recorded (e : exn)        (* an error the fetcher catches and records *)
| Fatal (e : exn).          (* an error no clause catches *)

(** The attempt goes on to the next combination. *)
Definition quiet (a : attempt) : Prop :=
  match a with
  | Empty | Recorded _ => True
  | Hit _ | Fatal _ => False
  end.

(** The error recorded last, [last] if there is none. *)
Fixpoint last_recorded (outs : list attempt) (last : option exn) : option exn :=
  match outs with
  | [] => last
  | Recorded e :: rest => last_recorded rest (Some e)
  | _ :: rest => last_recorded rest last
  end.

(** The first attempt that ends the scan, if any. *)
Fixpoint first_settled (outs : list attempt) : option attempt :=
  match outs with
  | [] => None
  | Hit d :: _ => Some (Hit d)
  | Fatal e :: _ => Some (Fatal e)
  | _ :: rest => first_settled rest
  end.

(** A scan of [n] combinations went through all of them quietly, or
    stopped at its last attempt. *)
Definition scanned (outs : list attempt) (n : nat) : Prop :=
  (Forall quiet outs /\ length outs = n) \/
  (exists before a, outs = (before ++ [a])%list /\ Forall quiet before /\ ~ quiet a).

(** How a scan ends, from the outcomes of its attempts. *)
Definition scan_end (outs : list attempt) (last : option exn) : loop_out :=
  match first_settled outs with
  | Some (Hit data) => Return data
  | Some (Fatal e) => Uncaught e
  | _ => Exhausted (last_recorded outs last)
  end.



(** The requests of a fetcher, endpoint after endpoint and for each the
    categories in their order. *)
Definition requests_of (endpoints : list (string -> string -> string))
    (timeout : Z) (query : string) (cats : list string) : list request :=
  flat_map (fun endpoint =>
              map (fun cat => mkRequest (endpoint (quote query "/") cat) user_agent timeout)
                  cats)
           endpoints.


(** The failures the JSON fetcher of the program records: network errors
    and undecodable bodies. *)
Definition recorded_by_json (e : exn) : bool :=
  is_network_error e || is_json_error e.

(** The failures the HTML fetcher of the program records: network
    errors. *)
Definition recorded_by_html (e : exn) : bool := is_network_error e.

Section Outcomes.

Variable urlopen : trace -> request -> response.
Variable json_loads : string -> result pyval.
Variable tokenize : string -> tokens.

(** The failures a fetcher records before it goes on. *)
Variable recorded : exn -> bool.

Definition failed (e : exn) : attempt :=
  if recorded e then Recorded e else Fatal e.

(** How an attempt of the JSON fetcher ends, read off the answer to its
    request: a failure when the request or the decoding of the body
    fails, a hit when the body is a JSON array that is not empty, and
    nothing otherwise. *)
Definition json_outcome (resp : response) : attempt :=
  match resp with
  | Raise e => failed e
  | Ok body =>
      match json_loads body with
      | Raise e => failed e
      | Ok (VList (row :: more)) => Hit (row :: more)
      | Ok _ => Empty
      end
  end.

(** How an attempt of the HTML fetcher ends, read off the answer to its
    request: a failure when the request or the reading of the page
    fails, a hit when the row parser finds rows in the page, and nothing
    otherwise. *)
Definition html_outcome (resp : response) : attempt :=
  match resp with
  | Raise e => failed e
  | Ok html =>
      match feed_tokens (tokenize html) new_parser with
      | Raise e => failed e
      | Ok p =>
          match rows p with
          | [] => Empty
          | row :: more => Hit (row :: more)
          end
      end
  end.

(** The answers in [new] are those the network gives after [tr]. *)
Fixpoint answered (tr new : trace) : Prop :=
  match new with
  | [] => True
  | (rq, rs) :: rest => rs = urlopen tr rq /\ answered (tr ++ [(rq, rs)])%list rest
  end.

(** One scan: the requests in their order until one settles. *)
Fixpoint scan (outcome : response -> attempt) (reqs : list request)
    (last_error : option exn) (tr : trace) : loop_out * trace :=
  match reqs with
  | [] => (Exhausted last_error, tr)
  | rq :: rest =>
      let rs := urlopen tr rq in
      let tr := (tr ++ [(rq, rs)])%list in
      match outcome rs with
      | Hit data => (Return data, tr)
      | Empty => scan outcome rest last_error tr
      | Recorded e => scan outcome rest (Some e) tr
      | Fatal e => (Uncaught e, tr)
      end
  end.

End Outcomes.





Definition example_tokenize (html : string) : tokens := mkTokens [] None.

(** ** The size display *)

(** The units of [human_size], smallest first. *)
Definition size_unit_names : list string := ["B"; "KB"; "MB"; "GB"; "TB"; "PB"].

(** ** What the row parser keeps *)



(** The event is the start tag of a table row. *)
Definition opens_row (ev : event) : bool :=
  match ev with
  | StartTag tag _ => String.eqb tag "tr"
  | _ => false
  end.

(** The event is the end tag of a table row. *)
Definition closes_row (ev : event) : bool :=
  match ev with
  | EndTag tag => String.eqb tag "tr"
  | _ => false
  end.

Definition count_events (f : event -> bool) (evs : list event) : nat :=
  length (filter f evs).

(** ** Magnet links *)

(** A character [urlparse] neither removes (TAB, LF, CR) nor reads as the
    start of the fragment. *)
Definition query_char (c : ascii) : bool :=
  negb ((code c =? 9) || (code c =? 10) || (code c =? 13) || Ascii.eqb c "#").

(** The [xt] value of a BitTorrent info-hash. *)
Definition btih_urn (info_hash : string) : string := "urn:btih:" ++ info_hash.

(** ** Requests *)

(** A printable ASCII character other than the space: what a request
    line can carry. *)
Definition url_char (c : ascii) : bool := in_range 33 126 c.

(** A request as the fetchers build them: a URL of printable characters,
    the browser-like header, and the timeout of one of the two fetchers. *)
Definition well_formed_request (rq : request) : Prop :=
  all_chars url_char (req_url rq) /\
  req_headers rq = user_agent /\
  (req_timeout rq = 8 \/ req_timeout rq = 10).

(** The answer to a request is a page, and the parser reads it to its
    end and finds no row in it. *)
Definition clean_empty_page (tokenize : string -> tokens) (resp : response) : Prop :=
  exists html p,
    resp = Ok html /\ feed_tokens (tokenize html) new_parser = Ok p /\ rows p = [].

(** A page whose first row holds an anchor with a bare [href]. *)
Definition bare_href_events : list event :=
  [StartTag "tr" []; StartTag "a" [("href", None)]].

(** ** The names of the rows *)




(** ** Pages the parser reads without error *)

(** An event of an ordinary page: no anchor with a bare [href] (the
    attribute without a value), no text node of more than 300
    characters, and no text node that passes [isdigit()], once stripped,
    without being made of the digits 0 to 9. *)
Definition ordinary_event (ev : event) : bool :=
  match ev with
  | StartTag tag attrs =>
      negb (String.eqb tag "a")
      || match attrs_get attrs "href" with Some None => false | _ => true end
  | EndTag _ => true
  | Data data =>
      (String.length data <=? 300)%nat
      && (negb (py_isdigit (py_strip data))
          || string_forallb is_ascii_digit (py_strip data))
  end.

(** ** Rows and the table rows they come from *)













(* ================================================================== *)
(** * Properties *)

(** ** Characters and strings *)

Ltac each_char c :=
  destruct c as [[] [] [] [] [] [] [] []].

Lemma high_byte_never_safe (c : ascii) :
  (code c <? 128) = false ->
  always_safe c = false /\
  always_safe (chr (192 + code c / 64)) = false /\
  (code (chr (192 + code c / 64)) <? 128) = false /\
  always_safe (chr (128 + code c mod 64)) = false /\
  (code (chr (128 + code c mod 64)) <? 128) = false.
Proof.
  each_char c; intros H; vm_compute in H; try discriminate H;
    vm_compute; repeat split; reflexivity.
Qed.

Lemma append_assoc (a b c : string) : (a ++ b) ++ c = a ++ (b ++ c).
Proof.
  induction a as [|x a IH]; simpl; [reflexivity|now rewrite IH].
Qed.

Lemma append_nil_r (a : string) : a ++ "" = a.
Proof.
  induction a as [|x a IH]; simpl; [reflexivity|now rewrite IH].
Qed.

Lemma percent_encode_ext (f g : ascii -> bool) (s : string) :
  (forall c, f c = g c) -> percent_encode f s = percent_encode g s.
Proof.
  intros E; induction s as [|c r IH]; simpl; [reflexivity|].
  now rewrite E, IH.
Qed.

Lemma utf8_encode_cons (c : ascii) (r : string) :
  utf8_encode (String c r)
  = if code c <? 128 then String c (utf8_encode r)
    else String (chr (192 + code c / 64))
           (String (chr (128 + code c mod 64)) (utf8_encode r)).
Proof. reflexivity. Qed.

Lemma quote_bytes_cons (safe : string) (b : ascii) (r : string) :
  quote_bytes safe (String b r)
  = (if always_safe b || ((code b <? 128) && string_mem b safe)
     then String b EmptyString else percent_byte b) ++ quote_bytes safe r.
Proof. reflexivity. Qed.

Lemma percent_encode_cons (keep : ascii -> bool) (c : ascii) (r : string) :
  percent_encode keep (String c r)
  = (if keep c then String c EmptyString else percent_char c) ++ percent_encode keep r.
Proof. reflexivity. Qed.

(** [quote] works on the bytes of the string, [percent_encode] on its
    characters: they agree. *)
Lemma quote_percent_encode (safe s : string) :
  quote s safe
  = percent_encode (fun c => always_safe c || ((code c <? 128) && string_mem c safe)) s.
Proof.
  unfold quote; induction s as [|c r IH]; [reflexivity|].
  rewrite utf8_encode_cons, percent_encode_cons.
  destruct (code c <? 128) eqn:Hc.
  - rewrite quote_bytes_cons, Hc, IH. unfold percent_char. rewrite Hc. reflexivity.
  - destruct (high_byte_never_safe c Hc) as (S0 & S1 & L1 & S2 & L2).
    rewrite !quote_bytes_cons, S0, S1, L1, S2, L2, IH. cbn [orb andb].
    unfold percent_char. rewrite Hc. now rewrite append_assoc.
Qed.

Lemma quote_keeping_space (s : string) :
  quote s " " = percent_encode (unreserved_or " ") s.
Proof.
  rewrite quote_percent_encode. apply percent_encode_ext.
  intros c; each_char c; vm_compute; reflexivity.
Qed.

Lemma quote_keeping_slash (s : string) :
  quote s "/" = percent_encode (unreserved_or "/") s.
Proof.
  rewrite quote_percent_encode. apply percent_encode_ext.
  intros c; each_char c; vm_compute; reflexivity.
Qed.

(** ** Scanning *)

Lemma strip_prefix_app (p s : string) : strip_prefix p (p ++ s) = Some s.
Proof.
  induction p as [|a p IH]; simpl; [reflexivity|].
  now rewrite Ascii.eqb_refl.
Qed.

Lemma strip_prefix_sound (p s r : string) : strip_prefix p s = Some r -> s = p ++ r.
Proof.
  revert s; induction p as [|a p IH]; intros s H; simpl in *.
  - now inversion H.
  - destruct s as [|b s]; [discriminate|].
    destruct (Ascii.eqb a b) eqn:E; [|discriminate].
    apply Ascii.eqb_eq in E; subst b. now rewrite (IH _ H).
Qed.

Lemma span_sound (f : ascii -> bool) (s a b : string) :
  span f s = (a, b) -> s = a ++ b /\ all_chars f a /\ head_not f b.
Proof.
  unfold all_chars.
  revert a b; induction s as [|c s IH]; intros a b H; simpl in H.
  - inversion H; subst; simpl; auto.
  - destruct (f c) eqn:Fc.
    + destruct (span f s) as [a' b'] eqn:E. inversion H; subst; clear H.
      destruct (IH _ _ eq_refl) as (-> & Ha & Hb).
      simpl; rewrite Fc, Ha; auto.
    + inversion H; subst; simpl; auto.
Qed.

Lemma span_app (f : ascii -> bool) (a b : string) :
  all_chars f a -> head_not f b -> span f (a ++ b) = (a, b).
Proof.
  unfold all_chars.
  induction a as [|c a IH]; simpl; intros Ha Hb.
  - destruct b as [|d b]; simpl in *; [reflexivity|now rewrite Hb].
  - apply andb_true_iff in Ha as [Hc Ha]. now rewrite Hc, IH.
Qed.

Lemma drop_while_sound (f : ascii -> bool) (s : string) :
  exists a, s = a ++ drop_while f s /\ all_chars f a /\ head_not f (drop_while f s).
Proof.
  unfold all_chars.
  induction s as [|c s IH]; simpl.
  - exists ""; simpl; auto.
  - destruct (f c) eqn:Fc.
    + destruct IH as (a & E & Ha & Hb).
      exists (String c a); simpl. rewrite Fc, Ha, <- E; auto.
    + exists ""; simpl; auto.
Qed.

Lemma drop_while_app (f : ascii -> bool) (a b : string) :
  all_chars f a -> head_not f b -> drop_while f (a ++ b) = b.
Proof.
  unfold all_chars.
  induction a as [|c a IH]; simpl; intros Ha Hb.
  - destruct b as [|d b]; simpl in *; [reflexivity|now rewrite Hb].
  - apply andb_true_iff in Ha as [Hc Ha]. now rewrite Hc, IH.
Qed.

Lemma is_empty_false (s : string) : is_empty s = false <-> s <> "".
Proof.
  destruct s; simpl; split; intros H; congruence.
Qed.

Lemma space_not_digit (c : ascii) : py_isspace c = true -> is_ascii_digit c = false.
Proof. each_char c; vm_compute; intros H; try discriminate H; reflexivity. Qed.

Lemma alpha_not_digit (c : ascii) : is_ascii_alpha c = true -> is_ascii_digit c = false.
Proof. each_char c; vm_compute; intros H; try discriminate H; reflexivity. Qed.

Lemma alpha_not_space (c : ascii) : is_ascii_alpha c = true -> py_isspace c = false.
Proof. each_char c; vm_compute; intros H; try discriminate H; reflexivity. Qed.

Lemma space_not_point (c : ascii) : py_isspace c = true -> Ascii.eqb c "." = false.
Proof. each_char c; vm_compute; intros H; try discriminate H; reflexivity. Qed.

Lemma alpha_not_point (c : ascii) : is_ascii_alpha c = true -> Ascii.eqb c "." = false.
Proof. each_char c; vm_compute; intros H; try discriminate H; reflexivity. Qed.

(** What follows a number in a match: white space, then a letter. *)
Lemma tail_head (spaces : string) (c : ascii) (rest : string) (f : ascii -> bool) :
  all_chars py_isspace spaces -> is_ascii_alpha c = true ->
  (forall d, py_isspace d = true -> f d = false) ->
  (forall d, is_ascii_alpha d = true -> f d = false) ->
  head_not f (spaces ++ String c rest).
Proof.
  unfold all_chars; intros Hs Hc Fs Fa.
  destruct spaces as [|d sp]; simpl in *.
  - now apply Fa.
  - apply andb_true_iff in Hs as [Hd _]. now apply Fs.
Qed.

(** ** Size normaliser *)

Lemma size_match_here_sound (s num unit : string) :
  size_match_here s = Some (num, unit) ->
  exists spaces c after,
    s = "Size " ++ num ++ spaces ++ String c after /\
    is_number num /\ all_chars py_isspace spaces /\ is_ascii_alpha c = true.
Proof.
  unfold size_match_here.
  destruct (strip_prefix "Size " s) as [r1|] eqn:P; [|discriminate].
  apply strip_prefix_sound in P; subst s.
  destruct (span is_ascii_digit r1) as [ip r2] eqn:Sip.
  apply span_sound in Sip as (-> & Hip & Hr2).
  destruct (is_empty ip) eqn:Eip; [discriminate|].
  apply is_empty_false in Eip.
  assert (Tail : forall n r3,
            is_number n -> ip ++ r2 = n ++ r3 ->
            (let (u, _) := span is_ascii_alpha (drop_while py_isspace r3) in
             if is_empty u then None else Some (n, u)) = Some (num, unit) ->
            exists spaces c after,
              "Size " ++ ip ++ r2 = "Size " ++ num ++ spaces ++ String c after /\
              is_number num /\ all_chars py_isspace spaces /\ is_ascii_alpha c = true).
  { intros n r3 Hn E H.
    destruct (drop_while_sound py_isspace r3) as (sp & E3 & Hsp & _).
    destruct (span is_ascii_alpha (drop_while py_isspace r3)) as [u rest] eqn:Su.
    apply span_sound in Su as (Eu & Hu & _).
    destruct u as [|c u]; [discriminate|]. inversion H; subst n unit; clear H.
    exists sp, c, (u ++ rest). repeat split; auto.
    - rewrite E, E3 at 1. rewrite Eu. reflexivity.
    - unfold all_chars in Hu; simpl in Hu. now apply andb_true_iff in Hu as [Hc _]. }
  assert (Plain : is_number ip) by (exists ip; auto).
  destruct r2 as [|c r2'].
  - apply (Tail ip ""); auto.
  - destruct (Ascii.eqb c ".") eqn:Ec.
    + apply Ascii.eqb_eq in Ec; subst c.
      destruct (span is_ascii_digit r2') as [fp r3] eqn:Sfp.
      apply span_sound in Sfp as (-> & Hfp & _).
      destruct (is_empty fp) eqn:Efp.
      * apply (Tail ip (String "." (fp ++ r3))); auto.
      * apply is_empty_false in Efp.
        apply (Tail (ip ++ "." ++ fp) r3).
        -- exists ip; repeat split; auto. right; exists fp; auto.
        -- rewrite !append_assoc. reflexivity.
    + apply (Tail ip (String c r2')); auto.
Qed.

Lemma size_search_sound (s : string) (g : string * string) :
  size_search s = Some g -> has_size_word_pattern s.
Proof.
  induction s as [|x s IH]; simpl size_search.
  - destruct (size_match_here "") as [g'|] eqn:M; [|discriminate].
    intros _. destruct g' as [num unit].
    apply size_match_here_sound in M as (sp & c & after & E & Hn & Hs & Hc).
    exists "", num, sp, c, after; auto.
  - destruct (size_match_here (String x s)) as [g'|] eqn:M.
    + intros _. destruct g' as [num unit].
      apply size_match_here_sound in M as (sp & c & after & E & Hn & Hs & Hc).
      exists "", num, sp, c, after; auto.
    + intros H. destruct (IH H) as (before & num & sp & c & after & E & Hn & Hs & Hc).
      exists (String x before), num, sp, c, after. subst s; auto.
Qed.

Lemma size_match_here_canonical (num spaces : string) (c : ascii) (u rest : string) :
  is_number num -> all_chars py_isspace spaces ->
  all_chars is_ascii_alpha (String c u) -> head_not is_ascii_alpha rest ->
  size_match_here ("Size " ++ num ++ spaces ++ String c u ++ rest) = Some (num, String c u).
Proof.
  intros (ip & Nip & Hip & Hnum) Hsp Hu Hrest.
  assert (Hc : is_ascii_alpha c = true).
  { unfold all_chars in Hu; simpl in Hu. now apply andb_true_iff in Hu as [Hc _]. }
  unfold size_match_here. rewrite strip_prefix_app.
  assert (Units : (let (unit, _) :=
                     span is_ascii_alpha (drop_while py_isspace (spaces ++ String c u ++ rest)) in
                   if is_empty unit then None else Some (num, unit))
                  = Some (num, String c u)).
  { rewrite drop_while_app; auto.
    - change (String c u ++ rest) with (String c u ++ rest).
      now rewrite span_app.
    - simpl. now apply alpha_not_space. }
  assert (Hd : head_not is_ascii_digit (spaces ++ String c (u ++ rest))).
  { apply tail_head; auto using space_not_digit, alpha_not_digit. }
  assert (Hp : head_not (fun d => Ascii.eqb d ".") (spaces ++ String c (u ++ rest))).
  { apply tail_head; auto using space_not_point, alpha_not_point. }
  destruct Hnum as [->|(fp & Nfp & Hfp & ->)].
  - rewrite span_app; auto.
    apply is_empty_false in Nip; rewrite Nip.
    change (String c u ++ rest) with (String c (u ++ rest)) in *.
    destruct (spaces ++ String c (u ++ rest)) as [|d r2'] eqn:E; [exact Units|].
    simpl in Hp. rewrite Hp. exact Units.
  - rewrite !append_assoc. rewrite span_app; auto; [|reflexivity].
    apply is_empty_false in Nip; rewrite Nip.
    cbn [append]. rewrite Ascii.eqb_refl.
    rewrite span_app; auto.
    apply is_empty_false in Nfp; rewrite Nfp.
    rewrite <- !append_assoc in Units. rewrite !append_assoc in Units.
    exact Units.
Qed.

Lemma size_search_canonical (num spaces : string) (c : ascii) (u rest : string) :
  is_number num -> all_chars py_isspace spaces ->
  all_chars is_ascii_alpha (String c u) -> head_not is_ascii_alpha rest ->
  size_search ("Size " ++ num ++ spaces ++ String c u ++ rest) = Some (num, String c u).
Proof.
  intros Hn Hs Hu Hr.
  pose proof (size_match_here_canonical num spaces c u rest Hn Hs Hu Hr) as M.
  change ("Size " ++ num ++ spaces ++ String c u ++ rest)
    with (String "S" ("ize " ++ num ++ spaces ++ String c u ++ rest)) in *.
  cbn [size_search]. now rewrite M.
Qed.

(** [parse_size_bytes] on a text that starts with the pattern: the number
    times the scale of the unit. *)
Lemma parse_size_bytes_canonical (num : string) (c : ascii) (u rest : string) :
  is_number num ->
  all_chars is_ascii_alpha (String c u) -> head_not is_ascii_alpha rest ->
  parse_size_bytes ("Size " ++ num ++ " " ++ String c u ++ rest)
  = scaled_size num (dict_get size_scale (py_lower (String c u)) 1).
Proof.
  intros Hn Hu Hr. unfold parse_size_bytes.
  rewrite (size_search_canonical num " " c u rest) by (auto; reflexivity).
  reflexivity.
Qed.

(** C7. The size normaliser returns floor(1.5 x 1024^3) on
    "Size 1.5 GiB text" and 700 x 1024^2 on "Size 700 MB"; and after any
    number, a decimal-prefix unit (KB, MB, GB, TB) gives what the
    binary-prefix unit (KiB, MiB, GiB, TiB) gives: the number scaled by
    the same power of 1024. *)
Theorem size_examples_and_unit_aliases :
  parse_size_bytes "Size 1.5 GiB text" = Ok (3 * 1024 ^ 3 / 2) /\
  parse_size_bytes "Size 700 MB" = Ok (700 * 1024 ^ 2) /\
  forall num rest decimal binary k,
    is_number num -> head_not is_ascii_alpha rest ->
    In (decimal, binary, k) unit_aliases ->
    parse_size_bytes ("Size " ++ num ++ " " ++ decimal ++ rest)
    = scaled_size num (1024 ^ k) /\
    parse_size_bytes ("Size " ++ num ++ " " ++ binary ++ rest)
    = scaled_size num (1024 ^ k).
Proof.
  split; [vm_compute; reflexivity|].
  split; [vm_compute; reflexivity|].
  intros num rest decimal binary k Hn Hr Hin.
  unfold unit_aliases in Hin; simpl in Hin.
  repeat (destruct Hin as [Hin|Hin];
          [inversion Hin; subst; clear Hin;
           split; (rewrite parse_size_bytes_canonical by (auto; reflexivity));
           reflexivity|]).
  contradiction.
Qed.

Lemma size_examples_and_unit_aliases_witness :
  parse_size_bytes "Size 42 KB." = Ok 43008 /\
  parse_size_bytes "Size 42 KiB." = Ok 43008.
Proof.
  destruct size_examples_and_unit_aliases as (_ & _ & H).
  apply (H "42" "." "KB" "KiB" 1).
  - exists "42". split; [discriminate|]. split; [reflexivity|]. now left.
  - reflexivity.
  - simpl; auto.
Defined.

(** C8, as the specification states it, fails: "Size 3 files" holds no
    listed unit, and the size normaliser returns 3, reading the unknown
    unit with scale 1. *)
Lemma size_unlisted_unit_not_zero :
  ~ (forall text, has_listed_pattern text = false -> parse_size_bytes text = Ok 0).
Proof.
  intros H. specialize (H "Size 3 files" eq_refl).
  vm_compute in H. discriminate H.
Qed.

(** C8, amended. For every input string that does not contain
    "Size <number>", optional white space and at least one letter
    (whether or not the letters are a listed unit), the size normaliser
    returns 0 and does not raise. *)
Theorem size_zero_without_pattern (text : string) :
  ~ has_size_word_pattern text -> parse_size_bytes text = Ok 0.
Proof.
  intros H. unfold parse_size_bytes.
  destruct (size_search text) as [g|] eqn:S; [|reflexivity].
  exfalso. apply H. exact (size_search_sound text g S).
Qed.

(** The search finds every occurrence of the pattern. *)
Lemma size_search_complete (s : string) :
  has_size_word_pattern s -> exists g, size_search s = Some g.
Proof.
  intros (before & num & spaces & c & after & -> & Hn & Hs & Hc).
  induction before as [|x before IH].
  - destruct (span is_ascii_alpha after) as [u rest] eqn:Su.
    apply span_sound in Su as (-> & Hu & Hrest).
    exists (num, String c u).
    change ("" ++ "Size " ++ num ++ spaces ++ String c (u ++ rest))
      with ("Size " ++ num ++ spaces ++ String c u ++ rest).
    apply size_search_canonical; auto.
    unfold all_chars in *; simpl. now rewrite Hc, Hu.
  - destruct IH as (g & IH).
    change (String x before ++ "Size " ++ num ++ spaces ++ String c after)
      with (String x (before ++ "Size " ++ num ++ spaces ++ String c after)).
    cbn [size_search]. rewrite IH.
    destruct (size_match_here _) as [g'|]; eauto.
Qed.

Lemma no_pattern_when_search_fails (s : string) :
  size_search s = None -> ~ has_size_word_pattern s.
Proof.
  intros S H. destruct (size_search_complete s H) as (g & E). congruence.
Qed.

Lemma size_zero_without_pattern_witness :
  ~ has_size_word_pattern "size 3 GB, SIZE 4 MB, Size: 5 KB" /\
  parse_size_bytes "size 3 GB, SIZE 4 MB, Size: 5 KB" = Ok 0.
Proof.
  assert (H : ~ has_size_word_pattern "size 3 GB, SIZE 4 MB, Size: 5 KB").
  { apply no_pattern_when_search_fails. vm_compute. reflexivity. }
  split; [exact H|].
  apply (size_zero_without_pattern "size 3 GB, SIZE 4 MB, Size: 5 KB" H).
Defined.

(** ** Magnet builder *)

(** C4, as the specification states it, fails: the magnet of forty A's and
    "My Movie" does not start with "...&dn=My%20Movie&tr=". *)
Lemma magnet_my_movie_not_percent_20 :
  startswith (build_magnet hash_A40 "My Movie")
             ("magnet:?xt=urn:btih:" ++ hash_A40 ++ "&dn=My%20Movie&tr=") = false.
Proof. vm_compute. reflexivity. Qed.

(** C4, amended. The magnet builder applied to forty A's and "My Movie"
    produces a string that starts with
    "magnet:?xt=urn:btih:AAAA...&dn=My Movie&tr=": the space of the name
    is left as it is, and in every tracker the colon is written %3A and
    the slashes are left as they are. *)
Theorem magnet_my_movie :
  build_magnet hash_A40 "My Movie"
  = "magnet:?xt=urn:btih:" ++ hash_A40 ++ "&dn=My Movie"
    ++ "&tr=udp%3A//tracker.opentrackr.org%3A1337/announce"
    ++ "&tr=udp%3A//open.demonii.com%3A1337/announce"
    ++ "&tr=udp%3A//tracker.coppersurfer.tk%3A6969/announce"
    ++ "&tr=udp%3A//tracker.leechers-paradise.org%3A6969/announce".
Proof. vm_compute. reflexivity. Qed.

(** C5, as the specification states it, fails: the trackers are not fully
    percent-encoded, their slashes are left as they are. *)
Lemma magnet_trackers_keep_slash :
  ~ (forall info_hash name,
        build_magnet info_hash name = magnet_as_specified info_hash name).
Proof.
  intros H. specialize (H "" ""). vm_compute in H. discriminate H.
Qed.

(** The form of the magnet link on the strings of the model. *)
Lemma build_magnet_form (info_hash name : string) :
  build_magnet info_hash name
  = "magnet:?xt=urn:btih:" ++ info_hash
    ++ "&dn=" ++ percent_encode (unreserved_or " ") name
    ++ concat_strings
         (map (fun tr => "&tr=" ++ percent_encode (unreserved_or "/") tr) TRACKERS).
Proof.
  unfold build_magnet, TRACKERS.
  cbn [map join concat_strings].
  rewrite quote_keeping_space, !quote_keeping_slash.
  rewrite !append_assoc, append_nil_r. reflexivity.
Qed.

(** ** Result filter/ranker *)

(** The two resolution tests of the loop amount to [passes_resolution]. *)
Lemma resolution_gate (A : Type) (resolution ln : string) (skip go : A) :
  (if String.eqb resolution "1080" && negb (contains "1080" ln) then skip
   else if String.eqb resolution "4k"
           && negb (contains "2160" ln || contains "4k" ln || contains "uhd" ln)
        then skip
        else go)
  = if passes_resolution resolution ln then go else skip.
Proof.
  unfold passes_resolution.
  destruct (String.eqb resolution "1080") eqn:E.
  - apply String.eqb_eq in E; subst resolution. cbn [String.eqb Ascii.eqb andb].
    now destruct (contains "1080" ln).
  - cbn [andb]. destruct (String.eqb resolution "4k"); cbn [andb]; [|reflexivity].
    now destruct (contains "2160" ln || contains "4k" ln || contains "uhd" ln).
Qed.

Lemma int_of_field (d : list (string * pyval)) (k : string) :
  coercible (VDict d) k = true ->
  py_int (dict_get d k (VInt 0)) = Ok (int_field (VDict d) k).
Proof.
  unfold coercible, int_field, field, dict_get.
  destruct (assoc k d) as [v|]; [|reflexivity].
  destruct (py_int v); [reflexivity|discriminate].
Qed.

(** The ranker's test on a row is the specification's, and raises on no
    row of the expected shape. *)
Lemma filter_row_shaped (resolution : string) (row : pyval) :
  row_shaped row = true ->
  filter_row resolution row
  = Ok (if keeps resolution row then Some (to_ranked row) else None).
Proof.
  destruct row as [| | | | |l|d]; try discriminate.
  unfold row_shaped. intros H.
  apply andb_true_iff in H as [H Hz]. apply andb_true_iff in H as [H Hl].
  apply andb_true_iff in H as [Hn Hs].
  unfold filter_row, row_get, bind.
  rewrite (int_of_field d "seeders" Hs), (int_of_field d "leechers" Hl),
    (int_of_field d "size" Hz).
  unfold keeps, to_ranked, has_info_hash, row_name, field.
  unfold dict_get at 1 2.
  destruct (assoc "name" d) as [name|]; [|reflexivity].
  destruct name as [|b|z|f|n|l|d'];
    try (cbn [truthy] in *; rewrite Hn; reflexivity).
  cbn [truthy]. destruct (is_empty n); [reflexivity|]. cbn [negb andb].
    rewrite resolution_gate.
    destruct (passes_resolution resolution (py_lower n)); [|reflexivity].
    cbn [andb]. unfold dict_get.
    destruct (assoc "info_hash" d) as [v|]; [|reflexivity].
    destruct (truthy v); reflexivity.
Qed.

Lemma filter_loop_shaped (resolution : string) (rows : list pyval) (filtered : list ranked) :
  Forall (fun row => row_shaped row = true) rows ->
  filter_loop resolution rows filtered
  = Ok (filtered ++ map to_ranked (filter (keeps resolution) rows))%list.
Proof.
  intros H; revert filtered.
  induction H as [|row rows Hrow _ IH]; intros filtered; cbn [filter_loop filter map].
  - now rewrite app_nil_r.
  - rewrite (filter_row_shaped resolution row Hrow). cbn [bind].
    rewrite IH. destruct (keeps resolution row); [|reflexivity].
    cbn [map]. now rewrite <- app_assoc.
Qed.

(** *** The sort *)

Lemma insert_desc_perm (x : ranked) (l : list ranked) :
  Permutation (x :: l) (insert_desc x l).
Proof.
  induction l as [|y r IH]; cbn [insert_desc]; [reflexivity|].
  destruct (r_seeders x <? r_seeders y); [|reflexivity].
  rewrite perm_swap. now constructor.
Qed.

Lemma sort_by_seeders_desc_perm (l : list ranked) :
  Permutation l (sort_by_seeders_desc l).
Proof.
  induction l as [|x r IH]; cbn [sort_by_seeders_desc]; [reflexivity|].
  rewrite <- insert_desc_perm. now constructor.
Qed.

Lemma insert_desc_sorted (x : ranked) (l : list ranked) :
  sorted_desc l -> sorted_desc (insert_desc x l).
Proof.
  unfold sorted_desc.
  induction l as [|y r IH]; cbn [insert_desc]; intros H.
  - repeat constructor.
  - apply StronglySorted_inv in H as [Hr Hy].
    destruct (r_seeders x <? r_seeders y) eqn:E.
    + apply Z.ltb_lt in E. constructor; [now apply IH|].
      apply (Permutation_Forall (insert_desc_perm x r)).
      constructor; [lia|exact Hy].
    + apply Z.ltb_ge in E. constructor; [now constructor|].
      constructor; [exact E|].
      eapply Forall_impl; [|exact Hy]. cbn; intros; lia.
Qed.

Lemma sort_by_seeders_desc_sorted (l : list ranked) :
  sorted_desc (sort_by_seeders_desc l).
Proof.
  induction l as [|x r IH]; cbn [sort_by_seeders_desc].
  - constructor.
  - now apply insert_desc_sorted.
Qed.

Lemma with_seeders_insert (k : Z) (x : ranked) (l : list ranked) :
  with_seeders k (insert_desc x l) = with_seeders k (x :: l).
Proof.
  unfold with_seeders.
  induction l as [|y r IH]; cbn [insert_desc]; [reflexivity|].
  destruct (r_seeders x <? r_seeders y) eqn:E; [|reflexivity].
  apply Z.ltb_lt in E. cbn [filter] in *. rewrite IH.
  destruct (r_seeders x =? k) eqn:Ex, (r_seeders y =? k) eqn:Ey; try reflexivity.
  apply Z.eqb_eq in Ex, Ey. lia.
Qed.

Lemma with_seeders_sort (k : Z) (l : list ranked) :
  with_seeders k (sort_by_seeders_desc l) = with_seeders k l.
Proof.
  induction l as [|x r IH]; cbn [sort_by_seeders_desc]; [reflexivity|].
  rewrite with_seeders_insert. unfold with_seeders in *. cbn [filter].
  now rewrite IH.
Qed.

Lemma sort_by_seeders_desc_stable (l : list ranked) :
  stable_sort_desc_of l (sort_by_seeders_desc l).
Proof.
  split; [apply sort_by_seeders_desc_sorted|].
  split; [apply sort_by_seeders_desc_perm|].
  intros k; apply with_seeders_sort.
Qed.

(** A list has one stable sort only: whatever stable algorithm
    [list.sort] runs, its result is that of [sort_by_seeders_desc]. *)
Lemma stable_sort_desc_unique (l a b : list ranked) :
  stable_sort_desc_of l a -> stable_sort_desc_of l b -> a = b.
Proof.
  intros (Sa & Pa & Ta) (Sb & Pb & Tb).
  assert (T : forall k, with_seeders k a = with_seeders k b)
    by (intros k; now rewrite Ta, Tb).
  assert (P : Permutation a b) by (now rewrite <- Pa).
  clear l Pa Pb Ta Tb. revert b Sb T P.
  induction Sa as [|x a' Sa' IH Hx]; intros b Sb T P.
  - now apply Permutation_nil in P.
  - destruct b as [|y b']; [symmetry in P; now apply Permutation_nil in P|].
    apply StronglySorted_inv in Sb as [Sb' Hy].
    assert (Kx : r_seeders x <= r_seeders y).
    { assert (I : In x (y :: b')) by (eapply Permutation_in; [exact P|now left]).
      destruct I as [->|I]; [lia|].
      rewrite Forall_forall in Hy. now apply Hy. }
    assert (Ky : r_seeders y <= r_seeders x).
    { assert (I : In y (x :: a')).
      { eapply Permutation_in; [symmetry; exact P|now left]. }
      destruct I as [->|I]; [lia|].
      rewrite Forall_forall in Hx. now apply Hx. }
    assert (E : x = y).
    { specialize (T (r_seeders x)). unfold with_seeders in T. cbn [filter] in T.
      rewrite Z.eqb_refl in T.
      replace (r_seeders y =? r_seeders x) with true in T
        by (symmetry; apply Z.eqb_eq; lia).
      now inversion T. }
    subst y. f_equal. apply IH; auto.
    + intros k. specialize (T k). unfold with_seeders in *. cbn [filter] in T.
      destruct (r_seeders x =? k); [now inversion T|exact T].
    + now apply Permutation_cons_inv in P.
Qed.

Lemma in_firstn (A : Type) (n : nat) (l : list A) (x : A) :
  In x (firstn n l) -> In x l.
Proof.
  revert l; induction n as [|n IH]; intros l H.
  - destruct l; contradiction.
  - destruct l as [|y l]; [contradiction|].
    destruct H as [->|H]; [now left|right; now apply IH].
Qed.

(** C3, as the specification states it, fails: a row with a name and an
    info-hash, which the claim keeps whatever its counts are, makes the
    filter/ranker raise [ValueError] when a count is no number. *)
Lemma filter_and_sort_raises_on_bad_count :
  ~ (forall rows resolution,
        exists sorted,
          stable_sort_desc_of (map to_ranked (filter (keeps resolution) rows)) sorted /\
          filter_and_sort rows resolution = Ok (firstn 100 sorted)).
Proof.
  intros H. destruct (H [bad_count_row] "any") as (sorted & _ & E).
  vm_compute in E. discriminate E.
Qed.

(** C3, amended. On every list of rows of the expected shape (each a
    dictionary whose name, unless empty, is a string and whose seeders,
    leechers and size, where present, convert to integers) and for every
    selector, the filter/ranker keeps exactly the rows with a non-empty
    name and an info-hash that pass the resolution test ("1080": the
    lowercase name contains "1080"; "4k": it contains "2160", "4k" or
    "uhd"; otherwise no test), stable-sorts them by seeders descending,
    ties in their original order, and returns the first 100 at most,
    however many rows it is given. *)
Theorem filter_and_sort_ranks (rows : list pyval) (resolution : string) :
  Forall (fun row => row_shaped row = true) rows ->
  exists sorted,
    stable_sort_desc_of (map to_ranked (filter (keeps resolution) rows)) sorted /\
    filter_and_sort rows resolution = Ok (firstn 100 sorted) /\
    length (firstn 100 sorted)
    = Nat.min 100 (length (filter (keeps resolution) rows)).
Proof.
  intros H.
  exists (sort_by_seeders_desc (map to_ranked (filter (keeps resolution) rows))).
  split; [apply sort_by_seeders_desc_stable|].
  split.
  - unfold filter_and_sort. now rewrite (filter_loop_shaped resolution rows [] H).
  - rewrite length_firstn.
    rewrite <- (Permutation_length (sort_by_seeders_desc_perm _)).
    now rewrite length_map.
Qed.

Lemma filter_and_sort_ranks_witness :
  Forall (fun row => row_shaped row = true) example_rows /\
  exists sorted,
    stable_sort_desc_of (map to_ranked (filter (keeps "1080") example_rows)) sorted /\
    filter_and_sort example_rows "1080" = Ok (firstn 100 sorted) /\
    length (firstn 100 sorted)
    = Nat.min 100 (length (filter (keeps "1080") example_rows)).
Proof.
  assert (H : Forall (fun row => row_shaped row = true) example_rows)
    by (repeat constructor).
  split; [exact H|].
  exact (filter_and_sort_ranks example_rows "1080" H).
Defined.

(** C10. With a selector that is neither "1080" nor "4k", whatever it is,
    the filter/ranker does what it does with "any". *)
Theorem filter_and_sort_other_selector (rows : list pyval) (resolution : string) :
  resolution <> "1080" -> resolution <> "4k" ->
  filter_and_sort rows resolution = filter_and_sort rows "any".
Proof.
  intros H1 H4.
  apply String.eqb_neq in H1, H4.
  assert (R : forall row, filter_row resolution row = filter_row "any" row).
  { intros row. unfold filter_row. rewrite H1, H4. reflexivity. }
  assert (L : forall filtered,
             filter_loop resolution rows filtered = filter_loop "any" rows filtered).
  { induction rows as [|row rest IH]; intros filtered; cbn [filter_loop]; [reflexivity|].
    rewrite R. destruct (filter_row "any" row) as [r|e]; cbn [bind]; [|reflexivity].
    apply IH. }
  unfold filter_and_sort. now rewrite L.
Qed.

Lemma filter_and_sort_other_selector_witness :
  "720" <> "1080" /\ "720" <> "4k" /\
  filter_and_sort example_rows "720" = filter_and_sort example_rows "any".
Proof.
  split; [discriminate|]. split; [discriminate|].
  apply (filter_and_sort_other_selector example_rows "720"); discriminate.
Defined.

Lemma coerced_of_get (d : list (string * pyval)) (k : string) (z : Z) :
  py_int (dict_get d k (VInt 0)) = Ok z -> coerced (VDict d) k z.
Proof.
  unfold coerced, field, dict_get.
  destruct (assoc k d) as [v|]; [auto|]. cbn. now intros [= <-].
Qed.

(** C6, as the specification states it, fails: the counts of a kept row
    are converted by [int] and not clamped, a negative count stays
    negative. *)
Lemma negative_counts_pass_through :
  ~ (forall rows resolution out r,
        filter_and_sort rows resolution = Ok out -> In r out ->
        0 <= r_seeders r /\ 0 <= r_leechers r /\ 0 <= r_size r).
Proof.
  intros H.
  destruct (H [negative_row] "1080" _ _ eq_refl (or_introl eq_refl)) as [S _].
  vm_compute in S. now apply S.
Qed.

(** What the loop makes of one row: the record of the row when the row
    is kept, nothing when it is not. *)
Lemma filter_row_outcome (resolution : string) (row : pyval) (o : option ranked) :
  filter_row resolution row = Ok o ->
  match o with
  | Some r => keeps resolution row = true /\ record_of row r
  | None => keeps resolution row = false
  end.
Proof.
  destruct row as [| | | | |l|d]; try discriminate.
  unfold filter_row, row_get. cbn [bind].
  unfold record_of, keeps, has_info_hash, row_name, field.
  destruct (assoc "name" d) as [v|] eqn:An.
  - assert (Dn : dict_get d "name" (VStr "") = v)
      by (unfold dict_get; now rewrite An).
    rewrite Dn. clear Dn.
    destruct v as [|b|z|f|n|l|d'];
      try (destruct (negb (truthy _)); [intros [= <-]; reflexivity|discriminate]).
    cbn [truthy]. rewrite negb_involutive.
    destruct (is_empty n) eqn:T; [intros [= <-]; reflexivity|].
    cbn [negb andb]. rewrite resolution_gate.
    destruct (passes_resolution resolution (py_lower n));
      [|intros [= <-]; reflexivity].
    cbn [andb].
    destruct (assoc "info_hash" d) as [h|] eqn:Ah.
    + assert (Dh : dict_get d "info_hash" VNone = h)
        by (unfold dict_get; now rewrite Ah).
      rewrite Dh. clear Dh.
      destruct (truthy h); [|intros [= <-]; reflexivity]. cbn [negb].
      destruct (py_int (dict_get d "seeders" (VInt 0))) as [s|] eqn:Es;
        cbn [bind]; [|discriminate].
      destruct (py_int (dict_get d "leechers" (VInt 0))) as [le|] eqn:El;
        cbn [bind]; [|discriminate].
      destruct (py_int (dict_get d "size" (VInt 0))) as [sz|] eqn:Ez;
        cbn [bind]; [|discriminate].
      intros [= <-]. cbn [r_name r_info_hash r_seeders r_leechers r_size].
      repeat split; now apply coerced_of_get.
    + assert (Dh : dict_get d "info_hash" VNone = VNone)
        by (unfold dict_get; now rewrite Ah).
      rewrite Dh. intros [= <-]. reflexivity.
  - assert (Dn : dict_get d "name" (VStr "") = VStr "")
      by (unfold dict_get; now rewrite An).
    rewrite Dn. intros [= <-]. reflexivity.
Qed.

(** The records the loop appends are those of the rows it keeps, row by
    row. *)
Lemma filter_loop_records (resolution : string) (rows : list pyval)
    (filtered out : list ranked) :
  filter_loop resolution rows filtered = Ok out ->
  exists records,
    out = (filtered ++ records)%list /\
    Forall2 record_of (filter (keeps resolution) rows) records.
Proof.
  revert filtered; induction rows as [|row rest IH]; intros filtered;
    cbn [filter_loop filter].
  - intros [= <-]. exists []. rewrite app_nil_r. split; [reflexivity|constructor].
  - destruct (filter_row resolution row) as [o|e] eqn:E; cbn [bind]; [|discriminate].
    apply filter_row_outcome in E.
    intros L. apply IH in L as (records & -> & F).
    destruct o as [x|].
    + destruct E as [-> R]. exists (x :: records).
      rewrite <- app_assoc. split; [reflexivity|now constructor].
    + rewrite E. now exists records.
Qed.

(** C6, amended. The rows that survive the name, resolution and
    info-hash checks have each a record of their own, in their order:
    it carries the name and the info-hash of the row, and its seeders,
    leechers and size are the integers [int] makes of the values of this
    row, with a missing field coerced to 0 and a negative value left
    negative.  What is returned are these records, stable-sorted by
    seeders and cut at 100. *)
Theorem ranked_counts_are_coerced (rows : list pyval) (resolution : string)
    (out : list ranked) :
  filter_and_sort rows resolution = Ok out ->
  exists records sorted,
    Forall2 record_of (filter (keeps resolution) rows) records /\
    stable_sort_desc_of records sorted /\
    out = firstn 100 sorted.
Proof.
  unfold filter_and_sort.
  destruct (filter_loop resolution rows []) as [filtered|e] eqn:L; cbn [bind]; [|discriminate].
  intros E.
  apply filter_loop_records in L as (records & -> & F). cbn [app] in E.
  exists records, (sort_by_seeders_desc records).
  split; [exact F|]. split; [apply sort_by_seeders_desc_stable|congruence].
Qed.

Lemma ranked_counts_are_coerced_witness :
  exists records sorted,
    Forall2 record_of (filter (keeps "1080") [negative_row; negative_row]) records /\
    stable_sort_desc_of records sorted /\
    [mkRanked "Example.Movie.1080p" (VStr hash_A40) (-5) (-1) 0;
     mkRanked "Example.Movie.1080p" (VStr hash_A40) (-5) (-1) 0]
    = firstn 100 sorted.
Proof.
  apply (ranked_counts_are_coerced [negative_row; negative_row] "1080").
  vm_compute. reflexivity.
Defined.

(** ** HTML row parser *)

Lemma complete_row_more_links (links more : list string) (row : pyval) :
  complete_row links row -> complete_row (links ++ more) row.
Proof.
  intros (name & h & s & l & z & m & E & Hn & Hh & Hm & Hp).
  exists name, h, s, l, z, m. repeat split; auto. apply in_or_app; now left.
Qed.

Lemma parser_inv_more_links (links more : list string) (p : parser) :
  parser_inv links p -> parser_inv (links ++ more) p.
Proof.
  intros [R M]; split.
  - eapply Forall_impl; [|exact R]. intros row; apply complete_row_more_links.
  - intros m Hm. apply in_or_app; left; now apply M.
Qed.

(** A start tag leaves the rows alone; the magnet link it captures, if
    any, is a magnet link of the event. *)
Lemma handle_starttag_inv (tag : string) (attrs : list (string * option string))
    (p p' : parser) :
  handle_starttag tag attrs p = Ok p' ->
  rows p' = rows p /\
  forall magnet, cur_magnet (current p') = Some magnet ->
    cur_magnet (current p) = Some magnet \/
    In magnet (magnet_links [StartTag tag attrs]).
Proof.
  unfold handle_starttag.
  destruct (String.eqb tag "tr"); [intros [= <-]; split; [reflexivity|discriminate]|].
  destruct (negb (in_tr p)); [intros [= <-]; auto|].
  set (p1 := when (String.eqb tag "div" && attr_is attrs "class" "detName")
                  (set_in_det_name true) p).
  set (p2 := when (String.eqb tag "font" && attr_is attrs "class" "detDesc")
                  (set_in_det_desc true) p1).
  assert (E2 : rows p2 = rows p /\ current p2 = current p).
  { unfold p2, p1, when.
    destruct (String.eqb tag "div" && attr_is attrs "class" "detName"),
             (String.eqb tag "font" && attr_is attrs "class" "detDesc"); auto. }
  destruct E2 as [R2 C2]. clearbody p2. clear p1.
  unfold magnet_links; cbn [flat_map]; rewrite app_nil_r.
  destruct (String.eqb tag "a") eqn:Ea; cbn [bind andb].
  - destruct (attrs_get attrs "href") as [[href|]|]; cbn [bind]; try discriminate.
    + destruct (startswith href "magnet:?xt=") eqn:Em; cbn [bind].
      * intros [= <-]. unfold when.
        destruct (String.eqb tag "td" && attr_is attrs "align" "right");
          cbn; (split; [exact R2|intros m [= <-]; right; now left]).
      * intros [= <-]. unfold when.
        destruct (in_det_name p2),
                 (String.eqb tag "td" && attr_is attrs "align" "right");
          cbn; rewrite ?R2, ?C2; auto.
    + intros [= <-]. unfold when.
      destruct (in_det_name p2),
               (String.eqb tag "td" && attr_is attrs "align" "right");
        cbn; rewrite ?R2, ?C2; auto.
  - intros [= <-]. unfold when.
    destruct (String.eqb tag "td" && attr_is attrs "align" "right");
      cbn; rewrite ?R2, ?C2; auto.
Qed.

(** The flags an end tag clears touch neither the rows nor the row being
    read. *)
Lemma end_flags_keep (tag : string) (p0 : parser) :
  let p1 := when (String.eqb tag "div") (set_in_det_name false) p0 in
  let p2 := when (String.eqb tag "a") (set_in_title_anchor false) p1 in
  let p3 := when (String.eqb tag "font") (set_in_det_desc false) p2 in
  let p4 := when (String.eqb tag "td" && in_align_right p3) (set_in_align_right false) p3 in
  rows p4 = rows p0 /\ current p4 = current p0.
Proof.
  unfold when.
  destruct (String.eqb tag "div"), (String.eqb tag "a"), (String.eqb tag "font");
    cbn; match goal with |- context [if ?b then _ else _] => destruct b end; auto.
Qed.

(** An end tag appends one row at most, and only a complete one. *)
Lemma handle_endtag_inv (tag : string) (p : parser) :
  (rows (handle_endtag tag p) = rows p \/
   exists name magnet info_hash,
     String.eqb tag "tr" = true /\
     cur_name (current p) = Some name /\ name <> EmptyString /\
     cur_magnet (current p) = Some magnet /\
     parse_btih_from_magnet magnet = Some info_hash /\ info_hash <> EmptyString /\
     rows (handle_endtag tag p)
     = (rows p ++ [make_row name info_hash
                            (nth 0 (align_right_values p) 0)
                            (nth 1 (align_right_values p) 0)
                            (cur_size (current p))])%list) /\
  forall magnet, cur_magnet (current (handle_endtag tag p)) = Some magnet ->
                 cur_magnet (current p) = Some magnet.
Proof.
  unfold handle_endtag.
  match goal with
  | |- context [when (String.eqb tag "div") _ ?q] => set (p0 := q)
  end.
  destruct (end_flags_keep tag p0) as [R C]. cbv zeta in R, C. rewrite R, C.
  unfold p0; clear p0 R C.
  destruct (String.eqb tag "tr" && in_tr p) eqn:E; [|auto].
  apply andb_true_iff in E as [Et _].
  split; [|cbn; discriminate].
  destruct (cur_name (current p)) as [name|]; [|now left].
  destruct (cur_magnet (current p)) as [magnet|].
  - destruct (parse_btih_from_magnet magnet) as [h|] eqn:P; [|now left].
    destruct (is_empty name) eqn:En; [now left|].
    destruct (is_empty h) eqn:Eh; [now left|].
    right. exists name, magnet, h.
    apply is_empty_false in En, Eh. cbn. repeat split; auto.
  - replace (parse_btih_from_magnet "") with (@None string) by reflexivity.
    now left.
Qed.

(** Text leaves the rows and the magnet link alone. *)
Lemma handle_data_inv (data : string) (p p' : parser) :
  handle_data data p = Ok p' ->
  rows p' = rows p /\ cur_magnet (current p') = cur_magnet (current p).
Proof.
  unfold handle_data.
  destruct (negb (in_tr p)); [intros [= <-]; auto|].
  destruct (is_empty (py_strip data)); [intros [= <-]; auto|].
  set (p1 := when (in_title_anchor p && in_det_name p) _ p).
  assert (E1 : rows p1 = rows p /\ cur_magnet (current p1) = cur_magnet (current p)).
  { unfold p1, when. destruct (in_title_anchor p && in_det_name p); auto. }
  destruct E1 as [R1 C1]. rewrite <- R1, <- C1. clearbody p1. clear R1 C1.
  destruct (in_det_desc p1).
  - destruct (parse_size_bytes (py_strip data)) as [sz|]; cbn [bind]; [|discriminate].
    set (p2 := when (negb (sz =? 0)) _ p1).
    assert (E2 : rows p2 = rows p1 /\ cur_magnet (current p2) = cur_magnet (current p1)).
    { unfold p2, when. destruct (negb (sz =? 0)); auto. }
    destruct E2 as [R2 C2]. rewrite <- R2, <- C2. clearbody p2.
    destruct (in_align_right p2 && py_isdigit (py_strip data)); [|intros [= <-]; auto].
    destruct (int_of_str (py_strip data)); cbn [bind]; [|discriminate].
    intros [= <-]; auto.
  - cbn [bind].
    destruct (in_align_right p1 && py_isdigit (py_strip data)); [|intros [= <-]; auto].
    destruct (int_of_str (py_strip data)); cbn [bind]; [|discriminate].
    intros [= <-]; auto.
Qed.

Lemma handle_inv (links : list string) (ev : event) (p p' : parser) :
  parser_inv links p -> handle ev p = Ok p' ->
  parser_inv (links ++ magnet_links [ev]) p'.
Proof.
  intros Inv H. pose proof (parser_inv_more_links links (magnet_links [ev]) p Inv) as [R M].
  destruct ev as [tag attrs|tag|data]; cbn [handle] in H.
  - apply handle_starttag_inv in H as [Er Hm]. split; [now rewrite Er|].
    intros m Em. destruct (Hm m Em) as [Hp|Hl]; [now apply M|].
    apply in_or_app; now right.
  - injection H as <-.
    destruct (handle_endtag_inv tag p)
      as [[Er|(name & m & h & _ & N & Nn & Em & P & Ph & Er)] Hm].
    + split; [now rewrite Er|]. intros m Em; apply M; now apply Hm.
    + split; [|intros m' Em'; apply M; now apply Hm].
      rewrite Er. apply Forall_app; split; [exact R|].
      constructor; [|constructor].
      exists name, h, (nth 0 (align_right_values p) 0),
        (nth 1 (align_right_values p) 0), (cur_size (current p)), m.
      repeat split; auto.
  - apply handle_data_inv in H as [Er Em]. split; [now rewrite Er|].
    intros m E. apply M. now rewrite <- Em.
Qed.

Lemma magnet_links_cons (ev : event) (evs : list event) :
  magnet_links (ev :: evs) = (magnet_links [ev] ++ magnet_links evs)%list.
Proof.
  unfold magnet_links. cbn [flat_map]. now rewrite app_nil_r.
Qed.

Lemma feed_inv (evs : list event) (links : list string) (p p' : parser) :
  parser_inv links p -> feed evs p = Ok p' ->
  parser_inv (links ++ magnet_links evs) p'.
Proof.
  revert links p; induction evs as [|ev evs IH]; intros links p Inv; cbn [feed].
  - intros [= <-]. now apply parser_inv_more_links.
  - destruct (handle ev p) as [p1|e] eqn:H; cbn [bind]; [|discriminate].
    intros F. rewrite magnet_links_cons, app_assoc.
    apply (IH _ p1); [|exact F]. now apply (handle_inv links ev p).
Qed.

Lemma new_parser_inv : parser_inv [] new_parser.
Proof.
  split; [constructor|]. cbn. discriminate.
Qed.

(** ** Magnet hash extractor *)

Lemma all_chars_app (f : ascii -> bool) (a b : string) :
  all_chars f (a ++ b) <-> all_chars f a /\ all_chars f b.
Proof.
  unfold all_chars. induction a as [|c a IH]; simpl.
  - tauto.
  - rewrite !andb_true_iff, IH. tauto.
Qed.

Lemma string_filter_all (f : ascii -> bool) (s : string) :
  all_chars f s -> string_filter f s = s.
Proof.
  unfold all_chars. induction s as [|c s IH]; simpl; [reflexivity|].
  intros H. apply andb_true_iff in H as [Hc Hs]. now rewrite Hc, IH.
Qed.

Lemma string_map_id (f : ascii -> ascii) (s : string) :
  all_chars (fun c => Ascii.eqb (f c) c) s -> string_map f s = s.
Proof.
  unfold all_chars. induction s as [|c s IH]; simpl; [reflexivity|].
  intros H. apply andb_true_iff in H as [Hc Hs].
  apply Ascii.eqb_eq in Hc. now rewrite Hc, IH.
Qed.

Lemma split_first_none (sep : ascii) (s : string) :
  all_chars (fun c => negb (Ascii.eqb c sep)) s -> split_first sep s = None.
Proof.
  unfold all_chars. induction s as [|c s IH]; simpl; [reflexivity|].
  intros H. apply andb_true_iff in H as [Hc Hs].
  apply negb_true_iff in Hc. now rewrite Hc, IH.
Qed.

Lemma split_first_app (sep : ascii) (a b : string) :
  all_chars (fun c => negb (Ascii.eqb c sep)) a ->
  split_first sep (a ++ String sep b) = Some (a, b).
Proof.
  unfold all_chars. induction a as [|c a IH]; simpl.
  - now rewrite Ascii.eqb_refl.
  - intros H. apply andb_true_iff in H as [Hc Hs].
    apply negb_true_iff in Hc. now rewrite Hc, IH.
Qed.

Lemma string_rev_onto_rev (a acc : string) :
  string_rev_onto (string_rev_onto a acc) "" = string_rev_onto acc a.
Proof.
  revert acc; induction a as [|c a IH]; intros acc; simpl.
  - induction acc; reflexivity.
  - rewrite IH. reflexivity.
Qed.

Lemma split_on_aux_run (sep : ascii) (a rest cur : string) :
  all_chars (fun c => negb (Ascii.eqb c sep)) a ->
  split_on_aux sep (a ++ rest) cur = split_on_aux sep rest (string_rev_onto a cur).
Proof.
  unfold all_chars. revert cur; induction a as [|c a IH]; intros cur; simpl; [reflexivity|].
  intros H. apply andb_true_iff in H as [Hc Hs].
  apply negb_true_iff in Hc. rewrite Hc. now apply IH.
Qed.


Lemma chr_code (c : ascii) : chr (code c) = c.
Proof.
  unfold chr, code. now rewrite Nat2Z.id, ascii_nat_embedding.
Qed.

Lemma utf8_decode_ascii (bs : list Z) :
  Forall (fun b => (b <? 128) = true) bs -> utf8_decode bs None = bs.
Proof.
  induction 1 as [|b bs Hb _ IH]; cbn [utf8_decode]; [reflexivity|].
  unfold utf8_lead. rewrite Hb. cbn [app]. now rewrite IH.
Qed.

Lemma string_of_codes (s : string) :
  string_of_code_points (map code (list_ascii_of_string s)) = s.
Proof.
  induction s as [|c s IH]; cbn [list_ascii_of_string map string_of_code_points];
    [reflexivity|].
  rewrite IH. unfold latin1_of_code_point.
  replace (code c <? 256) with true; [now rewrite chr_code|].
  symmetry; apply Z.ltb_lt. unfold code.
  pose proof (nat_ascii_bounded c). lia.
Qed.

(** [unquote] copies a string of ASCII characters without percent sign. *)
Lemma unquote_aux_plain (s : string) (pending : list Z) :
  all_chars (fun c => (code c <? 128) && negb (Ascii.eqb c "%")) s ->
  unquote_aux s pending
  = flush_bytes (rev (map code (list_ascii_of_string s)) ++ pending).
Proof.
  unfold all_chars. revert pending; induction s as [|c s IH]; intros pending H.
  - reflexivity.
  - cbn [string_forallb] in H. apply andb_true_iff in H as [Hc Hs].
    apply andb_true_iff in Hc as [Ha Hp]. apply negb_true_iff in Hp.
    cbn [unquote_aux]. rewrite Hp, Ha. rewrite (IH _ Hs).
    cbn [list_ascii_of_string map rev]. now rewrite <- app_assoc.
Qed.

Lemma unquote_plain (s : string) :
  all_chars (fun c => (code c <? 128) && negb (Ascii.eqb c "%")) s ->
  unquote s = s.
Proof.
  intros H. unfold unquote. rewrite (unquote_aux_plain s [] H).
  unfold flush_bytes. rewrite app_nil_r, rev_involutive.
  rewrite utf8_decode_ascii; [apply string_of_codes|].
  unfold all_chars in H. clear -H.
  induction s as [|c s IH]; cbn [list_ascii_of_string map]; [constructor|].
  cbn [string_forallb] in H. apply andb_true_iff in H as [Hc Hs].
  apply andb_true_iff in Hc as [Ha _]. constructor; auto.
Qed.

Lemma all_chars_impl (f g : ascii -> bool) (s : string) :
  (forall c, f c = true -> g c = true) -> all_chars f s -> all_chars g s.
Proof.
  unfold all_chars. intros I. induction s as [|c s IH]; simpl; [auto|].
  rewrite !andb_true_iff. intros [Hc Hs]. auto.
Qed.













(** ** Endpoint fetchers and search orchestrator *)





Section FetcherProperties.

Variable urlopen : trace -> request -> response.
Variable json_loads : string -> result pyval.
Variable tokenize : string -> tokens.

Lemma scan_app (outcome : response -> attempt) (a b : list request)
    (last : option exn) (tr : trace) :
  scan urlopen outcome (a ++ b) last tr
  = match scan urlopen outcome a last tr with
    | (Exhausted last', tr') => scan urlopen outcome b last' tr'
    | out => out
    end.
Proof.
  revert last tr; induction a as [|rq a IH]; intros last tr; cbn [app scan]; [reflexivity|].
  destruct (outcome (urlopen tr rq)); auto.
Qed.

Lemma json_cats_scan (endpoint : string -> string -> string) (encoded_query : string)
    (cats : list string) (last : option exn) (tr : trace) :
  json_cats urlopen json_loads endpoint encoded_query cats last tr
  = scan urlopen (json_outcome json_loads recorded_by_json)
         (map (fun cat => mkRequest (endpoint encoded_query cat) user_agent 8) cats)
         last tr.
Proof.
  revert last tr; induction cats as [|cat cats IH]; intros last tr;
    cbn [json_cats map scan]; [reflexivity|].
  unfold json_attempt, json_outcome, failed, recorded_by_json.
  destruct (urlopen tr _) as [body|e]; cbn [bind].
  - destruct (json_loads body) as [data|e]; cbn [bind].
    + destruct data as [| | | | |[|row more]|]; auto.
    + destruct (is_network_error e || is_json_error e); auto.
  - destruct (is_network_error e || is_json_error e); auto.
Qed.

Lemma json_endpoints_scan (endpoints : list (string -> string -> string))
    (query : string) (cats : list string) (last : option exn) (tr : trace) :
  json_endpoints urlopen json_loads endpoints (quote query "/") cats last tr
  = scan urlopen (json_outcome json_loads recorded_by_json) (requests_of endpoints 8 query cats) last tr.
Proof.
  unfold requests_of.
  revert last tr; induction endpoints as [|ep eps IH]; intros last tr;
    cbn [json_endpoints flat_map]; [reflexivity|].
  rewrite scan_app, json_cats_scan.
  destruct (scan urlopen _ _ last tr) as [[data|last'|e] tr']; auto.
Qed.

Lemma html_cats_scan (endpoint : string -> string -> string) (encoded_query : string)
    (cats : list string) (last : option exn) (tr : trace) :
  html_cats urlopen tokenize endpoint encoded_query cats last tr
  = scan urlopen (html_outcome tokenize recorded_by_html)
         (map (fun cat => mkRequest (endpoint encoded_query cat) user_agent 10) cats)
         last tr.
Proof.
  revert last tr; induction cats as [|cat cats IH]; intros last tr;
    cbn [html_cats map scan]; [reflexivity|].
  unfold html_attempt, html_outcome, failed, recorded_by_html.
  destruct (urlopen tr _) as [html|e]; cbn [bind].
  - destruct (feed_tokens (tokenize html) new_parser) as [p|e]; cbn [bind].
    + destruct (rows p) as [|row more]; auto.
    + destruct (is_network_error e); auto.
  - destruct (is_network_error e); auto.
Qed.

Lemma html_endpoints_scan (endpoints : list (string -> string -> string))
    (query : string) (cats : list string) (last : option exn) (tr : trace) :
  html_endpoints urlopen tokenize endpoints (quote query "/") cats last tr
  = scan urlopen (html_outcome tokenize recorded_by_html) (requests_of endpoints 10 query cats) last tr.
Proof.
  unfold requests_of.
  revert last tr; induction endpoints as [|ep eps IH]; intros last tr;
    cbn [html_endpoints flat_map]; [reflexivity|].
  rewrite scan_app, html_cats_scan.
  destruct (scan urlopen _ _ last tr) as [[data|last'|e] tr']; auto.
Qed.

Lemma scanned_cons (a : attempt) (outs : list attempt) (n : nat) :
  quiet a -> scanned outs n -> scanned (a :: outs) (S n).
Proof.
  intros Q [[F L]|(before & x & -> & F & S)].
  - left; split; [now constructor|cbn; now rewrite L].
  - right; exists (a :: before), x. repeat split; auto.
Qed.

Lemma scanned_stop (a : attempt) (n : nat) : ~ quiet a -> scanned [a] (S n).
Proof.
  intros Q; right; exists [], a; auto.
Qed.

(** What a scan leaves: the requests it made, in their order, with the
    answers of the network, and an end that follows from their outcomes. *)
Lemma scan_spec (outcome : response -> attempt) (reqs : list request)
    (last : option exn) (tr : trace) :
  exists new,
    scan urlopen outcome reqs last tr
    = (scan_end (map (fun en => outcome (snd en)) new) last, (tr ++ new)%list) /\
    answered urlopen tr new /\
    map fst new = firstn (length new) reqs /\
    scanned (map (fun en => outcome (snd en)) new) (length reqs).
Proof.
  revert last tr; induction reqs as [|rq reqs IH]; intros last tr; cbn [scan].
  - exists []. cbn. rewrite app_nil_r. repeat split; auto. left; auto.
  - destruct (outcome (urlopen tr rq)) as [data| |e|e] eqn:O.
    + exists [(rq, urlopen tr rq)]. unfold scan_end. cbn. rewrite O.
      repeat split; auto. apply scanned_stop. auto.
    + destruct (IH last (tr ++ [(rq, urlopen tr rq)])%list) as (new & E & A & R & S).
      exists ((rq, urlopen tr rq) :: new). rewrite E.
      unfold scan_end. cbn. rewrite O, <- app_assoc, R.
      repeat split; auto. apply scanned_cons; [exact I|exact S].
    + destruct (IH (Some e) (tr ++ [(rq, urlopen tr rq)])%list) as (new & E & A & R & S).
      exists ((rq, urlopen tr rq) :: new). rewrite E.
      unfold scan_end. cbn. rewrite O, <- app_assoc, R.
      repeat split; auto. apply scanned_cons; [exact I|exact S].
    + exists [(rq, urlopen tr rq)]. unfold scan_end. cbn. rewrite O.
      repeat split; auto. apply scanned_stop. auto.
Qed.




End FetcherProperties.







(* ================================================================== *)
(** * Further properties of the code *)

(** ** Floats *)

Lemma round_half_even_exact (k den : Z) :
  0 < den -> round_half_even (k * den) den = k.
Proof.
  intros H. unfold round_half_even.
  rewrite Z.div_mul, Z.mod_mul by lia. cbn [Z.mul].
  destruct (0 ?= den) eqn:C; try reflexivity.
  - apply Z.compare_eq in C. lia.
  - apply Z.compare_gt_iff in C. lia.
Qed.

Lemma round_half_even_nonneg (num den : Z) :
  0 <= num -> 0 < den -> 0 <= round_half_even num den.
Proof.
  intros Hn Hd. unfold round_half_even.
  pose proof (Z.div_pos num den Hn Hd).
  destruct (2 * (num mod den) ?= den); try destruct (Z.even (num / den)); lia.
Qed.

(** What [round_ratio] can give on a non-negative ratio. *)
Lemma round_ratio_shape (neg : bool) (p q : Z) :
  0 <= p -> 0 < q ->
  (exists m e, round_ratio neg p q = FFin neg m e /\ 0 <= m) \/
  round_ratio neg p q = FInf neg.
Proof.
  intros Hp Hq. unfold round_ratio.
  destruct (p =? 0); [left; exists 0, 0; split; [reflexivity|lia]|].
  set (e := Z.max (floor_log2_ratio p q - 52) (-1074)).
  match goal with |- context [if ?c then FInf neg else _] => destruct c end;
    [now right|left].
  eexists _, e; split; [reflexivity|].
  destruct (0 <=? e) eqn:E.
  - apply Z.leb_le in E. apply round_half_even_nonneg; [lia|].
    apply Z.mul_pos_pos; [lia|]. apply Z.pow_pos_nonneg; lia.
  - apply Z.leb_gt in E. apply round_half_even_nonneg; [|lia].
    apply Z.mul_nonneg_nonneg; [lia|]. apply Z.pow_nonneg; lia.
Qed.

(** A ratio [a * 2^u / 2^v] with 53 significant bits is a float as it
    is. *)
Lemma round_ratio_dyadic (neg : bool) (a u v : Z) :
  2 ^ 52 <= a < 2 ^ 53 -> 0 <= u -> 0 <= v -> -1074 <= u - v <= 971 ->
  round_ratio neg (a * 2 ^ u) (2 ^ v) = FFin neg a (u - v).
Proof.
  intros Ha Hu Hv Hr.
  assert (Pu : 0 < 2 ^ u) by (apply Z.pow_pos_nonneg; lia).
  assert (Pv : 0 < 2 ^ v) by (apply Z.pow_pos_nonneg; lia).
  assert (La : Z.log2 a = 52) by (apply Z.log2_unique; lia).
  assert (Lp : Z.log2 (a * 2 ^ u) = 52 + u).
  { rewrite Z.log2_mul_pow2 by lia. lia. }
  assert (Lq : Z.log2 (2 ^ v) = v) by (apply Z.log2_pow2; lia).
  assert (E : floor_log2_ratio (a * 2 ^ u) (2 ^ v) = 52 + u - v).
  { unfold floor_log2_ratio. rewrite Lp, Lq.
    destruct (0 <=? 52 + u - v) eqn:C.
    - apply Z.leb_le in C.
      replace (2 ^ v * 2 ^ (52 + u - v)) with (2 ^ 52 * 2 ^ u)
        by (rewrite <- !Z.pow_add_r by lia; f_equal; lia).
      replace (2 ^ 52 * 2 ^ u <=? a * 2 ^ u) with true; [reflexivity|].
      symmetry; apply Z.leb_le. nia.
    - apply Z.leb_gt in C.
      replace (a * 2 ^ u * 2 ^ (- (52 + u - v))) with (a * 2 ^ (v - 52))
        by (rewrite <- Z.mul_assoc, <- Z.pow_add_r by lia; do 2 f_equal; lia).
      replace (2 ^ v) with (2 ^ 52 * 2 ^ (v - 52))
        by (rewrite <- Z.pow_add_r by lia; f_equal; lia).
      assert (0 < 2 ^ (v - 52)) by (apply Z.pow_pos_nonneg; lia).
      replace (2 ^ 52 * 2 ^ (v - 52) <=? a * 2 ^ (v - 52)) with true; [reflexivity|].
      symmetry; apply Z.leb_le. nia. }
  unfold round_ratio. rewrite E.
  replace (a * 2 ^ u =? 0) with false by (symmetry; apply Z.eqb_neq; nia).
  replace (Z.max (52 + u - v - 52) (-1074)) with (u - v) by lia.
  assert (M : (if 0 <=? u - v
               then round_half_even (a * 2 ^ u) (2 ^ v * 2 ^ (u - v))
               else round_half_even (a * 2 ^ u * 2 ^ (- (u - v))) (2 ^ v)) = a).
  { destruct (0 <=? u - v) eqn:C.
    - apply Z.leb_le in C.
      replace (2 ^ v * 2 ^ (u - v)) with (2 ^ u)
        by (rewrite <- Z.pow_add_r by lia; f_equal; lia).
      now apply round_half_even_exact.
    - apply Z.leb_gt in C.
      replace (a * 2 ^ u * 2 ^ (- (u - v))) with (a * 2 ^ v)
        by (rewrite <- Z.mul_assoc, <- Z.pow_add_r by lia; do 2 f_equal; lia).
      now apply round_half_even_exact. }
  rewrite M.
  replace (972 <=? u - v) with false by (symmetry; apply Z.leb_gt; lia).
  replace (a =? 2 ^ 53) with false by (symmetry; apply Z.eqb_neq; lia).
  now rewrite andb_false_r.
Qed.

(** An integer below [2^53] is a float as it is. *)
Lemma round_ratio_int (neg : bool) (n : Z) :
  0 < n < 2 ^ 53 ->
  round_ratio neg n 1
  = FFin neg (n * 2 ^ (52 - Z.log2 n)) (Z.log2 n - 52) /\
  2 ^ 52 <= n * 2 ^ (52 - Z.log2 n) < 2 ^ 53 /\ 0 <= Z.log2 n <= 52.
Proof.
  intros Hn.
  pose proof (Z.log2_spec n (proj1 Hn)) as [Lo Hi].
  pose proof (Z.log2_nonneg n) as L0.
  assert (L52 : Z.log2 n <= 52).
  { destruct (Z.le_gt_cases (Z.log2 n) 52) as [|G]; [assumption|exfalso].
    assert (2 ^ 53 <= 2 ^ Z.log2 n) by (apply Z.pow_le_mono_r; lia). lia. }
  assert (Ps : 0 < 2 ^ (52 - Z.log2 n)) by (apply Z.pow_pos_nonneg; lia).
  assert (B : 2 ^ 52 <= n * 2 ^ (52 - Z.log2 n) < 2 ^ 53).
  { replace (2 ^ 52) with (2 ^ Z.log2 n * 2 ^ (52 - Z.log2 n))
      by (rewrite <- Z.pow_add_r by lia; f_equal; lia).
    replace (2 ^ 53) with (2 ^ Z.succ (Z.log2 n) * 2 ^ (52 - Z.log2 n))
      by (rewrite <- Z.pow_add_r by lia; f_equal; lia).
    nia. }
  split; [|split; [exact B|lia]].
  unfold round_ratio, floor_log2_ratio.
  replace (n =? 0) with false by (symmetry; apply Z.eqb_neq; lia).
  change (Z.log2 1) with 0. rewrite Z.sub_0_r.
  replace (0 <=? Z.log2 n) with true by (symmetry; apply Z.leb_le; lia).
  replace (1 * 2 ^ Z.log2 n <=? n) with true by (symmetry; apply Z.leb_le; lia).
  replace (Z.max (Z.log2 n - 52) (-1074)) with (Z.log2 n - 52) by lia.
  replace (972 <=? Z.log2 n - 52) with false by (symmetry; apply Z.leb_gt; lia).
  replace (Z.log2 n - 52 =? 971) with false by (symmetry; apply Z.eqb_neq; lia).
  cbn [orb andb].
  destruct (0 <=? Z.log2 n - 52) eqn:C.
  - apply Z.leb_le in C. replace (Z.log2 n - 52) with 0 by lia.
    replace (52 - Z.log2 n) with 0 by lia.
    change (1 * 2 ^ 0) with 1. change (2 ^ 0) with 1.
    rewrite Z.mul_1_r. f_equal.
    rewrite <- (Z.mul_1_r n) at 1. now apply round_half_even_exact.
  - f_equal. replace (- (Z.log2 n - 52)) with (52 - Z.log2 n) by lia.
    rewrite <- (Z.mul_1_r (n * 2 ^ (52 - Z.log2 n))) at 1.
    now apply round_half_even_exact.
Qed.

(** ** Size normaliser: sign, errors, exact values *)

Lemma digit_code (c : ascii) : is_ascii_digit c = true -> 0 <= code c - 48 <= 9.
Proof.
  unfold is_ascii_digit, in_range. intros H.
  apply andb_true_iff in H as [A B]. apply Z.leb_le in A, B. lia.
Qed.

Lemma digits_value_acc_nonneg (s : string) (acc : Z) :
  all_chars is_ascii_digit s -> 0 <= acc -> 0 <= digits_value_acc s acc.
Proof.
  unfold all_chars. revert acc; induction s as [|c s IH]; intros acc H Ha;
    cbn [digits_value_acc string_forallb] in *; [lia|].
  apply andb_true_iff in H as [Hc Hs]. apply IH; [exact Hs|].
  pose proof (digit_code c Hc). lia.
Qed.

Lemma digits_value_nonneg (s : string) :
  all_chars is_ascii_digit s -> 0 <= digits_value s.
Proof.
  intros H. apply digits_value_acc_nonneg; [exact H|lia].
Qed.

Lemma head_not_nil (f : ascii -> bool) : head_not f "".
Proof. exact I. Qed.

Lemma float_of_decimal_int (ip : string) :
  ip <> "" -> all_chars is_ascii_digit ip ->
  float_of_decimal ip = Ok (round_ratio false (digits_value ip) 1).
Proof.
  intros N H. unfold float_of_decimal.
  rewrite <- (append_nil_r ip) at 1.
  rewrite (span_app is_ascii_digit ip "" H (head_not_nil _)).
  apply is_empty_false in N. now rewrite N.
Qed.

(** [float] of a matched number: the float nearest to a non-negative
    ratio. *)
Lemma float_of_decimal_number (num : string) :
  is_number num ->
  exists p q, 0 <= p /\ 0 < q /\ float_of_decimal num = Ok (round_ratio false p q).
Proof.
  intros (ip & N & H & [->|(fp & Nf & Hf & ->)]).
  - exists (digits_value ip), 1. rewrite float_of_decimal_int by assumption.
    split; [now apply digits_value_nonneg|]. split; [lia|reflexivity].
  - exists (digits_value (ip ++ fp)), (10 ^ Z.of_nat (String.length fp)).
    split; [apply digits_value_nonneg; apply all_chars_app; now split|].
    split; [apply Z.pow_pos_nonneg; lia|].
    unfold float_of_decimal.
    rewrite (span_app is_ascii_digit ip ("." ++ fp) H) by reflexivity.
    apply is_empty_false in N, Nf. rewrite N. cbn [append].
    unfold all_chars in Hf. rewrite Ascii.eqb_refl, Nf, Hf. reflexivity.
Qed.

(** Every scale of the table, and the scale of an unknown unit, is a
    power of 1024. *)
Lemma scale_is_power (unit : string) :
  exists k, 0 <= k <= 4 /\ dict_get size_scale unit 1 = 1024 ^ k.
Proof.
  unfold dict_get, size_scale. cbn [assoc].
  repeat match goal with
         | |- context [if String.eqb unit ?u then _ else _] =>
             destruct (String.eqb unit u)
         end;
    first [exists 0; split; [lia|reflexivity]
          |exists 1; split; [lia|reflexivity]
          |exists 2; split; [lia|reflexivity]
          |exists 3; split; [lia|reflexivity]
          |exists 4; split; [lia|reflexivity]].
Qed.

Lemma float_of_scale (k : Z) :
  0 <= k <= 4 -> float_of_int (1024 ^ k) = Ok (FFin false (2 ^ 52) (10 * k - 52)).
Proof.
  intros H.
  assert (C : k = 0 \/ k = 1 \/ k = 2 \/ k = 3 \/ k = 4) by lia.
  destruct C as [->|[->|[->|[->| ->]]]]; vm_compute; reflexivity.
Qed.

Lemma size_search_groups (s num unit : string) :
  size_search s = Some (num, unit) -> is_number num.
Proof.
  induction s as [|x s IH]; cbn [size_search].
  - destruct (size_match_here "") as [[n u]|] eqn:M; [|discriminate].
    intros [= -> ->]. destruct (size_match_here_sound _ _ _ M) as (?&?&?&?&?&?&?); assumption.
  - destruct (size_match_here (String x s)) as [[n u]|] eqn:M; [|exact IH].
    intros [= -> ->]. destruct (size_match_here_sound _ _ _ M) as (?&?&?&?&?&?&?); assumption.
Qed.

(** [int] of a float that is not negative. *)
Lemma int_of_ratio (p q : Z) :
  0 <= p -> 0 < q ->
  (exists z, int_of_float (round_ratio false p q) = Ok z /\ 0 <= z) \/
  (exists msg, int_of_float (round_ratio false p q) = Raise (mkExn OverflowError msg)).
Proof.
  intros Hp Hq.
  destruct (round_ratio_shape false p q Hp Hq) as [(m & e & -> & Hm)| ->].
  - left. cbn [int_of_float]. eexists; split; [reflexivity|].
    destruct (0 <=? e) eqn:E.
    + apply Z.mul_nonneg_nonneg; [lia|]. apply Z.pow_nonneg; lia.
    + apply Z.leb_gt in E. apply Z.div_pos; [lia|]. apply Z.pow_pos_nonneg; lia.
  - right. eexists; reflexivity.
Qed.

(** What [parse_size_bytes] computes on a text that holds the pattern:
    the integer of a float that is not negative, or of infinity. *)
Lemma size_of_match (text : string) :
  parse_size_bytes text = Ok 0 \/
  (exists p q, 0 <= p /\ 0 < q /\
     parse_size_bytes text = int_of_float (round_ratio false p q)) \/
  parse_size_bytes text = int_of_float (FInf false).
Proof.
  unfold parse_size_bytes.
  destruct (size_search text) as [[g1 g2]|] eqn:S; [right|now left].
  destruct (float_of_decimal_number g1 (size_search_groups _ _ _ S))
    as (p & q & Hp & Hq & ->).
  destruct (scale_is_power (py_lower g2)) as (k & Hk & ->).
  rewrite (float_of_scale k Hk). cbn [bind].
  destruct (round_ratio_shape false p q Hp Hq) as [(m & e & -> & Hm)| ->];
    [left|now right].
  cbn [fmul xorb].
  assert (P52 : 0 < 2 ^ 52) by reflexivity.
  destruct (0 <=? e + (10 * k - 52)) eqn:E.
  - eexists _, 1. split; [|split; [lia|reflexivity]].
    apply Z.mul_nonneg_nonneg; [nia|]. apply Z.pow_nonneg; lia.
  - apply Z.leb_gt in E. eexists _, _. split; [|split; [|reflexivity]].
    + nia.
    + apply Z.pow_pos_nonneg; lia.
Qed.

(** X1. The size normaliser returns a non-negative integer, or raises
    [OverflowError] (the number is too large for a float): nothing else. *)
Theorem size_nonneg_or_overflow (text : string) :
  (exists z, parse_size_bytes text = Ok z /\ 0 <= z) \/
  (exists msg, parse_size_bytes text = Raise (mkExn OverflowError msg)).
Proof.
  destruct (size_of_match text) as [-> | [(p & q & Hp & Hq & ->) | ->]].
  - left. exists 0. split; [reflexivity|lia].
  - now apply int_of_ratio.
  - right. eexists; reflexivity.
Qed.

(** Multiplying by a power of two moves the exponent. *)
Lemma fmul_power_of_two (a ea es : Z) :
  2 ^ 52 <= a < 2 ^ 53 -> -1074 <= ea + es + 52 <= 971 ->
  fmul (FFin false a ea) (FFin false (2 ^ 52) es) = FFin false a (ea + es + 52).
Proof.
  intros Ha Hr. cbn [fmul xorb].
  destruct (0 <=? ea + es) eqn:E.
  - apply Z.leb_le in E.
    replace (a * 2 ^ 52 * 2 ^ (ea + es)) with (a * 2 ^ (52 + (ea + es)))
      by (rewrite Z.pow_add_r by lia; ring).
    change 1 with (2 ^ 0) at 1.
    rewrite round_ratio_dyadic by lia. f_equal. lia.
  - apply Z.leb_gt in E.
    rewrite round_ratio_dyadic by lia. f_equal. lia.
Qed.

(** A whole number below [2^53] times a scale of the table is exact. *)
Lemma scaled_size_exact (ip : string) (k : Z) :
  ip <> "" -> all_chars is_ascii_digit ip -> digits_value ip < 2 ^ 53 ->
  0 <= k <= 4 ->
  scaled_size ip (1024 ^ k) = Ok (digits_value ip * 1024 ^ k).
Proof.
  intros N H B Hk. unfold scaled_size.
  rewrite (float_of_decimal_int ip N H), (float_of_scale k Hk). cbn [bind].
  pose proof (digits_value_nonneg ip H) as P.
  assert (K : 1024 ^ k = 2 ^ (10 * k)) by (rewrite Z.pow_mul_r by lia; reflexivity).
  destruct (Z.eq_dec (digits_value ip) 0) as [Z0|NZ].
  - rewrite Z0. change (round_ratio false 0 1) with (FFin false 0 0).
    cbn [fmul xorb]. rewrite !Z.mul_0_l.
    assert (R : forall q, round_ratio false 0 q = FFin false 0 0) by reflexivity.
    destruct (0 <=? 0 + (10 * k - 52)); rewrite R; reflexivity.
  - destruct (round_ratio_int false (digits_value ip)) as (-> & Ba & BL); [lia|].
    set (n := digits_value ip) in *. set (L := Z.log2 n) in *.
    rewrite fmul_power_of_two by lia.
    cbn [int_of_float]. f_equal. rewrite K.
    replace (L - 52 + (10 * k - 52) + 52) with (10 * k - (52 - L)) by lia.
    destruct (0 <=? 10 * k - (52 - L)) eqn:E.
    + apply Z.leb_le in E. rewrite <- Z.mul_assoc, <- Z.pow_add_r by lia.
      do 2 f_equal. lia.
    + apply Z.leb_gt in E.
      replace (2 ^ (52 - L)) with (2 ^ (10 * k) * 2 ^ (- (10 * k - (52 - L))))
        by (rewrite <- Z.pow_add_r by lia; f_equal; lia).
      rewrite Z.mul_assoc, Z.div_mul; [reflexivity|].
      apply Z.pow_nonzero; lia.
Qed.

(** X2. After "Size ", a whole number below [2^53], any white space (or
    none) and a run of letters, the size normaliser returns exactly the
    number times the scale of the unit, read in any letter case; a unit
    that is not in the table counts as bytes. *)
Theorem size_exact_on_whole_numbers (ip spaces : string) (c : ascii) (u rest : string) :
  ip <> "" -> all_chars is_ascii_digit ip -> digits_value ip < 2 ^ 53 ->
  all_chars py_isspace spaces ->
  all_chars is_ascii_alpha (String c u) -> head_not is_ascii_alpha rest ->
  parse_size_bytes ("Size " ++ ip ++ spaces ++ String c u ++ rest)
  = Ok (digits_value ip * dict_get size_scale (py_lower (String c u)) 1).
Proof.
  intros N H B Hs Hu Hr. unfold parse_size_bytes.
  rewrite (size_search_canonical ip spaces c u rest); auto.
  - destruct (scale_is_power (py_lower (String c u))) as (k & Hk & E).
    rewrite E. now apply scaled_size_exact.
  - exists ip. auto.
Qed.

Lemma size_exact_on_whole_numbers_witness :
  parse_size_bytes ("Size " ++ "700" ++ String (ascii_of_nat 160) "" ++ "mB" ++ ", ULed")
  = Ok (700 * 1024 ^ 2).
Proof.
  apply (size_exact_on_whole_numbers "700" (String (ascii_of_nat 160) "") "m" "B" ", ULed");
    try reflexivity; discriminate.
Defined.

(** ** Size display *)

Lemma round_half_even_scale (x y c : Z) :
  0 < y -> 0 < c -> round_half_even (x * c) (y * c) = round_half_even x y.
Proof.
  intros Hy Hc. unfold round_half_even.
  rewrite Z.div_mul_cancel_r, Z.mul_mod_distr_r by lia.
  replace (2 * (x mod y * c)) with (2 * (x mod y) * c) by ring.
  now rewrite <- Zmult_compare_compat_r by lia.
Qed.

Lemma float_1024 : float_of_int 1024 = Ok (FFin false (2 ^ 52) (-42)).
Proof. vm_compute. reflexivity. Qed.

(** Dividing by a power of two moves the exponent. *)
Lemma fdiv_power_of_two (neg : bool) (a ea es : Z) :
  2 ^ 52 <= a < 2 ^ 53 -> -1074 <= ea - es - 52 <= 971 ->
  fdiv (FFin neg a ea) (FFin false (2 ^ 52) es) = Ok (FFin neg a (ea - es - 52)).
Proof.
  intros Ha Hr. change (2 ^ 52) with 4503599627370496.
  cbn [fdiv]. change 4503599627370496 with (2 ^ 52).
  rewrite xorb_false_r. f_equal.
  destruct (0 <=? ea - es) eqn:E.
  - apply Z.leb_le in E. rewrite round_ratio_dyadic by lia. reflexivity.
  - apply Z.leb_gt in E.
    rewrite <- (Z.mul_1_r a) at 1. change 1 with (2 ^ 0) at 1.
    rewrite <- Z.pow_add_r by lia.
    rewrite round_ratio_dyadic by lia. f_equal. lia.
Qed.

Lemma pow_1024 (j : Z) : 0 <= j -> 1024 ^ j = 2 ^ (10 * j).
Proof. intros H. change 1024 with (2 ^ 10). now rewrite <- Z.pow_mul_r by lia. Qed.

(** What [format_1f] prints for the float [n / 1024 ^ j]. *)
Lemma format_scaled (neg : bool) (n L j : Z) :
  0 < n -> 0 <= L <= 52 -> 0 <= j ->
  format_1f (FFin neg (n * 2 ^ (52 - L)) (L - 52 - 10 * j))
  = (if neg then "-" else "") ++ tenths (round_half_even (10 * n) (1024 ^ j)).
Proof.
  intros Hn HL Hj. cbn [format_1f]. do 2 f_equal.
  rewrite pow_1024 by lia.
  destruct (0 <=? L - 52 - 10 * j) eqn:E.
  - apply Z.leb_le in E.
    assert (L = 52) by lia. assert (j = 0) by lia. subst L j.
    change (52 - 52) with 0. change (10 * 0) with 0. change (2 ^ 0) with 1.
    rewrite !Z.mul_1_r.
    pose proof (round_half_even_exact (10 * n) 1 ltac:(lia)) as R.
    rewrite Z.mul_1_r in R. now rewrite R.
  - apply Z.leb_gt in E.
    replace (- (L - 52 - 10 * j)) with (10 * j + (52 - L)) by lia.
    rewrite Z.pow_add_r by lia.
    replace (10 * (n * 2 ^ (52 - L))) with (10 * n * 2 ^ (52 - L)) by ring.
    apply round_half_even_scale; apply Z.pow_pos_nonneg; lia.
Qed.

Lemma lt_1024_scaled (n L j : Z) :
  0 < n -> 0 <= L <= 52 -> 0 <= j ->
  float_lt_int (FFin false (n * 2 ^ (52 - L)) (L - 52 - 10 * j)) 1024
  = (n <? 1024 ^ (j + 1)).
Proof.
  intros Hn HL Hj. cbn [float_lt_int].
  rewrite pow_1024 by lia.
  assert (P : 0 < 2 ^ (52 - L)) by (apply Z.pow_pos_nonneg; lia).
  destruct (0 <=? L - 52 - 10 * j) eqn:E.
  - apply Z.leb_le in E.
    assert (L = 52) by lia. assert (j = 0) by lia. subst L j.
    change (52 - 52) with 0. change (10 * (0 + 1)) with 10.
    change (2 ^ 0) with 1. change (2 ^ 10) with 1024. now rewrite !Z.mul_1_r.
  - apply Z.leb_gt in E.
    replace (- (L - 52 - 10 * j)) with (10 * j + (52 - L)) by lia.
    rewrite Z.pow_add_r by lia.
    replace (1024 * (2 ^ (10 * j) * 2 ^ (52 - L)))
      with (2 ^ (10 * (j + 1)) * 2 ^ (52 - L)).
    2:{ replace (10 * (j + 1)) with (10 * j + 10) by lia.
        rewrite Z.pow_add_r by lia. change (2 ^ 10) with 1024. ring. }
    destruct (n <? 2 ^ (10 * (j + 1))) eqn:C.
    + apply Z.ltb_lt in C. apply Z.ltb_lt. nia.
    + apply Z.ltb_ge in C. apply Z.ltb_ge. nia.
Qed.

(** One turn of the loop of [human_size] on the float [n / 1024 ^ j]. *)
Lemma human_size_loop_step (n j : Z) (unit : string) (rest : list string) :
  0 < n < 2 ^ 53 -> 0 <= j <= 5 ->
  human_size_loop (unit :: rest)
    (FFin false (n * 2 ^ (52 - Z.log2 n)) (Z.log2 n - 52 - 10 * j))
  = if n <? 1024 ^ (j + 1)
    then Ok (tenths (round_half_even (10 * n) (1024 ^ j)) ++ " " ++ unit)
    else human_size_loop rest
           (FFin false (n * 2 ^ (52 - Z.log2 n)) (Z.log2 n - 52 - 10 * (j + 1))).
Proof.
  intros Hn Hj.
  destruct (round_ratio_int false n Hn) as (_ & Ha & HL).
  cbn [human_size_loop].
  rewrite lt_1024_scaled by lia.
  destruct (n <? 1024 ^ (j + 1)); [now rewrite format_scaled by lia|].
  rewrite float_1024. cbn [bind].
  rewrite fdiv_power_of_two by lia. cbn [bind].
  do 2 f_equal. lia.
Qed.

Lemma human_size_loop_end (n j : Z) :
  0 < n < 2 ^ 53 -> 0 <= j ->
  human_size_loop []
    (FFin false (n * 2 ^ (52 - Z.log2 n)) (Z.log2 n - 52 - 10 * j))
  = Ok (tenths (round_half_even (10 * n) (1024 ^ j)) ++ " PB").
Proof.
  intros Hn Hj.
  destruct (round_ratio_int false n Hn) as (_ & Ha & HL).
  cbn [human_size_loop]. now rewrite format_scaled by lia.
Qed.

Lemma float_of_positive (n : Z) :
  0 < n < 2 ^ 53 ->
  float_of_int n = Ok (FFin false (n * 2 ^ (52 - Z.log2 n)) (Z.log2 n - 52)).
Proof.
  intros Hn. unfold float_of_int.
  replace (n <? 0) with false by (symmetry; apply Z.ltb_ge; lia).
  rewrite Z.abs_eq by lia.
  destruct (round_ratio_int false n Hn) as (-> & _). reflexivity.
Qed.

Lemma ltb_false_of_le (a b : Z) : b <= a -> (a <? b) = false.
Proof. intros H. now apply Z.ltb_ge. Qed.

Lemma ltb_true_of_lt (a b : Z) : a < b -> (a <? b) = true.
Proof. intros H. now apply Z.ltb_lt. Qed.

(** [human_size] on a positive size of magnitude [k]. *)
Lemma human_size_positive (n k : Z) :
  0 < n < 2 ^ 53 -> 0 <= k <= 5 ->
  (0 < k -> 1024 ^ k <= n) -> (k < 5 -> n < 1024 ^ (k + 1)) ->
  human_size n
  = Ok (tenths (round_half_even (10 * n) (1024 ^ k)) ++ " "
        ++ nth (Z.to_nat k) size_unit_names "").
Proof.
  intros Hn Hk Lo Hi.
  unfold human_size. rewrite float_of_positive by lia. cbn [bind].
  replace (Z.log2 n - 52) with (Z.log2 n - 52 - 10 * 0) by lia.
  assert (M : forall j, 0 <= j -> j + 1 <= k -> 1024 ^ (j + 1) <= n).
  { intros j Hj Hjk. transitivity (1024 ^ k); [|apply Lo; lia].
    apply Z.pow_le_mono_r; lia. }
  assert (K : k = 0 \/ k = 1 \/ k = 2 \/ k = 3 \/ k = 4 \/ k = 5) by lia.
  destruct K as [->|[->|[->|[->|[->| ->]]]]];
    repeat (rewrite human_size_loop_step by lia;
            first [ rewrite (ltb_false_of_le n) by (apply M; lia)
                  | rewrite (ltb_true_of_lt n) by (apply Hi; lia) ];
            cbn [Z.add Pos.add Pos.succ]);
    try reflexivity.
  rewrite human_size_loop_end by lia. reflexivity.
Qed.

(** X3. For a size [0 <= n < 2 ^ 53] whose magnitude is [k] (the unit of
    index [k] is the first one with [n < 1024 ^ (k + 1)], or the last unit),
    [human_size] returns the quotient [n / 1024 ^ k] rounded half-to-even to
    one decimal, a space and the unit's name; it raises nothing. *)
Theorem human_size_rounds_to_tenths (n k : Z) :
  0 <= n < 2 ^ 53 -> 0 <= k <= 5 ->
  (0 < k -> 1024 ^ k <= n) -> (k < 5 -> n < 1024 ^ (k + 1)) ->
  human_size n
  = Ok (tenths (round_half_even (10 * n) (1024 ^ k)) ++ " "
        ++ nth (Z.to_nat k) size_unit_names "").
Proof.
  intros Hn Hk Lo Hi.
  assert (Z0 : n = 0 \/ 0 < n) by lia. destruct Z0 as [-> | Hp].
  - (* zero is shown in bytes *)
    assert (k = 0).
    { destruct (Z.eq_dec k 0) as [|N]; [assumption|].
      assert (0 < 1024 ^ k) by (apply Z.pow_pos_nonneg; lia). lia. }
    subst k. reflexivity.
  - apply human_size_positive; auto. lia.
Qed.

Lemma human_size_rounds_to_tenths_witness :
  human_size 1048575 = Ok "1024.0 KB".
Proof.
  apply (human_size_rounds_to_tenths 1048575 1); [lia | lia | |].
  - intros _. vm_compute. discriminate.
  - intros _. reflexivity.
Defined.

Lemma tenths_whole (m : Z) : tenths (10 * m) = decimal m ++ ".0".
Proof.
  unfold tenths. rewrite (Z.mul_comm 10 m), Z.div_mul, Z.mod_mul by lia.
  reflexivity.
Qed.

Lemma float_of_negative (n : Z) :
  - 2 ^ 53 < n < 0 ->
  float_of_int n
  = Ok (FFin true (- n * 2 ^ (52 - Z.log2 (- n))) (Z.log2 (- n) - 52)).
Proof.
  intros Hn. unfold float_of_int.
  rewrite (ltb_true_of_lt n 0) by lia.
  rewrite Z.abs_neq by lia.
  destruct (round_ratio_int true (- n) ltac:(lia)) as (-> & _). reflexivity.
Qed.

(** X4. A negative size is never scaled: whatever its magnitude (within
    the integers a float holds exactly), [human_size] shows it in bytes,
    as a minus sign, the digits of its absolute value and [.0 B]. *)
Theorem human_size_negative_in_bytes (n : Z) :
  - 2 ^ 53 < n < 0 ->
  human_size n = Ok ("-" ++ decimal (- n) ++ ".0 B").
Proof.
  intros Hn.
  destruct (round_ratio_int true (- n) ltac:(lia)) as (_ & Ha & HL).
  unfold human_size. rewrite float_of_negative by lia. cbn [bind human_size_loop].
  assert (P : 0 < 2 ^ (52 - Z.log2 (- n))) by (apply Z.pow_pos_nonneg; lia).
  assert (Lt : float_lt_int
                 (FFin true (- n * 2 ^ (52 - Z.log2 (- n))) (Z.log2 (- n) - 52))
                 1024 = true).
  { cbn [float_lt_int].
    destruct (0 <=? Z.log2 (- n) - 52) eqn:E; apply Z.ltb_lt.
    - assert (0 < 2 ^ (Z.log2 (- n) - 52)).
      { apply Z.leb_le in E. apply Z.pow_pos_nonneg; lia. }
      nia.
    - assert (0 < 2 ^ (- (Z.log2 (- n) - 52))).
      { apply Z.leb_gt in E. apply Z.pow_pos_nonneg; lia. }
      nia. }
  rewrite Lt.
  replace (Z.log2 (- n) - 52) with (Z.log2 (- n) - 52 - 10 * 0) by lia.
  rewrite format_scaled by lia.
  change (1024 ^ 0) with 1.
  pose proof (round_half_even_exact (10 * - n) 1 ltac:(lia)) as R.
  rewrite Z.mul_1_r in R. rewrite R, tenths_whole.
  cbn [append]. now rewrite append_assoc.
Qed.

Lemma human_size_negative_in_bytes_witness :
  human_size (-5000000) = Ok "-5000000.0 B".
Proof. apply (human_size_negative_in_bytes (-5000000)). lia. Defined.

Lemma fdiv_1024_ok (x : float64) :
  exists y, fdiv x (FFin false (2 ^ 52) (-42)) = Ok y.
Proof.
  change (2 ^ 52) with 4503599627370496.
  destruct x; cbn [fdiv]; eexists; reflexivity.
Qed.

(** The loop of [human_size] raises on no float. *)
Lemma human_size_loop_ok (units : list string) (x : float64) :
  exists s, human_size_loop units x = Ok s.
Proof.
  revert x. induction units as [|unit rest IH]; intros x; cbn [human_size_loop].
  - eexists; reflexivity.
  - destruct (float_lt_int x 1024); [eexists; reflexivity|].
    rewrite float_1024. cbn [bind].
    destruct (fdiv_1024_ok x) as [y ->]. cbn [bind]. apply IH.
Qed.

(** [float(n)] overflows exactly from [2^1024 - 2^970] on, the midpoint
    between the largest float and [2^1024]. *)
Lemma float_of_int_range (n : Z) :
  (Z.abs n < 2 ^ 1024 - 2 ^ 970 /\ exists f, float_of_int n = Ok f) \/
  (2 ^ 1024 - 2 ^ 970 <= Z.abs n /\
   float_of_int n = Raise (mkExn OverflowError "int too large to convert to float")).
Proof.
  unfold float_of_int. generalize (n <? 0) as neg. generalize (Z.abs_nonneg n).
  generalize (Z.abs n) as p. clear n. intros p Hp neg.
  assert (T0 : 0 < 2 ^ 1024 - 2 ^ 970) by (vm_compute; reflexivity).
  remember (2 ^ 970) as H eqn:EH.
  assert (H0 : 0 < H) by (subst H; vm_compute; reflexivity).
  assert (E971 : 2 ^ 971 = 2 * H) by (subst H; vm_compute; reflexivity).
  assert (E1023 : 2 ^ 1023 = 2 ^ 53 * H) by (subst H; vm_compute; reflexivity).
  assert (E1024 : 2 ^ 1024 = 2 * 2 ^ 53 * H) by (subst H; vm_compute; reflexivity).
  destruct (Z.eq_dec p 0) as [->|NZ].
  { left. split; [lia|]. unfold round_ratio. cbn [Z.eqb]. eexists; reflexivity. }
  assert (Pp : 0 < p) by lia.
  pose proof (Z.log2_spec p Pp) as [Lo Hi].
  pose proof (Z.log2_nonneg p) as L0.
  unfold round_ratio, floor_log2_ratio.
  replace (p =? 0) with false by (symmetry; apply Z.eqb_neq; lia).
  change (Z.log2 1) with 0. rewrite Z.sub_0_r.
  replace (0 <=? Z.log2 p) with true by (symmetry; apply Z.leb_le; lia).
  replace (1 * 2 ^ Z.log2 p <=? p) with true by (symmetry; apply Z.leb_le; lia).
  replace (Z.max (Z.log2 p - 52) (-1074)) with (Z.log2 p - 52) by lia.
  destruct (Z.lt_trichotomy (Z.log2 p) 1023) as [Small|[Edge|Big]].
  - left. split.
    + assert (2 ^ Z.succ (Z.log2 p) <= 2 ^ 1023) by (apply Z.pow_le_mono_r; lia).
      rewrite E1024. lia.
    + replace (972 <=? Z.log2 p - 52) with false by (symmetry; apply Z.leb_gt; lia).
      replace (Z.log2 p - 52 =? 971) with false by (symmetry; apply Z.eqb_neq; lia).
      cbn [orb andb]. eexists; reflexivity.
  - rewrite Edge in *. change (1023 - 52) with 971.
    change (Z.succ 1023) with 1024 in Hi.
    change (972 <=? 971) with false. change (971 =? 971) with true.
    change (0 <=? 971) with true. cbn [orb andb].
    rewrite E971, Z.mul_1_l. rewrite E1023 in Lo. rewrite E1024 in Hi.
    unfold round_half_even.
    pose proof (Z.div_mod p (2 * H) ltac:(lia)) as DM.
    pose proof (Z.mod_pos_bound p (2 * H) ltac:(lia)) as MB.
    set (d := p / (2 * H)) in *. set (r := p mod (2 * H)) in *.
    assert (Dlo : 2 ^ 52 <= d) by nia.
    assert (Dhi : d < 2 ^ 53) by nia.
    destruct (Z.lt_ge_cases p (2 * 2 ^ 53 * H - H)) as [Below|Above].
    + left. split; [rewrite E1024; exact Below|].
      assert (NE : (match 2 * r ?= 2 * H with
                    | Eq => if Z.even d then d else d + 1
                    | Lt => d
                    | Gt => d + 1
                    end =? 2 ^ 53) = false).
      { apply Z.eqb_neq.
        destruct (Z.compare_spec (2 * r) (2 * H)) as [Q|Q|Q].
        - destruct (Z.even d) eqn:Ev; [lia|].
          intros Eq. assert (d = 2 ^ 53 - 1) by lia. nia.
        - lia.
        - intros Eq. assert (d = 2 ^ 53 - 1) by lia. nia. }
      rewrite NE. eexists; reflexivity.
    + right. split; [rewrite E1024; exact Above|].
      assert (Dv : d = 2 ^ 53 - 1) by nia.
      assert (EQ : (match 2 * r ?= 2 * H with
                    | Eq => if Z.even d then d else d + 1
                    | Lt => d
                    | Gt => d + 1
                    end =? 2 ^ 53) = true).
      { apply Z.eqb_eq.
        destruct (Z.compare_spec (2 * r) (2 * H)) as [Q|Q|Q].
        - rewrite Dv. reflexivity.
        - nia.
        - lia. }
      rewrite EQ. reflexivity.
  - right. split.
    + assert (2 ^ 1024 <= 2 ^ Z.log2 p) by (apply Z.pow_le_mono_r; lia). lia.
    + replace (972 <=? Z.log2 p - 52) with true by (symmetry; apply Z.leb_le; lia).
      reflexivity.
Qed.

(** X5. [human_size] fails on exactly the integers that [float] cannot
    hold: from [2^1024 - 2^970] on in absolute value it raises
    OverflowError, and on every other integer it returns a string. *)
Theorem human_size_fails_only_on_overflow (n : Z) :
  (Z.abs n < 2 ^ 1024 - 2 ^ 970 /\ exists s, human_size n = Ok s) \/
  (2 ^ 1024 - 2 ^ 970 <= Z.abs n /\
   human_size n = Raise (mkExn OverflowError "int too large to convert to float")).
Proof.
  unfold human_size.
  destruct (float_of_int_range n) as [(B & f & ->)|(B & ->)]; [left|right]; split;
    try exact B; cbn [bind]; [apply human_size_loop_ok | reflexivity].
Qed.

(** ** What the row parser keeps *)

Lemma all_chars_rev_onto (f : ascii -> bool) (s acc : string) :
  all_chars f s -> all_chars f acc -> all_chars f (string_rev_onto s acc).
Proof.
  unfold all_chars. revert acc.
  induction s as [|c s IH]; intros acc Hs Ha; cbn in *; [exact Ha|].
  apply andb_true_iff in Hs as [Hc Hs]. apply IH; [exact Hs|].
  cbn. now rewrite Hc, Ha.
Qed.

Lemma all_chars_drop_while (f g : ascii -> bool) (s : string) :
  all_chars f s -> all_chars f (drop_while g s).
Proof.
  unfold all_chars. induction s as [|c s IH]; intros Hs; cbn in *; [reflexivity|].
  destruct (g c); [|exact Hs].
  apply andb_true_iff in Hs as [_ Hs]. now apply IH.
Qed.

Lemma all_chars_strip_with (f g : ascii -> bool) (s : string) :
  all_chars f s -> all_chars f (strip_with g s).
Proof.
  intros H. unfold strip_with, string_rev.
  apply all_chars_rev_onto; [|reflexivity].
  apply all_chars_drop_while.
  apply all_chars_rev_onto; [|reflexivity].
  now apply all_chars_drop_while.
Qed.

Lemma all_chars_strip (f : ascii -> bool) (s : string) :
  all_chars f s -> all_chars f (py_strip s).
Proof. apply (all_chars_strip_with f py_isspace). Qed.


Lemma digit_not_sign (c : ascii) :
  py_isdigit_char c = true -> Ascii.eqb c "-" = false /\ Ascii.eqb c "+" = false.
Proof. each_char c; vm_compute; intros H; try discriminate H; split; reflexivity. Qed.


Lemma size_ok_nonneg (text : string) (z : Z) :
  parse_size_bytes text = Ok z -> 0 <= z.
Proof.
  destruct (size_of_match text) as [-> | [(p & q & Hp & Hq & ->) | ->]].
  - intros [= <-]. lia.
  - destruct (int_of_ratio p q Hp Hq) as [(z' & -> & Hz)|(msg & ->)];
      [intros [= <-]; exact Hz|discriminate].
  - discriminate.
Qed.







(** Outside a table row, an event that does not open one changes nothing. *)
Lemma handle_outside_row (ev : event) (p : parser) :
  in_tr p = false -> in_det_name p = false -> in_title_anchor p = false ->
  in_det_desc p = false -> in_align_right p = false ->
  opens_row ev = false -> handle ev p = Ok p.
Proof.
  destruct p as [rs it dn ta dd ar av cur]; cbn.
  intros -> -> -> -> -> O.
  destruct ev as [tag attrs|tag|data]; cbn in *.
  - unfold handle_starttag. now rewrite O.
  - unfold handle_endtag, when; cbn. rewrite andb_false_r.
    destruct (String.eqb tag "div"), (String.eqb tag "a"), (String.eqb tag "font");
      cbn; rewrite ?andb_false_r; reflexivity.
  - reflexivity.
Qed.

(** X7. A page without a [tr] start tag leaves the parser as it was
    created: whatever else it holds (links, cells, text, anchors without
    [href] value), no row is emitted and nothing is raised. *)
Theorem parser_ignores_what_is_outside_rows (evs : list event) :
  forallb (fun ev => negb (opens_row ev)) evs = true ->
  feed evs new_parser = Ok new_parser.
Proof.
  induction evs as [|ev evs IH]; cbn [forallb feed]; [reflexivity|].
  intros H. apply andb_true_iff in H as [O R].
  apply negb_true_iff in O.
  rewrite (handle_outside_row ev new_parser) by (reflexivity || exact O).
  cbn [bind]. now apply IH.
Qed.

Lemma parser_ignores_what_is_outside_rows_witness :
  feed [ StartTag "a" [("href", None)];
         StartTag "a" [("href", Some "magnet:?xt=urn:btih:AAAA")];
         StartTag "td" [("align", Some "right")]; Data "12"; EndTag "td";
         EndTag "tr" ] new_parser
  = Ok new_parser.
Proof.
  apply parser_ignores_what_is_outside_rows. reflexivity.
Defined.

Lemma handle_starttag_row_count (tag : string) (attrs : list (string * option string))
    (p p' : parser) :
  handle_starttag tag attrs p = Ok p' ->
  rows p' = rows p /\
  (in_tr p' = in_tr p \/
   opens_row (StartTag tag attrs) = true /\ in_tr p' = true).
Proof.
  unfold handle_starttag, when. cbn [opens_row].
  destruct p as [rs it dn ta dd ar av [cn cm cs]]; cbn.
  destruct (String.eqb tag "tr"); [intros [= <-]; cbn; auto|].
  destruct it; cbn; [|intros [= <-]; cbn; auto].
  destruct (String.eqb tag "div" && attr_is attrs "class" "detName");
  destruct (String.eqb tag "font" && attr_is attrs "class" "detDesc");
  destruct (String.eqb tag "a"); cbn;
  try destruct (attrs_get attrs "href") as [[href|]|]; cbn;
  try destruct (startswith _ "magnet:?xt="); cbn;
  try destruct dn; cbn;
  destruct (String.eqb tag "td" && attr_is attrs "align" "right"); cbn;
  try discriminate; intros [= <-]; cbn; auto.
Qed.

Lemma handle_endtag_row_count (tag : string) (p : parser) :
  (rows (handle_endtag tag p) = rows p /\
   (in_tr (handle_endtag tag p) = in_tr p \/ in_tr (handle_endtag tag p) = false)) \/
  (closes_row (EndTag tag) = true /\ in_tr p = true /\
   in_tr (handle_endtag tag p) = false /\
   length (rows (handle_endtag tag p)) = S (length (rows p))).
Proof.
  unfold handle_endtag, when. cbn [closes_row].
  destruct p as [rs it dn ta dd ar av [cn cm cs]]; cbn.
  destruct (String.eqb tag "tr"), it; cbn;
  try (destruct cn as [name|];
       [destruct (parse_btih_from_magnet _) as [h|];
        [destruct (negb (is_empty name) && negb (is_empty h))|]|]);
  cbn;
  destruct (String.eqb tag "div"), (String.eqb tag "a"), (String.eqb tag "font"),
    (String.eqb tag "td"); cbn; try destruct ar; cbn;
  rewrite ?length_app; cbn; auto;
  right; repeat split; lia.
Qed.

Lemma handle_data_row_count (data : string) (p p' : parser) :
  handle_data data p = Ok p' -> rows p' = rows p /\ in_tr p' = in_tr p.
Proof.
  unfold handle_data, when.
  destruct p as [rs it dn ta dd ar av [cn cm cs]]; cbn.
  destruct it; cbn; [|intros [= <-]; cbn; auto].
  destruct (is_empty (py_strip data)); [intros [= <-]; cbn; auto|].
  destruct (ta && dn); cbn;
  (destruct dd; cbn;
   [destruct (parse_size_bytes (py_strip data)) as [z|]; cbn; [|discriminate];
    destruct (negb (z =? 0)); cbn|]);
  (destruct ar; cbn;
   [destruct (py_isdigit (py_strip data)); cbn;
    [destruct (int_of_str (py_strip data)) as [v|]; cbn; [|discriminate]|]|]);
  intros [= <-]; cbn; auto.
Qed.

(** The rows emitted while reading [evs], counted against the row tags:
    a row needs a start tag that is still open and the end tag that
    closes it. *)
Lemma feed_row_count (evs : list event) (p p' : parser) :
  feed evs p = Ok p' ->
  (length (rows p') + (if in_tr p' then 1 else 0)
   <= length (rows p) + (if in_tr p then 1 else 0) + count_events opens_row evs)%nat /\
  (length (rows p') <= length (rows p) + count_events closes_row evs)%nat /\
  (length (rows p) <= length (rows p'))%nat.
Proof.
  unfold count_events.
  revert p; induction evs as [|ev evs IH]; intros p; cbn [feed filter].
  - intros [= <-]. cbn. lia.
  - destruct (handle ev p) as [p1|e] eqn:H; cbn [bind]; [|discriminate].
    intros F. destruct (IH p1 F) as (I1 & I2 & I3). clear IH F.
    destruct ev as [tag attrs|tag|data]; cbn [handle] in H.
    + apply handle_starttag_row_count in H as [R [T|[O T]]];
        rewrite R in *; cbn [closes_row]; destruct (opens_row (StartTag tag attrs));
        cbn [length]; rewrite ?T in *; try discriminate;
        destruct (in_tr p), (in_tr p'); lia.
    + injection H as <-. cbn [opens_row].
      destruct (handle_endtag_row_count tag p) as [[R [T|T]]|(C & T0 & T & R)];
        rewrite ?R, ?T, ?T0, ?C in *; cbn [length];
        destruct (closes_row (EndTag tag)); cbn [length];
        try destruct (in_tr p); destruct (in_tr p'); try discriminate; lia.
    + apply handle_data_row_count in H as [R T]. rewrite R, T in *.
      cbn [opens_row closes_row]. lia.
Qed.

(** X8. The parser emits at most one row per table row of the page: no
    more rows than [tr] start tags, and no more than [tr] end tags. *)
Theorem parser_rows_bounded_by_row_tags (evs : list event) (p : parser) :
  feed evs new_parser = Ok p ->
  (length (rows p) <= count_events opens_row evs)%nat /\
  (length (rows p) <= count_events closes_row evs)%nat.
Proof.
  intros F. destruct (feed_row_count evs new_parser p F) as (I1 & I2 & _).
  cbn in I1, I2. destruct (in_tr p); lia.
Qed.

(** ** From the parser to the ranker *)

Lemma complete_row_shaped (links : list string) (row : pyval) :
  complete_row links row -> row_shaped row = true.
Proof.
  intros (name & h & s & l & z & m & -> & _). reflexivity.
Qed.

Lemma complete_row_keeps (links : list string) (resolution : string) (row : pyval) :
  complete_row links row ->
  keeps resolution row = passes_resolution resolution (py_lower (row_name row)).
Proof.
  intros (name & h & s & l & z & m & -> & Hn & Hh & _).
  apply is_empty_false in Hn, Hh.
  unfold keeps. change (row_name (make_row name h s l z)) with name.
  change (has_info_hash (make_row name h s l z)) with (negb (is_empty h)).
  rewrite Hn, Hh. cbn [negb andb]. now rewrite andb_true_r.
Qed.

(** X9. The rows the HTML parser emits never make the ranker raise: on
    them [filter_and_sort] only applies the resolution test to the
    lowercase name, sorts by seeders and cuts at 100. *)
Theorem parsed_rows_always_rank (evs : list event) (p : parser) (resolution : string) :
  feed evs new_parser = Ok p ->
  filter_and_sort (rows p) resolution
  = Ok (firstn 100
          (sort_by_seeders_desc
             (map to_ranked
                (filter (fun row => passes_resolution resolution (py_lower (row_name row)))
                        (rows p))))).
Proof.
  intros F.
  pose proof (feed_inv evs [] new_parser p new_parser_inv F) as [C _].
  unfold filter_and_sort.
  rewrite filter_loop_shaped.
  2:{ eapply Forall_impl; [|exact C]. intros row. apply complete_row_shaped. }
  cbn [bind app]. do 4 f_equal.
  apply filter_ext_in. intros row I.
  rewrite Forall_forall in C. apply (complete_row_keeps _ _ _ (C row I)).
Qed.

Lemma parsed_rows_always_rank_witness :
  filter_and_sort
    (rows (mkParser [make_row "Example.Movie.1080p" hash_A40 120 5 (2 * 1024 ^ 3)]
                    false false false false false [] fresh_current))
    "1080"
  = Ok [mkRanked "Example.Movie.1080p" (VStr hash_A40) 120 5 (2 * 1024 ^ 3)].
Proof.
  apply (parsed_rows_always_rank example_row_events
           (mkParser [make_row "Example.Movie.1080p" hash_A40 120 5 (2 * 1024 ^ 3)]
                     false false false false false [] fresh_current)
           "1080").
  reflexivity.
Defined.

(** ** The ranker on any rows *)

Lemma sorted_desc_firstn (n : nat) (l : list ranked) :
  sorted_desc l -> sorted_desc (firstn n l).
Proof.
  unfold sorted_desc. revert n.
  induction l as [|x l IH]; intros n S; destruct n; cbn [firstn]; try constructor.
  - apply IH. now inversion S.
  - inversion S as [|? ? _ F]; subst.
    rewrite Forall_forall in *. intros y I. apply F. now apply (in_firstn _ n).
Qed.

Lemma filter_loop_length (resolution : string) (rows : list pyval)
    (filtered out : list ranked) :
  filter_loop resolution rows filtered = Ok out ->
  (length out <= length filtered + length rows)%nat.
Proof.
  revert filtered; induction rows as [|row rows IH]; intros filtered; cbn [filter_loop].
  - intros [= <-]. cbn. lia.
  - destruct (filter_row resolution row) as [[r|]|e]; cbn [bind]; try discriminate;
      intros F; apply IH in F; rewrite ?length_app in F; cbn in *; lia.
Qed.

(** X10. Whatever rows it is given, a list [filter_and_sort] returns is
    sorted by seeders, highest first, holds at most 100 entries, and no
    more entries than there were rows. *)
Theorem ranked_sorted_and_capped (rows : list pyval) (resolution : string)
    (out : list ranked) :
  filter_and_sort rows resolution = Ok out ->
  sorted_desc out /\ (length out <= 100)%nat /\ (length out <= length rows)%nat.
Proof.
  unfold filter_and_sort.
  destruct (filter_loop resolution rows []) as [filtered|e] eqn:F; cbn [bind];
    [|discriminate].
  intros E.
  assert (E' : firstn 100 (sort_by_seeders_desc filtered) = out) by congruence.
  rewrite <- E'. clear E E'.
  split; [apply sorted_desc_firstn, sort_by_seeders_desc_sorted|].
  rewrite length_firstn.
  rewrite <- (Permutation_length (sort_by_seeders_desc_perm filtered)).
  apply filter_loop_length in F. cbn in F. lia.
Qed.

Lemma ranked_sorted_and_capped_witness :
  sorted_desc [mkRanked "b 1080p" (VStr "B") 7 0 0; mkRanked "a 1080p" (VStr "A") (-5) 0 0]
  /\ (2 <= 100)%nat /\ (2 <= 3)%nat.
Proof.
  apply (ranked_sorted_and_capped
           [ VDict [("name", VStr "a 1080p"); ("info_hash", VStr "A"); ("seeders", VStr "-5")];
             VDict [("name", VStr "no hash 1080p")];
             VDict [("name", VStr "b 1080p"); ("info_hash", VStr "B"); ("seeders", VFloat (FFin false 7 0))] ]
           "1080").
  reflexivity.
Defined.

(** ** Magnet links *)

Lemma btih_split (xt : string) :
  startswith xt "urn:btih:" = true ->
  exists rest, xt = btih_urn rest /\ split_max_last ":" 2 xt = rest.
Proof.
  unfold startswith. destruct (strip_prefix "urn:btih:" xt) as [rest|] eqn:P; [|discriminate].
  intros _. apply strip_prefix_sound in P. exists rest. subst xt. split; reflexivity.
Qed.

Lemma first_btih_some (xts : list string) (h : string) :
  first_btih xts = Some h <->
  exists before after,
    xts = (before ++ btih_urn h :: after)%list /\
    Forall (fun xt => startswith xt "urn:btih:" = false) before.
Proof.
  split.
  - induction xts as [|xt xts IH]; cbn [first_btih]; [discriminate|].
    destruct (startswith xt "urn:btih:") eqn:S.
    + destruct (btih_split xt S) as (rest & -> & ->). intros [= ->].
      exists [], xts. split; [reflexivity|constructor].
    + intros F. destruct (IH F) as (before & after & -> & B).
      exists (xt :: before), after. split; [reflexivity|now constructor].
  - intros (before & after & -> & B).
    induction B as [|xt before S B IH]; cbn [app first_btih].
    + reflexivity.
    + now rewrite S.
Qed.

(** X11. [parse_btih_from_magnet] returns [h] exactly when the text
    starts with [magnet:?] and the first [xt] value of its query that
    starts with [urn:btih:] is [urn:btih:] followed by [h]: the result is
    everything after that prefix, further colons included, and may be
    empty. *)
Theorem btih_is_what_follows_the_prefix (magnet h : string) :
  parse_btih_from_magnet magnet = Some h <->
  startswith magnet "magnet:?" = true /\
  exists before after,
    qs_values "xt" (url_query magnet) = (before ++ btih_urn h :: after)%list /\
    Forall (fun xt => startswith xt "urn:btih:" = false) before.
Proof.
  unfold parse_btih_from_magnet.
  destruct (startswith magnet "magnet:?"); cbn [negb].
  - rewrite first_btih_some. tauto.
  - split; [discriminate|]. intros [D _]. discriminate D.
Qed.

Lemma percent_char_query (c : ascii) : all_chars query_char (percent_char c).
Proof. each_char c; vm_compute; reflexivity. Qed.

Lemma percent_encode_query (keep : ascii -> bool) (s : string) :
  (forall c, keep c = true -> query_char c = true) ->
  all_chars query_char (percent_encode keep s).
Proof.
  intros K. induction s as [|c s IH]; [reflexivity|].
  rewrite percent_encode_cons. apply all_chars_app. split; [|exact IH].
  destruct (keep c) eqn:E; [|apply percent_char_query].
  unfold all_chars. cbn. now rewrite (K c E).
Qed.

Lemma kept_with_space_query (c : ascii) :
  unreserved_or " " c = true -> query_char c = true.
Proof. each_char c; vm_compute; intros H; try discriminate H; reflexivity. Qed.

Lemma unreserved_query (h : string) :
  all_chars unreserved h -> all_chars query_char h.
Proof.
  apply all_chars_impl.
  intros c; each_char c; vm_compute; intros H; try discriminate H; reflexivity.
Qed.

Lemma unreserved_no_amp (h : string) :
  all_chars unreserved h -> all_chars (fun c => negb (Ascii.eqb c "&")) h.
Proof.
  apply all_chars_impl.
  intros c; each_char c; vm_compute; intros H; try discriminate H; reflexivity.
Qed.

Lemma unreserved_no_plus (h : string) :
  all_chars unreserved h ->
  all_chars (fun c => Ascii.eqb (if Ascii.eqb c "+" then " "%char else c) c) h.
Proof.
  apply all_chars_impl.
  intros c; each_char c; vm_compute; intros H; try discriminate H; reflexivity.
Qed.

Lemma unreserved_plain (h : string) :
  all_chars unreserved h ->
  all_chars (fun c => (code c <? 128) && negb (Ascii.eqb c "%")) h.
Proof.
  apply all_chars_impl.
  intros c; each_char c; vm_compute; intros H; try discriminate H; reflexivity.
Qed.

Lemma query_char_no_hash (s : string) :
  all_chars query_char s -> all_chars (fun c => negb (Ascii.eqb c "#")) s.
Proof.
  apply all_chars_impl.
  intros c; each_char c; vm_compute; intros H; try discriminate H; reflexivity.
Qed.

Lemma query_char_no_blank (s : string) :
  all_chars query_char s ->
  all_chars (fun c => negb ((code c =? 9) || (code c =? 10) || (code c =? 13))) s.
Proof.
  apply all_chars_impl.
  intros c; each_char c; vm_compute; intros H; try discriminate H; reflexivity.
Qed.

(** The first field of [s.split(sep)]. *)
Lemma split_on_cons (sep : ascii) (a b : string) :
  all_chars (fun c => negb (Ascii.eqb c sep)) a ->
  split_on sep (a ++ String sep b) = a :: split_on sep b.
Proof.
  intros Ha. unfold split_on.
  rewrite split_on_aux_run by exact Ha.
  cbn [split_on_aux]. rewrite Ascii.eqb_refl.
  unfold string_rev. now rewrite string_rev_onto_rev.
Qed.

(** The extractor finds the hash of unreserved characters that a magnet
    link carries in front of its other fields. *)
Lemma btih_after_prefix (info_hash tail : string) :
  all_chars unreserved info_hash -> all_chars query_char tail ->
  parse_btih_from_magnet ("magnet:?xt=urn:btih:" ++ info_hash ++ String "&" tail)
  = Some info_hash.
Proof.
  intros H T.
  unfold parse_btih_from_magnet.
  change (startswith ("magnet:?xt=urn:btih:" ++ info_hash ++ String "&" tail) "magnet:?")
    with true.
  cbn [negb].
  assert (Q : all_chars query_char (info_hash ++ String "&" tail)).
  { apply all_chars_app; split; [now apply unreserved_query|].
    change (String "&" tail) with ("&" ++ tail).
    apply all_chars_app; split; [reflexivity|exact T]. }
  assert (U : url_query ("magnet:?xt=urn:btih:" ++ info_hash ++ String "&" tail)
              = ("xt=urn:btih:" ++ info_hash) ++ String "&" tail).
  { unfold url_query.
    rewrite string_filter_all
      by (apply query_char_no_blank, all_chars_app; split; [reflexivity|exact Q]).
    change ("magnet:?xt=urn:btih:" ++ info_hash ++ String "&" tail)
      with ("magnet" ++ String ":" ("?xt=urn:btih:" ++ info_hash ++ String "&" tail)).
    rewrite split_first_app by reflexivity.
    rewrite (split_first_none "#" ("?xt=urn:btih:" ++ info_hash ++ String "&" tail))
      by (apply query_char_no_hash, all_chars_app; split; [reflexivity|exact Q]).
    change ("?xt=urn:btih:" ++ info_hash ++ String "&" tail)
      with ("" ++ String "?" ("xt=urn:btih:" ++ info_hash ++ String "&" tail)).
    rewrite split_first_app by reflexivity.
    now rewrite append_assoc. }
  rewrite U. unfold qs_values, parse_qsl.
  rewrite split_on_cons
    by (apply all_chars_app; split; [reflexivity|now apply unreserved_no_amp]).
  cbn [flat_map].
  change ("xt=urn:btih:" ++ info_hash) with ("xt" ++ String "=" ("urn:btih:" ++ info_hash)).
  rewrite split_first_app by reflexivity.
  change (is_empty ("urn:btih:" ++ info_hash)) with false. cbv iota.
  unfold plus_to_space.
  rewrite (string_map_id _ ("urn:btih:" ++ info_hash))
    by (apply all_chars_app; split; [reflexivity|now apply unreserved_no_plus]).
  rewrite (unquote_plain ("urn:btih:" ++ info_hash))
    by (apply all_chars_app; split; [reflexivity|now apply unreserved_plain]).
  change (string_map _ "xt") with "xt". change (unquote "xt") with "xt".
  cbn [app filter fst String.eqb Ascii.eqb Bool.eqb map snd first_btih].
  change (startswith ("urn:btih:" ++ info_hash) "urn:btih:") with true. cbv iota.
  reflexivity.
Qed.

Lemma percent_encode_all (P keep : ascii -> bool) (s : string) :
  (forall c, keep c = true -> P c = true) ->
  (forall c, all_chars P (percent_char c)) ->
  all_chars P (percent_encode keep s).
Proof.
  intros K E. induction s as [|c s IH]; [reflexivity|].
  rewrite percent_encode_cons. apply all_chars_app. split; [|exact IH].
  destruct (keep c) eqn:Kc; [|apply E].
  unfold all_chars. cbn. now rewrite (K c Kc).
Qed.

Lemma hex_of_percent_byte (b : ascii) :
  hex_value (hex_upper (code b / 16)) = Some (code b / 16) /\
  hex_value (hex_upper (code b mod 16)) = Some (code b mod 16) /\
  16 * (code b / 16) + code b mod 16 = code b.
Proof. each_char b; vm_compute; auto. Qed.

(** [unquote] reads [%XX] back as the byte it stands for. *)
Lemma unquote_percent_byte (b : ascii) (rest : string) (pending : list Z) :
  unquote_aux (percent_byte b ++ rest) pending = unquote_aux rest (code b :: pending).
Proof.
  destruct (hex_of_percent_byte b) as (H1 & H2 & E).
  unfold percent_byte. cbn [append unquote_aux].
  change (Ascii.eqb "%" "%") with true. cbv iota.
  now rewrite H1, H2, E.
Qed.

(** The UTF-8 bytes of a string, as numbers. *)
Lemma unquote_percent_encode_aux (keep : ascii -> bool) (s rest : string)
    (pending : list Z) :
  (forall c, keep c = true -> (code c <? 128) = true /\ Ascii.eqb c "%" = false) ->
  unquote_aux (percent_encode keep s ++ rest) pending
  = unquote_aux rest (rev (map code (list_ascii_of_string (utf8_encode s))) ++ pending).
Proof.
  intros K. revert pending. induction s as [|c s IH]; intros pending; [reflexivity|].
  rewrite percent_encode_cons, utf8_encode_cons, append_assoc.
  destruct (keep c) eqn:Kc.
  - destruct (K c Kc) as [A P]. rewrite A.
    cbn [append unquote_aux]. rewrite P, A, IH.
    cbn [list_ascii_of_string map rev]. now rewrite <- app_assoc.
  - unfold percent_char. destruct (code c <? 128).
    + rewrite unquote_percent_byte, IH.
      cbn [list_ascii_of_string map rev]. now rewrite <- app_assoc.
    + rewrite append_assoc, !unquote_percent_byte, IH.
      cbn [list_ascii_of_string map rev]. now rewrite <- !app_assoc.
Qed.

Lemma utf8_decode_char (c : ascii) (bs : list Z) :
  utf8_decode (map code (list_ascii_of_string (utf8_encode (String c ""))) ++ bs) None
  = code c :: utf8_decode bs None.
Proof. each_char c; reflexivity. Qed.

Lemma utf8_encode_app (a b : string) :
  utf8_encode (a ++ b) = utf8_encode a ++ utf8_encode b.
Proof.
  induction a as [|c a IH]; [reflexivity|].
  cbn [append]. rewrite !utf8_encode_cons, IH.
  destruct (code c <? 128); reflexivity.
Qed.

Lemma list_ascii_app (a b : string) :
  list_ascii_of_string (a ++ b) = (list_ascii_of_string a ++ list_ascii_of_string b)%list.
Proof. induction a as [|c a IH]; cbn; [reflexivity|now rewrite IH]. Qed.

(** Decoding the UTF-8 bytes of a string gives its code points back. *)
Lemma utf8_decode_encode (s : string) :
  utf8_decode (map code (list_ascii_of_string (utf8_encode s))) None
  = map code (list_ascii_of_string s).
Proof.
  induction s as [|c s IH]; [reflexivity|].
  change (String c s) with (String c "" ++ s) at 1.
  rewrite utf8_encode_app, list_ascii_app, map_app, utf8_decode_char, IH.
  reflexivity.
Qed.

(** [unquote] undoes a percent-encoding that keeps only ASCII characters
    other than the percent sign. *)
Lemma unquote_percent_encode (keep : ascii -> bool) (s : string) :
  (forall c, keep c = true -> (code c <? 128) = true /\ Ascii.eqb c "%" = false) ->
  unquote (percent_encode keep s) = s.
Proof.
  intros K. unfold unquote.
  rewrite <- (append_nil_r (percent_encode keep s)).
  rewrite (unquote_percent_encode_aux keep s "" [] K).
  cbn [unquote_aux]. unfold flush_bytes.
  rewrite app_nil_r, rev_involutive, utf8_decode_encode.
  apply string_of_codes.
Qed.

Lemma kept_with_space (c : ascii) :
  unreserved_or " " c = true ->
  ((code c <? 128) = true /\ Ascii.eqb c "%" = false) /\
  (negb (Ascii.eqb c "&") = true /\ negb (Ascii.eqb c "=") = true /\
   Ascii.eqb (if Ascii.eqb c "+" then " "%char else c) c = true).
Proof. each_char c; vm_compute; intros H; try discriminate H; auto. Qed.

Lemma percent_char_fields (c : ascii) :
  all_chars (fun c => negb (Ascii.eqb c "&")) (percent_char c) /\
  all_chars (fun c => negb (Ascii.eqb c "=")) (percent_char c) /\
  all_chars (fun c => Ascii.eqb (if Ascii.eqb c "+" then " "%char else c) c)
            (percent_char c).
Proof. each_char c; vm_compute; auto. Qed.

Lemma percent_encode_not_empty (keep : ascii -> bool) (s : string) :
  s <> "" -> is_empty (percent_encode keep s) = false.
Proof.
  destruct s as [|c s]; [congruence|]. intros _.
  rewrite percent_encode_cons.
  destruct (keep c); [reflexivity|].
  unfold percent_char, percent_byte. destruct (code c <? 128); reflexivity.
Qed.

(** X13. A built magnet link reads back as its parts: for a hash of
    unreserved characters and a display name that is not empty and whose
    characters are all below U+0100, the query fields of
    [build_magnet info_hash name], decoded, are the [xt] value of the
    hash, the name itself character for character, and the trackers of
    the fixed list, in this order. *)
Theorem built_magnet_reads_back (info_hash name : string) :
  all_chars unreserved info_hash -> name <> "" ->
  parse_qsl (url_query (build_magnet info_hash name))
  = ("xt", btih_urn info_hash) :: ("dn", name) :: map (fun tr => ("tr", tr)) TRACKERS.
Proof.
  intros H N.
  set (dn := percent_encode (unreserved_or " ") name).
  set (trackers := join "&" (map (fun tr => "tr=" ++ quote tr "/") TRACKERS)).
  assert (B : build_magnet info_hash name
              = "magnet:?xt=urn:btih:" ++ info_hash ++ String "&" ("dn=" ++ dn ++ String "&" trackers)).
  { unfold build_magnet. rewrite quote_keeping_space. reflexivity. }
  assert (Dq : all_chars query_char dn)
    by (apply percent_encode_query, kept_with_space_query).
  assert (T : all_chars query_char ("dn=" ++ dn ++ String "&" trackers)).
  { apply all_chars_app; split; [reflexivity|].
    apply all_chars_app; split; [exact Dq|vm_compute; reflexivity]. }
  assert (Q : all_chars query_char (info_hash ++ String "&" ("dn=" ++ dn ++ String "&" trackers))).
  { apply all_chars_app; split; [now apply unreserved_query|].
    change (String "&" ?t) with ("&" ++ t).
    apply all_chars_app; split; [reflexivity|exact T]. }
  rewrite B.
  assert (U : url_query ("magnet:?xt=urn:btih:" ++ info_hash
                         ++ String "&" ("dn=" ++ dn ++ String "&" trackers))
              = ("xt=urn:btih:" ++ info_hash)
                ++ String "&" (("dn=" ++ dn) ++ String "&" trackers)).
  { unfold url_query.
    rewrite string_filter_all
      by (apply query_char_no_blank, all_chars_app; split; [reflexivity|exact Q]).
    change ("magnet:?xt=urn:btih:" ++ ?r) with ("magnet" ++ String ":" ("?xt=urn:btih:" ++ r)).
    rewrite split_first_app by reflexivity.
    rewrite (split_first_none "#"
               ("?xt=urn:btih:" ++ info_hash ++ String "&" ("dn=" ++ dn ++ String "&" trackers)))
      by (apply query_char_no_hash, all_chars_app; split; [reflexivity|exact Q]).
    change ("?xt=urn:btih:" ++ ?r) with ("" ++ String "?" ("xt=urn:btih:" ++ r)).
    rewrite split_first_app by reflexivity.
    now rewrite !append_assoc. }
  rewrite U. clear U B Q T Dq. unfold parse_qsl.
  rewrite split_on_cons
    by (apply all_chars_app; split; [reflexivity|now apply unreserved_no_amp]).
  rewrite split_on_cons.
  2:{ apply all_chars_app; split; [reflexivity|].
      apply percent_encode_all; [intros c K; apply (kept_with_space c K)|].
      intros c; apply (percent_char_fields c). }
  cbn [flat_map].
  (* the xt field *)
  change ("xt=urn:btih:" ++ info_hash) with ("xt" ++ String "=" ("urn:btih:" ++ info_hash)).
  rewrite split_first_app by reflexivity.
  change (is_empty ("urn:btih:" ++ info_hash)) with false. cbv iota.
  unfold plus_to_space.
  rewrite (string_map_id _ ("urn:btih:" ++ info_hash))
    by (apply all_chars_app; split; [reflexivity|now apply unreserved_no_plus]).
  rewrite (unquote_plain ("urn:btih:" ++ info_hash))
    by (apply all_chars_app; split; [reflexivity|now apply unreserved_plain]).
  change (string_map _ "xt") with "xt". change (unquote "xt") with "xt".
  (* the dn field *)
  change ("dn=" ++ dn) with ("dn" ++ String "=" dn).
  rewrite split_first_app by reflexivity.
  unfold dn at 1. rewrite (percent_encode_not_empty _ name N).
  rewrite (string_map_id _ dn).
  2:{ apply percent_encode_all; [intros c K; apply (kept_with_space c K)|].
      intros c; apply (percent_char_fields c). }
  unfold dn. rewrite unquote_percent_encode by (intros c K; apply (kept_with_space c K)).
  change (string_map _ "dn") with "dn". change (unquote "dn") with "dn".
  (* the trackers *)
  cbn [app]. do 2 f_equal.
Qed.

Lemma built_magnet_reads_back_witness :
  parse_qsl (url_query (build_magnet "c12fe1c06bba254a9dc9f519b335aa7c1367a88a"
                                     "Big & Buck #1 = 100%?"))
  = ("xt", btih_urn "c12fe1c06bba254a9dc9f519b335aa7c1367a88a")
    :: ("dn", "Big & Buck #1 = 100%?") :: map (fun tr => ("tr", tr)) TRACKERS.
Proof.
  apply (built_magnet_reads_back "c12fe1c06bba254a9dc9f519b335aa7c1367a88a"
           "Big & Buck #1 = 100%?").
  - reflexivity.
  - discriminate.
Defined.

(** ** The fetchers, request by request *)

Lemma int_of_str_raises_value_error (s : string) (e : exn) :
  int_of_str s = Raise e -> exn_cls e = ValueError.
Proof.
  unfold int_of_str. destruct (strip_with int_isspace s) as [|c r]; [now intros [= <-]|].
  destruct (Ascii.eqb c "-"); [|destruct (Ascii.eqb c "+")];
    match goal with
    | |- context [int_body_ok ?b false] => destruct (int_body_ok b false)
    end;
    try (now intros [= <-]);
    match goal with
    | |- context [int_max_str_digits <? ?n] => destruct (int_max_str_digits <? n)
    end;
    try (now intros [= <-]); discriminate.
Qed.

Lemma size_raises_overflow (text : string) (e : exn) :
  parse_size_bytes text = Raise e -> exn_cls e = OverflowError.
Proof.
  destruct (size_of_match text) as [-> | [(p & q & Hp & Hq & ->) | ->]].
  - discriminate.
  - destruct (int_of_ratio p q Hp Hq) as [(z' & -> & Hz)|(msg & ->)];
      [discriminate|now intros [= <-]].
  - now intros [= <-].
Qed.

(** The three errors the parser can raise; none is a network error. *)
Lemma handle_raises (ev : event) (p : parser) (e : exn) :
  handle ev p = Raise e ->
  exn_cls e = AttributeError \/ exn_cls e = ValueError \/ exn_cls e = OverflowError.
Proof.
  destruct ev as [tag attrs|tag|data]; cbn [handle]; [| discriminate |].
  - unfold handle_starttag, when.
    destruct (String.eqb tag "tr"); [discriminate|].
    destruct (negb (in_tr p)); [discriminate|].
    destruct (String.eqb tag "a"); cbn [bind]; [|discriminate].
    destruct (attrs_get attrs "href") as [[href|]|]; cbn [bind];
      try destruct (startswith _ "magnet:?xt="); cbn [bind]; try discriminate.
    intros [= <-]. now left.
  - unfold handle_data.
    destruct (negb (in_tr p)); [discriminate|].
    destruct (is_empty (py_strip data)); [discriminate|].
    match goal with
    | |- context [when ?b ?f p] => generalize (when b f p)
    end.
    intros p1.
    destruct (in_det_desc p1); cbn [bind].
    + destruct (parse_size_bytes (py_strip data)) as [z|e'] eqn:P; cbn [bind].
      * match goal with
        | |- context [when ?b ?f p1] => generalize (when b f p1)
        end.
        intros p2.
        destruct (in_align_right p2 && py_isdigit (py_strip data)); [|discriminate].
        destruct (int_of_str (py_strip data)) as [v|e'] eqn:I; cbn [bind]; [discriminate|].
        intros [= <-]. right; left. now apply (int_of_str_raises_value_error (py_strip data)).
      * intros [= <-]. right; right. now apply (size_raises_overflow (py_strip data)).
    + destruct (in_align_right p1 && py_isdigit (py_strip data)); [|discriminate].
      destruct (int_of_str (py_strip data)) as [v|e'] eqn:I; cbn [bind]; [discriminate|].
      intros [= <-]. right; left. now apply (int_of_str_raises_value_error (py_strip data)).
Qed.

Lemma feed_raises (evs : list event) (p : parser) (e : exn) :
  feed evs p = Raise e -> is_network_error e = false.
Proof.
  revert p; induction evs as [|ev evs IH]; intros p; cbn [feed]; [discriminate|].
  destruct (handle ev p) as [p1|e1] eqn:H; cbn [bind]; [apply IH|].
  intros [= <-]. apply handle_raises in H. unfold is_network_error.
  destruct H as [-> | [-> | ->]]; reflexivity.
Qed.

Lemma category_chars (key : string) (cats : list string) :
  assoc key CATEGORY_SETS = Some cats ->
  Forall (all_chars url_char) cats /\ (length cats <= 3)%nat.
Proof.
  unfold CATEGORY_SETS. cbn [assoc].
  destruct (String.eqb key "movies_hd"); [|destruct (String.eqb key "shows_hd");
    [|destruct (String.eqb key "all_video"); [|discriminate]]];
    intros [= <-]; split; try (repeat constructor); cbn; lia.
Qed.

Lemma kept_with_slash_url (c : ascii) : unreserved_or "/" c = true -> url_char c = true.
Proof. each_char c; vm_compute; intros H; try discriminate H; reflexivity. Qed.

Lemma percent_char_url (c : ascii) : all_chars url_char (percent_char c).
Proof. each_char c; vm_compute; reflexivity. Qed.

(** The encoded query is made of printable characters, whatever the
    query. *)
Lemma quoted_query_url (query : string) : all_chars url_char (quote query "/").
Proof.
  rewrite quote_keeping_slash.
  apply percent_encode_all; [apply kept_with_slash_url|apply percent_char_url].
Qed.

Lemma api_requests_well_formed (query : string) (cats : list string) :
  Forall (all_chars url_char) cats ->
  Forall well_formed_request (requests_of API_ENDPOINTS 8 query cats).
Proof.
  intros C. unfold requests_of, API_ENDPOINTS. cbn [flat_map].
  pose proof (quoted_query_url query) as Q.
  rewrite !Forall_app. repeat split; try constructor;
    apply Forall_map; (eapply Forall_impl; [|exact C]); intros cat Hc;
    (split; [|split; [reflexivity|now left]]); cbn [req_url];
    (apply all_chars_app; split; [reflexivity|]);
    (apply all_chars_app; split; [exact Q|]);
    (apply all_chars_app; split; [reflexivity|exact Hc]).
Qed.

Lemma html_requests_well_formed (query : string) (cats : list string) :
  Forall (all_chars url_char) cats ->
  Forall well_formed_request (requests_of HTML_ENDPOINTS 10 query cats).
Proof.
  intros C. unfold requests_of, HTML_ENDPOINTS. cbn [flat_map].
  pose proof (quoted_query_url query) as Q.
  rewrite !Forall_app. repeat split; try constructor;
    apply Forall_map; (eapply Forall_impl; [|exact C]); intros cat Hc;
    (split; [|split; [reflexivity|now right]]); cbn [req_url];
    (apply all_chars_app; split; [reflexivity|]);
    (apply all_chars_app; split; [exact Q|]);
    (apply all_chars_app; split; [reflexivity|exact Hc]).
Qed.

Lemma requests_of_length (endpoints : list (string -> string -> string)) (timeout : Z)
    (query : string) (cats : list string) :
  length (requests_of endpoints timeout query cats) = (length endpoints * length cats)%nat.
Proof.
  unfold requests_of. induction endpoints as [|ep eps IH]; cbn [flat_map length]; [reflexivity|].
  rewrite length_app, length_map, IH. cbn. lia.
Qed.

Lemma Forall_firstn (A : Type) (P : A -> Prop) (n : nat) (l : list A) :
  Forall P l -> Forall P (firstn n l).
Proof.
  intros F. rewrite Forall_forall in *. intros x I. apply F. now apply (in_firstn _ n).
Qed.

Lemma Forall_of_map_fst (P : request -> Prop) (new : trace) :
  Forall P (map fst new) -> Forall (fun en => P (fst en)) new.
Proof. intros F. rewrite Forall_forall in *. intros en I. apply F. now apply in_map. Qed.

Section RequestProperties.

Variable urlopen : trace -> request -> response.
Variable json_loads : string -> result pyval.
Variable tokenize : string -> tokens.

(** The requests one scan adds to the trace. *)
Lemma scan_trace (outcome : response -> attempt) (reqs : list request)
    (last : option exn) (tr : trace) :
  exists new,
    snd (scan urlopen outcome reqs last tr) = (tr ++ new)%list /\
    map fst new = firstn (length new) reqs.
Proof.
  destruct (scan_spec urlopen outcome reqs last tr) as (new & E & _ & R & _).
  exists new. now rewrite E.
Qed.

Lemma fetch_html_results_trace (query key : string) (cats : list string) (tr : trace) :
  assoc key CATEGORY_SETS = Some cats ->
  exists new,
    snd (fetch_html_results urlopen tokenize query key tr) = (tr ++ new)%list /\
    map fst new = firstn (length new) (requests_of HTML_ENDPOINTS 10 query cats).
Proof.
  intros K. unfold fetch_html_results. rewrite K, html_endpoints_scan.
  destruct (scan_trace (html_outcome tokenize recorded_by_html)
              (requests_of HTML_ENDPOINTS 10 query cats) None tr) as (new & E & R).
  exists new. split; [|exact R]. rewrite <- E.
  destruct (scan urlopen (html_outcome tokenize recorded_by_html) _ None tr) as [[rows|[e|]|e] t];
    reflexivity.
Qed.

Lemma fetch_results_trace (query key : string) (cats : list string) (tr : trace) :
  assoc key CATEGORY_SETS = Some cats ->
  exists jn hn,
    snd (fetch_results urlopen json_loads tokenize query key tr) = (tr ++ jn ++ hn)%list /\
    map fst jn = firstn (length jn) (requests_of API_ENDPOINTS 8 query cats) /\
    map fst hn = firstn (length hn) (requests_of HTML_ENDPOINTS 10 query cats).
Proof.
  intros K. unfold fetch_results. rewrite K, json_endpoints_scan.
  destruct (scan_trace (json_outcome json_loads recorded_by_json)
              (requests_of API_ENDPOINTS 8 query cats) None tr) as (jn & E & R).
  destruct (scan urlopen (json_outcome json_loads recorded_by_json) _ None tr) as [[data|last|e] t];
    cbn [snd] in E; subst t.
  - exists jn, []. rewrite app_nil_r. repeat split; auto.
  - destruct (fetch_html_results_trace query key cats (tr ++ jn)%list K) as (hn & Eh & Rh).
    exists jn, hn. rewrite app_assoc, <- Eh. split; [|split; assumption].
    destruct (fetch_html_results urlopen tokenize query key (tr ++ jn)%list)
      as [[[|r rs]|e] t]; [destruct last| |]; reflexivity.
  - exists jn, []. rewrite app_nil_r. repeat split; auto.
Qed.

(** X14. Whatever the query and the category key, every request of
    [fetch_results] carries a URL of printable ASCII characters without
    a space (the query is percent-encoded), the [User-Agent] header, and
    the timeout 8 or 10; there are at most 18 of them, added to the end
    of the trace. *)
Theorem requests_are_well_formed (query key : string) (tr : trace) :
  exists new,
    snd (fetch_results urlopen json_loads tokenize query key tr) = (tr ++ new)%list /\
    (length new <= 18)%nat /\
    Forall (fun en => well_formed_request (fst en)) new.
Proof.
  destruct (assoc key CATEGORY_SETS) as [cats|] eqn:K.
  - destruct (fetch_results_trace query key cats tr K) as (jn & hn & E & Rj & Rh).
    destruct (category_chars key cats K) as [C L].
    exists (jn ++ hn)%list. split; [exact E|].
    pose proof (f_equal (@length _) Rj) as Lj.
    pose proof (f_equal (@length _) Rh) as Lh.
    rewrite length_map, length_firstn, requests_of_length in Lj, Lh.
    cbn [length API_ENDPOINTS HTML_ENDPOINTS] in Lj, Lh.
    split; [rewrite length_app; lia|].
    apply Forall_app; split; apply Forall_of_map_fst.
    + rewrite Rj. now apply Forall_firstn, api_requests_well_formed.
    + rewrite Rh. now apply Forall_firstn, html_requests_well_formed.
  - exists []. unfold fetch_results. rewrite K. cbn. rewrite app_nil_r.
    repeat split; [lia|constructor].
Qed.

(** The end of a scan that goes through all its requests. *)
Lemma scan_exhausted (outcome : response -> attempt) (reqs : list request)
    (last last' : option exn) (tr tr' : trace) :
  scan urlopen outcome reqs last tr = (Exhausted last', tr') ->
  exists new,
    tr' = (tr ++ new)%list /\ map fst new = reqs /\ answered urlopen tr new /\
    Forall (fun en => quiet (outcome (snd en))) new /\
    last' = last_recorded (map (fun en => outcome (snd en)) new) last.
Proof.
  revert last tr; induction reqs as [|rq reqs IH]; intros last tr; cbn [scan].
  - intros [= <- <-]. exists []. rewrite app_nil_r. repeat split; constructor.
  - destruct (outcome (urlopen tr rq)) as [data| |e|e] eqn:O; try discriminate;
      intros S; apply IH in S as (new & -> & R & A & Q & ->);
      exists ((rq, urlopen tr rq) :: new); rewrite <- app_assoc;
      cbn [app map fst snd answered last_recorded]; rewrite O, R;
      repeat split; auto; constructor; auto; cbn [snd]; now rewrite O.
Qed.

Lemma quiet_unrecorded (outs : list attempt) (last : option exn) :
  Forall quiet outs -> last_recorded outs last = None ->
  last = None /\ Forall (fun a => a = Empty) outs.
Proof.
  intros Q. revert last. induction Q as [|a outs Ha _ IH]; intros last; cbn [last_recorded].
  - auto.
  - destruct a as [data| |e|e]; try contradiction; intros L; apply IH in L as [L F].
    + split; [exact L|]. now constructor.
    + discriminate L.
Qed.

Lemma html_return_not_empty (reqs : list request) (last : option exn) (tr tr' : trace) :
  scan urlopen (html_outcome tokenize recorded_by_html) reqs last tr <> (Return [], tr').
Proof.
  revert last tr; induction reqs as [|rq reqs IH]; intros last tr; cbn [scan];
    [discriminate|].
  destruct (html_outcome tokenize recorded_by_html (urlopen tr rq)) as [data| |e|e] eqn:O;
    try apply IH; try discriminate.
  intros [= -> _]. unfold html_outcome, failed in O.
  destruct (urlopen tr rq) as [html|e]; [|destruct (recorded_by_html e); discriminate].
  destruct (feed_tokens (tokenize html) new_parser) as [p|e];
    [|destruct (recorded_by_html e); discriminate].
  destruct (rows p); discriminate.
Qed.

Lemma html_empty_outcome (rs : response) :
  html_outcome tokenize recorded_by_html rs = Empty -> clean_empty_page tokenize rs.
Proof.
  unfold html_outcome, failed, clean_empty_page.
  destruct rs as [html|e]; [|destruct (recorded_by_html e); discriminate].
  destruct (feed_tokens (tokenize html) new_parser) as [p|e] eqn:F;
    [|destruct (recorded_by_html e); discriminate].
  destruct (rows p) eqn:R; [|discriminate].
  intros _. exists html, p. auto.
Qed.

(** X15. When [fetch_html_results] returns the empty list, it has
    requested every page, endpoint after endpoint and category after
    category, and every one of them arrived and was read by the parser
    to its end, without error, with no row found: a page that fails is
    never passed over in silence. *)
Theorem html_fetch_empty_means_all_pages_empty (query key : string) (tr tr' : trace) :
  fetch_html_results urlopen tokenize query key tr = (Ok [], tr') ->
  exists cats new,
    assoc key CATEGORY_SETS = Some cats /\
    tr' = (tr ++ new)%list /\
    map fst new = requests_of HTML_ENDPOINTS 10 query cats /\
    answered urlopen tr new /\
    Forall (fun en => clean_empty_page tokenize (snd en)) new.
Proof.
  unfold fetch_html_results.
  destruct (assoc key CATEGORY_SETS) as [cats|]; [|discriminate].
  rewrite html_endpoints_scan.
  destruct (scan urlopen (html_outcome tokenize recorded_by_html) _ None tr)
    as [[found|[e|]|e] t] eqn:S; try discriminate.
  - intros [= -> ->]. now apply html_return_not_empty in S.
  - intros [= <-]. apply scan_exhausted in S as (new & -> & R & A & Q & L).
    exists cats, new. repeat split; auto.
    symmetry in L.
    apply quiet_unrecorded in L as [_ F]; [|now apply Forall_map].
    apply Forall_map in F. eapply Forall_impl; [|exact F].
    intros en. apply html_empty_outcome.
Qed.

(** X16. A page the parser cannot read is not a failed mirror: when the
    first page arrives and the parser raises on it, [fetch_html_results]
    raises that very exception after this single request, and tries no
    other category or endpoint. *)
Theorem parser_error_ends_html_fetch (query key cat : string) (cats : list string)
    (tr : trace) (html : string) (e : exn) :
  assoc key CATEGORY_SETS = Some (cat :: cats) ->
  let rq := mkRequest ("https://thepiratebay.org/search/" ++ quote query "/"
                       ++ "/1/99/" ++ cat) user_agent 10 in
  urlopen tr rq = Ok html ->
  feed (calls (tokenize html)) new_parser = Raise e ->
  fetch_html_results urlopen tokenize query key tr
  = (Raise e, (tr ++ [(rq, Ok html)])%list).
Proof.
  intros K rq U F. unfold fetch_html_results. rewrite K.
  unfold HTML_ENDPOINTS. cbn [html_endpoints html_cats]. fold rq.
  rewrite U. unfold html_attempt, feed_tokens. cbn [bind]. rewrite F. cbn [bind].
  now rewrite (feed_raises _ _ _ F).
Qed.

End RequestProperties.

Lemma html_fetch_empty_means_all_pages_empty_witness :
  exists cats new,
    assoc "all_video" CATEGORY_SETS = Some cats /\
    snd (fetch_html_results (fun _ _ => Ok "") example_tokenize
                            "big buck bunny" "all_video" [])
    = ([] ++ new)%list /\
    map fst new = requests_of HTML_ENDPOINTS 10 "big buck bunny" cats /\
    answered (fun _ _ => Ok "") [] new /\
    Forall (fun en => clean_empty_page example_tokenize (snd en)) new.
Proof.
  apply (html_fetch_empty_means_all_pages_empty
           (fun _ _ => Ok "") example_tokenize "big buck bunny" "all_video" []).
  reflexivity.
Defined.

Lemma parser_error_ends_html_fetch_witness :
  fetch_html_results (fun _ _ => Ok "<tr><a href>")
                     (fun _ => mkTokens bare_href_events None)
                     "big buck bunny" "movies_hd" []
  = (Raise (mkExn AttributeError "'NoneType' object has no attribute 'startswith'"),
     [(mkRequest "https://thepiratebay.org/search/big%20buck%20bunny/1/99/207"
                 user_agent 10,
       Ok "<tr><a href>")]).
Proof.
  apply (parser_error_ends_html_fetch
           (fun _ _ => Ok "<tr><a href>") (fun _ => mkTokens bare_href_events None)
           "big buck bunny" "movies_hd" "207" ["201"; "200"] [] "<tr><a href>").
  - reflexivity.
  - reflexivity.
  - reflexivity.
Defined.

(** ** From the listing to the display *)

(** X17. A size listed as a whole number from 1 to 1023 with a unit of
    the table comes back on display: [human_size] of what
    [parse_size_bytes] reads in "Size 700 MiB" is the same number with
    one decimal, [.0], and the unit of that magnitude in its display
    spelling (B, KB, MB, GB, TB). *)
Theorem listed_size_is_displayed (ip spaces : string) (c : ascii) (u rest : string)
    (k : Z) :
  ip <> "" -> all_chars is_ascii_digit ip -> 0 < digits_value ip < 1024 ->
  all_chars py_isspace spaces ->
  all_chars is_ascii_alpha (String c u) -> head_not is_ascii_alpha rest ->
  0 <= k <= 4 -> assoc (py_lower (String c u)) size_scale = Some (1024 ^ k) ->
  (do n <- parse_size_bytes ("Size " ++ ip ++ spaces ++ String c u ++ rest);
   human_size n)
  = Ok (decimal (digits_value ip) ++ ".0 " ++ nth (Z.to_nat k) size_unit_names "").
Proof.
  intros N H B Hs Hu Hr Hk A.
  assert (P : 0 < 1024 ^ k) by (apply Z.pow_pos_nonneg; lia).
  assert (P1 : 1024 ^ (k + 1) = 1024 ^ k * 1024)
    by (rewrite Z.pow_add_r by lia; reflexivity).
  assert (P5 : 1024 ^ k <= 1024 ^ 4) by (apply Z.pow_le_mono_r; lia).
  unfold parse_size_bytes.
  rewrite (size_search_canonical ip spaces c u rest); auto; [|exists ip; auto].
  unfold dict_get. rewrite A.
  pose proof (scaled_size_exact ip k N H ltac:(lia) Hk) as S.
  unfold scaled_size in S. rewrite S. cbn [bind].
  assert (B53 : digits_value ip * 1024 ^ k < 2 ^ 53)
    by (change (2 ^ 53) with (8192 * 1024 ^ 4); nia).
  rewrite (human_size_positive (digits_value ip * 1024 ^ k) k) by nia.
  replace (10 * (digits_value ip * 1024 ^ k))
    with (10 * digits_value ip * 1024 ^ k) by ring.
  rewrite round_half_even_exact by lia.
  rewrite tenths_whole. now rewrite !append_assoc.
Qed.

Lemma listed_size_is_displayed_witness :
  (do n <- parse_size_bytes ("Size " ++ "700" ++ " " ++ "MiB" ++ ", ULed by x");
   human_size n)
  = Ok "700.0 MB".
Proof.
  apply (listed_size_is_displayed "700" " " "M" "iB" ", ULed by x" 2).
  - discriminate.
  - reflexivity.
  - change (digits_value "700") with 700. lia.
  - reflexivity.
  - reflexivity.
  - reflexivity.
  - lia.
  - reflexivity.
Defined.

(** ** The names of the rows *)










Lemma parser_rows_bounded_by_row_tags_witness :
  (1 <= count_events opens_row example_row_events)%nat /\
  (1 <= count_events closes_row example_row_events)%nat.
Proof.
  apply (parser_rows_bounded_by_row_tags example_row_events
           (mkParser [make_row "Example.Movie.1080p" hash_A40 120 5 (2 * 1024 ^ 3)]
                     false false false false false [] fresh_current)).
  reflexivity.
Defined.

(** ** Sizes that cannot overflow *)

Lemma floor_log2_ratio_below (p q N : Z) :
  0 < p -> 0 < q -> 0 <= N -> p < q * 2 ^ N -> floor_log2_ratio p q < N.
Proof.
  intros Hp Hq HN B.
  destruct (Z.lt_ge_cases (floor_log2_ratio p q) N) as [|G]; [assumption|exfalso].
  assert (Lo : q * 2 ^ floor_log2_ratio p q <= p).
  { revert G. unfold floor_log2_ratio.
    pose proof (Z.log2_spec p Hp) as [Lp Up].
    pose proof (Z.log2_spec q Hq) as [Lq Uq].
    pose proof (Z.log2_nonneg p). pose proof (Z.log2_nonneg q).
    set (e0 := Z.log2 p - Z.log2 q).
    destruct (0 <=? e0) eqn:E0.
    - apply Z.leb_le in E0.
      destruct (q * 2 ^ e0 <=? p) eqn:A; intros G.
      + now apply Z.leb_le in A.
      + assert (P1 : 0 < 2 ^ (e0 - 1)) by (apply Z.pow_pos_nonneg; lia).
        assert (E : 2 ^ Z.succ (Z.log2 q) * 2 ^ (e0 - 1) = 2 ^ Z.log2 p).
        { rewrite <- Z.pow_add_r by lia. f_equal. unfold e0. lia. }
        nia.
    - apply Z.leb_gt in E0. destruct (q <=? p * 2 ^ (- e0)); intros G; lia. }
  assert (M : 2 ^ N <= 2 ^ floor_log2_ratio p q) by (apply Z.pow_le_mono_r; lia).
  nia.
Qed.

Lemma round_half_even_le (num den K : Z) :
  0 < den -> num < K * den -> round_half_even num den <= K.
Proof.
  intros Hd B. unfold round_half_even.
  assert (D : num / den < K) by (apply Z.div_lt_upper_bound; [lia|]; nia).
  destruct (2 * (num mod den) ?= den); [destruct (Z.even (num / den))| |]; lia.
Qed.

(** A ratio below [2^N], [N <= 1023], rounds to a finite float that is
    at most [2^N]. *)
Lemma round_ratio_below (p q N : Z) :
  0 <= p -> 0 < q -> 0 <= N <= 1023 -> p < q * 2 ^ N ->
  exists m e,
    round_ratio false p q = FFin false m e /\ 0 <= m /\
    (if 0 <=? e then m * 2 ^ e <= 2 ^ N else m <= 2 ^ N * 2 ^ (- e)).
Proof.
  intros Hp Hq HN B. unfold round_ratio.
  assert (PN : 0 < 2 ^ N) by (apply Z.pow_pos_nonneg; lia).
  destruct (p =? 0) eqn:P0.
  { exists 0, 0. cbn. repeat split; lia. }
  apply Z.eqb_neq in P0.
  pose proof (floor_log2_ratio_below p q N ltac:(lia) Hq ltac:(lia) B) as F.
  set (e := Z.max (floor_log2_ratio p q - 52) (-1074)).
  assert (He : -1074 <= e <= 970) by lia.
  replace (972 <=? e) with false by (symmetry; apply Z.leb_gt; lia).
  replace (e =? 971) with false by (symmetry; apply Z.eqb_neq; lia).
  cbn [orb andb].
  eexists _, e. split; [reflexivity|].
  destruct (0 <=? e) eqn:E.
  - apply Z.leb_le in E.
    assert (Pe : 0 < 2 ^ e) by (apply Z.pow_pos_nonneg; lia).
    assert (Pn : 0 < 2 ^ (N - e)) by (apply Z.pow_pos_nonneg; lia).
    assert (S : 2 ^ (N - e) * 2 ^ e = 2 ^ N)
      by (rewrite <- Z.pow_add_r by lia; f_equal; lia).
    split; [apply round_half_even_nonneg; nia|].
    assert (R : round_half_even p (q * 2 ^ e) <= 2 ^ (N - e))
      by (apply round_half_even_le; nia).
    nia.
  - apply Z.leb_gt in E.
    assert (Pe : 0 < 2 ^ (- e)) by (apply Z.pow_pos_nonneg; lia).
    split; [apply round_half_even_nonneg; nia|].
    apply round_half_even_le; nia.
Qed.

(** The product of a float that is at most [2^N] and a scale of the
    table is finite, and so has an integer part. *)
Lemma int_of_scaled_below (m e k N : Z) :
  0 <= m -> 0 <= k <= 4 -> 0 <= N <= 980 ->
  (if 0 <=? e then m * 2 ^ e <= 2 ^ N else m <= 2 ^ N * 2 ^ (- e)) ->
  exists z, int_of_float (fmul (FFin false m e) (FFin false (2 ^ 52) (10 * k - 52))) = Ok z.
Proof.
  intros Hm Hk HN B. cbn [fmul xorb].
  assert (PN : 0 < 2 ^ N) by (apply Z.pow_pos_nonneg; lia).
  assert (Fin : forall p q, 0 <= p -> 0 < q -> p < q * 2 ^ (N + 41) ->
                exists z, int_of_float (round_ratio false p q) = Ok z).
  { intros p q Hp Hq Bp.
    destruct (round_ratio_below p q (N + 41) Hp Hq ltac:(lia) Bp) as (m' & e' & -> & _).
    cbn [int_of_float]. eexists; reflexivity. }
  assert (S41 : 2 ^ (N + 41) = 2 ^ N * 2 ^ 41) by (rewrite Z.pow_add_r by lia; reflexivity).
  destruct (0 <=? e + (10 * k - 52)) eqn:E.
  - apply Z.leb_le in E.
    replace (0 <=? e) with true in B by (symmetry; apply Z.leb_le; lia).
    apply Fin; [|lia|].
    + apply Z.mul_nonneg_nonneg; [|apply Z.pow_nonneg; lia].
      apply Z.mul_nonneg_nonneg; lia.
    + replace (m * 2 ^ 52 * 2 ^ (e + (10 * k - 52))) with (m * 2 ^ e * 2 ^ (10 * k)).
      2:{ rewrite <- !Z.mul_assoc. f_equal. rewrite <- !Z.pow_add_r by lia. f_equal. lia. }
      assert (P10 : 0 < 2 ^ (10 * k) <= 2 ^ 40).
      { split; [apply Z.pow_pos_nonneg; lia|apply Z.pow_le_mono_r; lia]. }
      rewrite S41. change (2 ^ 41) with (2 * 2 ^ 40). nia.
  - apply Z.leb_gt in E.
    assert (Pq : 0 < 2 ^ (- (e + (10 * k - 52)))) by (apply Z.pow_pos_nonneg; lia).
    apply Fin; [nia|exact Pq|].
    destruct (0 <=? e) eqn:E0.
    + apply Z.leb_le in E0.
      assert (P1 : 0 < 2 ^ (52 - 10 * k - e)) by (apply Z.pow_pos_nonneg; lia).
      assert (S : 2 ^ 52 = 2 ^ e * 2 ^ (10 * k) * 2 ^ (52 - 10 * k - e)).
      { rewrite <- !Z.pow_add_r by lia. f_equal. lia. }
      replace (- (e + (10 * k - 52))) with (52 - 10 * k - e) by lia.
      assert (P10 : 0 < 2 ^ (10 * k) <= 2 ^ 40).
      { split; [apply Z.pow_pos_nonneg; lia|apply Z.pow_le_mono_r; lia]. }
      rewrite S, S41. change (2 ^ 41) with (2 * 2 ^ 40).
      assert (Pe : 0 < 2 ^ e) by (apply Z.pow_pos_nonneg; lia).
      assert (X : m * (2 ^ e * 2 ^ (10 * k)) < 2 ^ N * (2 * 2 ^ 40)) by nia.
      nia.
    + apply Z.leb_gt in E0.
      assert (Pe : 0 < 2 ^ (- e)) by (apply Z.pow_pos_nonneg; lia).
      assert (P10 : 0 < 2 ^ (10 * k) <= 2 ^ 40).
      { split; [apply Z.pow_pos_nonneg; lia|apply Z.pow_le_mono_r; lia]. }
      assert (P1 : 0 < 2 ^ (52 - 10 * k)) by (apply Z.pow_pos_nonneg; lia).
      assert (S : 2 ^ (- (e + (10 * k - 52))) = 2 ^ (- e) * 2 ^ (52 - 10 * k)).
      { rewrite <- Z.pow_add_r by lia. f_equal. lia. }
      assert (S2 : 2 ^ 52 = 2 ^ (10 * k) * 2 ^ (52 - 10 * k)).
      { rewrite <- Z.pow_add_r by lia. f_equal. lia. }
      rewrite S, S2, S41. change (2 ^ 41) with (2 * 2 ^ 40).
      assert (X : m * 2 ^ (10 * k) < 2 ^ N * 2 ^ (- e) * (2 * 2 ^ 40)) by nia.
      nia.
Qed.

Lemma digits_value_acc_below (s : string) (acc : Z) :
  all_chars is_ascii_digit s -> 0 <= acc ->
  digits_value_acc s acc < (acc + 1) * 10 ^ Z.of_nat (String.length s).
Proof.
  unfold all_chars. revert acc.
  induction s as [|c s IH]; intros acc H Ha; cbn [digits_value_acc String.length].
  - change (10 ^ Z.of_nat 0) with 1. lia.
  - cbn [string_forallb] in H. apply andb_true_iff in H as [Hc Hs].
    pose proof (digit_code c Hc) as D.
    specialize (IH (10 * acc + (code c - 48)) Hs ltac:(lia)).
    rewrite Nat2Z.inj_succ, Z.pow_succ_r by lia.
    assert (P : 0 < 10 ^ Z.of_nat (String.length s)) by (apply Z.pow_pos_nonneg; lia).
    nia.
Qed.

Lemma string_length_app (a b : string) :
  String.length (a ++ b) = (String.length a + String.length b)%nat.
Proof. induction a as [|c a IH]; cbn; [reflexivity|now rewrite IH]. Qed.

(** [float] of a matched number is the float nearest to a ratio below
    ten to the number of its characters. *)
Lemma float_of_decimal_below (num : string) :
  is_number num ->
  exists p q, 0 <= p /\ 0 < q /\ p < q * 10 ^ Z.of_nat (String.length num) /\
              float_of_decimal num = Ok (round_ratio false p q).
Proof.
  intros (ip & N & H & [->|(fp & Nf & Hf & ->)]).
  - exists (digits_value ip), 1. rewrite float_of_decimal_int by assumption.
    pose proof (digits_value_acc_below ip 0 H ltac:(lia)) as B.
    fold (digits_value ip) in B.
    split; [now apply digits_value_nonneg|]. split; [lia|]. split; [lia|reflexivity].
  - exists (digits_value (ip ++ fp)), (10 ^ Z.of_nat (String.length fp)).
    assert (Hall : all_chars is_ascii_digit (ip ++ fp)) by (apply all_chars_app; now split).
    pose proof (digits_value_acc_below (ip ++ fp) 0 Hall ltac:(lia)) as B.
    fold (digits_value (ip ++ fp)) in B.
    rewrite string_length_app in B.
    split; [now apply digits_value_nonneg|].
    split; [apply Z.pow_pos_nonneg; lia|]. split.
    + rewrite !string_length_app. cbn [String.length].
      rewrite <- Z.pow_add_r by lia.
      eapply Z.lt_le_trans; [exact B|]. rewrite Z.mul_1_l.
      apply Z.pow_le_mono_r; lia.
    + unfold float_of_decimal.
      rewrite (span_app is_ascii_digit ip ("." ++ fp) H) by reflexivity.
      apply is_empty_false in N, Nf. rewrite N. cbn [append].
      unfold all_chars in Hf. rewrite Ascii.eqb_refl, Nf, Hf. reflexivity.
Qed.

(** A matched number is shorter than the text, by "Size " and a letter
    at least. *)
Lemma size_search_inside (s num unit : string) :
  size_search s = Some (num, unit) ->
  is_number num /\ (String.length num + 6 <= String.length s)%nat.
Proof.
  assert (Here : forall t n u, size_match_here t = Some (n, u) ->
                   is_number n /\ (String.length n + 6 <= String.length t)%nat).
  { intros t n u M.
    destruct (size_match_here_sound _ _ _ M) as (sp & c & after & -> & Hn & _).
    split; [exact Hn|]. rewrite !string_length_app. cbn [String.length]. lia. }
  induction s as [|x s IH]; cbn [size_search].
  - destruct (size_match_here "") as [[n u]|] eqn:M; [|discriminate].
    intros [= -> ->]. now apply (Here "" num unit).
  - destruct (size_match_here (String x s)) as [[n u]|] eqn:M.
    + intros [= -> ->]. now apply (Here (String x s) num unit).
    + intros S. destruct (IH S) as [Hn L]. split; [exact Hn|]. cbn [String.length]. lia.
Qed.

(** A text of at most 300 characters cannot hold a number that
    overflows. *)
Lemma size_of_short_text (text : string) :
  (String.length text <= 300)%nat -> exists z, parse_size_bytes text = Ok z.
Proof.
  intros L. unfold parse_size_bytes.
  destruct (size_search text) as [[g1 g2]|] eqn:S; [|eexists; reflexivity].
  destruct (size_search_inside _ _ _ S) as [Hn Ln].
  destruct (float_of_decimal_below g1 Hn) as (p & q & Hp & Hq & B & ->).
  destruct (scale_is_power (py_lower g2)) as (k & Hk & ->).
  rewrite (float_of_scale k Hk). cbn [bind].
  assert (B2 : p < q * 2 ^ 980).
  { assert (10 ^ Z.of_nat (String.length g1) <= 10 ^ 294)
      by (apply Z.pow_le_mono_r; lia).
    assert (10 ^ 294 < 2 ^ 980) by reflexivity. nia. }
  destruct (round_ratio_below p q 980 Hp Hq ltac:(lia) B2) as (m & e & -> & Hm & Bm).
  now apply (int_of_scaled_below m e k 980).
Qed.

(** X19. On a text of at most 300 characters [parse_size_bytes] raises
    nothing: it returns an integer that is not negative. (An
    [OverflowError] needs a number of some 297 digits.) *)
Theorem size_of_short_text_never_raises (text : string) :
  (String.length text <= 300)%nat ->
  exists z, parse_size_bytes text = Ok z /\ 0 <= z.
Proof.
  intros L. destruct (size_of_short_text text L) as [z E].
  exists z. split; [exact E|]. now apply (size_ok_nonneg text).
Qed.

Lemma size_of_short_text_never_raises_witness :
  exists z, parse_size_bytes "Uploaded 03-14 2021, Size 1.37 GiB, ULed by x" = Ok z /\ 0 <= z.
Proof.
  apply (size_of_short_text_never_raises "Uploaded 03-14 2021, Size 1.37 GiB, ULed by x").
  cbn. lia.
Defined.

(** ** Pages the parser reads without error *)

Lemma drop_while_head (f : ascii -> bool) (s : string) :
  head_not f s -> drop_while f s = s.
Proof. destruct s as [|c s]; cbn; [reflexivity|]. now intros ->. Qed.

Lemma all_chars_head (f : ascii -> bool) (s : string) :
  all_chars (fun c => negb (f c)) s -> head_not f s.
Proof.
  unfold all_chars. destruct s as [|c s]; cbn; [auto|].
  intros H. apply andb_true_iff in H as [H _]. now apply negb_true_iff.
Qed.

(** Stripping leaves a string without the stripped characters as it is. *)
Lemma strip_with_nothing (f : ascii -> bool) (s : string) :
  all_chars (fun c => negb (f c)) s -> strip_with f s = s.
Proof.
  intros H. unfold strip_with, string_rev.
  rewrite (drop_while_head f s) by now apply all_chars_head.
  rewrite drop_while_head
    by (apply all_chars_head, all_chars_rev_onto; [exact H|reflexivity]).
  apply (string_rev_onto_rev s "").
Qed.

Lemma string_rev_onto_length (s acc : string) :
  String.length (string_rev_onto s acc) = (String.length s + String.length acc)%nat.
Proof.
  revert acc; induction s as [|c s IH]; intros acc; cbn; [reflexivity|].
  rewrite IH. cbn. lia.
Qed.

Lemma drop_while_length (f : ascii -> bool) (s : string) :
  (String.length (drop_while f s) <= String.length s)%nat.
Proof.
  induction s as [|c s IH]; cbn; [lia|]. destruct (f c); cbn; lia.
Qed.

Lemma py_strip_length (s : string) :
  (String.length (py_strip s) <= String.length s)%nat.
Proof.
  unfold py_strip, string_rev. rewrite string_rev_onto_length.
  pose proof (drop_while_length py_isspace (string_rev_onto (drop_while py_isspace s) "")) as A.
  rewrite string_rev_onto_length in A.
  pose proof (drop_while_length py_isspace s). cbn in *. lia.
Qed.

Lemma int_body_ok_digits (s : string) :
  all_chars is_ascii_digit s -> int_body_ok s true = true.
Proof.
  unfold all_chars. induction s as [|c s IH]; cbn; [reflexivity|].
  intros H. apply andb_true_iff in H as [Hc Hs]. rewrite Hc. now apply IH.
Qed.

Lemma ascii_digit_facts (c : ascii) :
  is_ascii_digit c = true -> py_isdigit_char c = true /\ int_isspace c = false.
Proof. each_char c; vm_compute; intros H; try discriminate H; auto. Qed.

(** [int] of a string of ASCII digits, not longer than the limit. *)
Lemma int_of_ascii_digits (s : string) :
  s <> "" -> all_chars is_ascii_digit s -> (String.length s <= 4300)%nat ->
  int_of_str s = Ok (digits_value s).
Proof.
  intros N H L. unfold int_of_str.
  rewrite strip_with_nothing.
  2:{ eapply all_chars_impl; [|exact H]. intros c Hc.
      destruct (ascii_digit_facts c Hc) as [_ ->]. reflexivity. }
  destruct s as [|c r]; [congruence|].
  assert (Hc : is_ascii_digit c = true).
  { unfold all_chars in H. cbn in H. now apply andb_true_iff in H as [Hc _]. }
  destruct (ascii_digit_facts c Hc) as [D _].
  destruct (digit_not_sign c D) as [-> ->].
  assert (B : int_body_ok (String c r) false = true).
  { cbn [int_body_ok]. rewrite Hc. apply int_body_ok_digits.
    unfold all_chars in *. cbn in H. now apply andb_true_iff in H as [_ Hr]. }
  rewrite B, (string_filter_all is_ascii_digit (String c r) H).
  replace (int_max_str_digits <? Z.of_nat (String.length (String c r))) with false;
    [reflexivity|].
  symmetry. apply Z.ltb_ge. unfold int_max_str_digits. lia.
Qed.

(** A numeric cell of an ordinary page converts. *)
Lemma int_of_ordinary_cell (data : string) :
  (String.length data <= 300)%nat ->
  string_forallb is_ascii_digit (py_strip data) = true ->
  py_isdigit (py_strip data) = true ->
  exists v, int_of_str (py_strip data) = Ok v.
Proof.
  intros L S D.
  unfold py_isdigit in D. apply andb_true_iff in D as [N _].
  apply negb_true_iff, is_empty_false in N.
  exists (digits_value (py_strip data)).
  apply int_of_ascii_digits; [exact N|exact S|].
  pose proof (py_strip_length data). lia.
Qed.

Lemma handle_ordinary (ev : event) (p : parser) :
  ordinary_event ev = true -> exists p', handle ev p = Ok p'.
Proof.
  destruct ev as [tag attrs|tag|data]; cbn [handle ordinary_event]; intros O.
  - unfold handle_starttag, when.
    destruct (String.eqb tag "tr"); [eexists; reflexivity|].
    destruct (negb (in_tr p)); [eexists; reflexivity|].
    destruct (String.eqb tag "a"); cbn [negb orb] in O; cbn [bind];
      [|eexists; reflexivity].
    destruct (attrs_get attrs "href") as [[href|]|]; try discriminate O;
      cbn [bind]; try destruct (startswith _ "magnet:?xt="); cbn [bind];
      eexists; reflexivity.
  - eexists; reflexivity.
  - apply andb_true_iff in O as [L S]. apply Nat.leb_le in L.
    unfold handle_data.
    destruct (negb (in_tr p)); [eexists; reflexivity|].
    destruct (is_empty (py_strip data)); [eexists; reflexivity|].
    destruct (size_of_short_text (py_strip data)) as [z Ez];
      [pose proof (py_strip_length data); lia|].
    match goal with
    | |- context [when ?b ?f p] => generalize (when b f p)
    end.
    intros p1. rewrite Ez.
    destruct (in_det_desc p1); cbn [bind];
      match goal with
      | |- context [in_align_right ?q && _] =>
          destruct (in_align_right q); cbn [andb]; [|eexists; reflexivity]
      end;
      (destruct (py_isdigit (py_strip data)) eqn:D; [|eexists; reflexivity]);
      cbn [negb orb] in S;
      destruct (int_of_ordinary_cell data L S D) as [v ->]; cbn [bind];
      eexists; reflexivity.
Qed.

Lemma feed_ordinary (evs : list event) (p : parser) :
  forallb ordinary_event evs = true -> exists p', feed evs p = Ok p'.
Proof.
  revert p. induction evs as [|ev evs IH]; intros p; cbn [forallb feed];
    [eexists; reflexivity|].
  intros H. apply andb_true_iff in H as [O R].
  destruct (handle_ordinary ev p O) as [p1 ->]. cbn [bind]. now apply IH.
Qed.

(** X20. On an ordinary page the handlers raise nothing, so that
    [parser.feed] reads the page to its end unless the tokenizer of
    [html.parser] raises itself, and then with the exception of the
    tokenizer.  A page is ordinary when no anchor has a bare [href], no
    text node is longer than 300 characters, and every text node that
    passes [isdigit()], once stripped, is made of the digits 0 to 9. *)
Theorem parser_reads_ordinary_pages (t : tokens) :
  forallb ordinary_event (calls t) = true ->
  exists p,
    feed (calls t) new_parser = Ok p /\
    feed_tokens t new_parser
    = match tokenizer_error t with
      | Some e => Raise e
      | None => Ok p
      end.
Proof.
  intros O. destruct (feed_ordinary (calls t) new_parser O) as [p F].
  exists p. split; [exact F|]. unfold feed_tokens. now rewrite F.
Qed.

Lemma parser_reads_ordinary_pages_witness :
  exists p,
    feed example_row_events new_parser = Ok p /\
    feed_tokens (mkTokens example_row_events
                          (Some (mkExn AssertionError
                                       "unknown status keyword 'x' in marked section")))
                new_parser
    = Raise (mkExn AssertionError "unknown status keyword 'x' in marked section").
Proof.
  apply (parser_reads_ordinary_pages
           (mkTokens example_row_events
                     (Some (mkExn AssertionError
                                  "unknown status keyword 'x' in marked section")))).
  reflexivity.
Defined.

(** ** Table rows and the rows read off them *)



















(** ** Magnet links for names of any code points *)

Lemma code_chr (z : Z) : 0 <= z < 256 -> code (chr z) = z.
Proof.
  intros H. unfold code, chr. rewrite nat_ascii_embedding; lia.
Qed.

(** A byte from 128 on is never left as it is. *)
Lemma high_byte_quoted (safe : string) (b : Z) :
  128 <= b < 256 ->
  always_safe (chr b) || ((code (chr b) <? 128) && string_mem (chr b) safe) = false.
Proof.
  intros H. pose proof (code_chr b ltac:(lia)) as E.
  assert (G : forall c, 128 <= code c ->
                always_safe c || ((code c <? 128) && string_mem c safe) = false).
  { intros c. each_char c; vm_compute; intros L; try reflexivity;
      exfalso; apply L; reflexivity. }
  apply G. lia.
Qed.

Lemma percent_bytes_app (a b : string) :
  percent_bytes (a ++ b) = percent_bytes a ++ percent_bytes b.
Proof.
  induction a as [|c a IH]; [reflexivity|].
  cbn [append percent_bytes]. now rewrite IH, append_assoc.
Qed.

(** The bytes of a code point from U+0080 on are all from 128 on. *)
Lemma quote_bytes_wide (safe : string) (cp : Z) (r : string) :
  is_code_point cp = true -> 128 <= cp ->
  quote_bytes safe (utf8_of_code_point cp ++ r)
  = percent_bytes (utf8_of_code_point cp) ++ quote_bytes safe r.
Proof.
  intros V L. unfold is_code_point in V. apply andb_true_iff in V as [_ V].
  apply Z.ltb_lt in V.
  unfold utf8_of_code_point.
  destruct (cp <? 128) eqn:E1; [apply Z.ltb_lt in E1; lia|].
  destruct (cp <? 2048) eqn:E2; [apply Z.ltb_lt in E2|apply Z.ltb_ge in E2].
  - cbn [append percent_bytes].
    rewrite !quote_bytes_cons, !high_byte_quoted, !append_assoc;
      [reflexivity| |]; Z.div_mod_to_equations; lia.
  - destruct (cp <? 65536) eqn:E3; [apply Z.ltb_lt in E3|apply Z.ltb_ge in E3].
    + cbn [append percent_bytes].
      rewrite !quote_bytes_cons, !high_byte_quoted, !append_assoc;
        [reflexivity| | |]; Z.div_mod_to_equations; lia.
    + cbn [append percent_bytes].
      rewrite !quote_bytes_cons, !high_byte_quoted, !append_assoc;
        [reflexivity| | | |]; Z.div_mod_to_equations; lia.
Qed.

Lemma quote_bytes_point (safe : string) (cp : Z) (r : string) :
  is_code_point cp = true ->
  quote_bytes safe (utf8_of_code_point cp ++ r)
  = (if (cp <? 128) && (always_safe (chr cp) || string_mem (chr cp) safe)
     then String (chr cp) EmptyString
     else percent_bytes (utf8_of_code_point cp))
    ++ quote_bytes safe r.
Proof.
  intros V. destruct (cp <? 128) eqn:E; cbn [andb].
  - unfold utf8_of_code_point. rewrite E. cbn [append percent_bytes].
    rewrite quote_bytes_cons.
    apply Z.ltb_lt in E. unfold is_code_point in V. apply andb_true_iff in V as [V _].
    apply Z.leb_le in V.
    rewrite code_chr by lia. replace (cp <? 128) with true by (symmetry; now apply Z.ltb_lt).
    cbn [andb].
    destruct (always_safe (chr cp) || string_mem (chr cp) safe); [reflexivity|].
    now rewrite append_nil_r.
  - apply quote_bytes_wide; [exact V|]. now apply Z.ltb_ge in E.
Qed.

(** [quote] on any [str]: a surrogate raises; otherwise the code points
    are encoded one by one. *)
Lemma quote_unicode_points (safe : string) (s : ustring) :
  code_points s ->
  quote_unicode s safe
  = if existsb is_surrogate s
    then Raise (mkExn UnicodeEncodeError "surrogates not allowed")
    else Ok (percent_encode_points (fun c => always_safe c || string_mem c safe) s).
Proof.
  unfold quote_unicode, code_points.
  induction s as [|cp r IH]; [reflexivity|].
  cbn [forallb encode_utf8 existsb percent_encode_points].
  intros V. apply andb_true_iff in V as [V Vr]. specialize (IH Vr).
  destruct (is_surrogate cp); cbn [orb bind]; [reflexivity|].
  destruct (encode_utf8 r) as [bs|e]; cbn [bind] in *;
    destruct (existsb is_surrogate r); try discriminate IH.
  - injection IH as IH. now rewrite quote_bytes_point, IH.
  - exact IH.
Qed.

Lemma percent_encode_points_ext (f g : ascii -> bool) (s : ustring) :
  (forall c, f c = g c) -> percent_encode_points f s = percent_encode_points g s.
Proof.
  intros E. induction s as [|cp r IH]; [reflexivity|].
  cbn [percent_encode_points]. now rewrite E, IH.
Qed.

Lemma keeps_space (c : ascii) :
  always_safe c || string_mem c " " = unreserved_or " " c.
Proof. each_char c; vm_compute; reflexivity. Qed.

Lemma codes_app (a b : string) : codes (a ++ b) = (codes a ++ codes b)%list.
Proof.
  unfold codes. now rewrite list_ascii_app, map_app.
Qed.

(** The trackers of the fixed list, quoted. *)
Lemma quoted_trackers :
  map_result (fun tr => do q <- quote_unicode (codes tr) "/"; Ok ("tr=" ++ q)) TRACKERS
  = Ok (map (fun tr => "tr=" ++ percent_encode (unreserved_or "/") tr) TRACKERS).
Proof. vm_compute. reflexivity. Qed.

(** What [build_magnet] does with any name. *)
Lemma build_magnet_unicode_form (info_hash name : ustring) :
  code_points name ->
  build_magnet_unicode info_hash name
  = if existsb is_surrogate name
    then Raise (mkExn UnicodeEncodeError "surrogates not allowed")
    else Ok (codes "magnet:?xt=urn:btih:" ++ info_hash
             ++ codes ("&dn=" ++ percent_encode_points (unreserved_or " ") name
                       ++ concat_strings
                            (map (fun tr => "&tr="
                                            ++ percent_encode (unreserved_or "/") tr)
                                 TRACKERS))%string)%list.
Proof.
  intros V. unfold build_magnet_unicode.
  rewrite (quote_unicode_points " " name V), quoted_trackers.
  destruct (existsb is_surrogate name); cbn [bind]; [reflexivity|].
  rewrite (percent_encode_points_ext _ (unreserved_or " ") name keeps_space).
  reflexivity.
Qed.

(** On the strings of the model the two ways of writing [build_magnet]
    agree. *)
Lemma utf8_of_latin1 (c : ascii) :
  utf8_of_code_point (code c) = utf8_encode (String c EmptyString).
Proof. each_char c; vm_compute; reflexivity. Qed.

Lemma encode_utf8_codes (s : string) :
  encode_utf8 (codes s) = Ok (utf8_encode s).
Proof.
  induction s as [|c s IH]; [reflexivity|].
  change (codes (String c s)) with (code c :: codes s).
  cbn [encode_utf8]. rewrite IH. cbn [bind].
  replace (is_surrogate (code c)) with false
    by (each_char c; vm_compute; reflexivity).
  rewrite utf8_of_latin1.
  rewrite !utf8_encode_cons. now destruct (code c <? 128).
Qed.

Lemma quote_unicode_codes (s safe : string) :
  quote_unicode (codes s) safe = Ok (quote s safe).
Proof.
  unfold quote_unicode, quote. now rewrite encode_utf8_codes.
Qed.

Lemma build_magnet_unicode_codes (info_hash name : string) :
  build_magnet_unicode (codes info_hash) (codes name)
  = Ok (codes (build_magnet info_hash name)).
Proof.
  unfold build_magnet_unicode, build_magnet.
  rewrite quote_unicode_codes. cbn [bind].
  unfold TRACKERS. cbn [map_result]. rewrite !quote_unicode_codes. cbn [bind map].
  now rewrite !codes_app, <- !app_assoc.
Qed.

Ltac zcase :=
  repeat match goal with
         | |- context [?a <? ?b] => destruct (Z.ltb_spec a b); try lia
         | |- context [?a <=? ?b] => destruct (Z.leb_spec a b); try lia
         | |- context [?a =? ?b] => destruct (Z.eqb_spec a b); try lia
         end.

(** The decoder at the first byte of a sequence. *)
Lemma utf8_decode_lead (b : Z) (r : list Z) (p : utf8_pending) :
  utf8_lead b = (None, Some p) ->
  utf8_decode (b :: r) None = utf8_decode r (Some p).
Proof.
  intros E. cbn [utf8_decode]. now rewrite E.
Qed.

(** The decoder at a byte the sequence admits. *)
Lemma utf8_decode_next (b : Z) (r : list Z) (p : utf8_pending) :
  pend_lo p <= b <= pend_hi p ->
  utf8_decode (b :: r) (Some p)
  = match pend_left p with
    | S (S n) =>
        utf8_decode r (Some (mkPending (S n) (pend_acc p * 64 + (b - 128)) 128 191))
    | _ => pend_acc p * 64 + (b - 128) :: utf8_decode r None
    end.
Proof.
  intros H. cbn [utf8_decode].
  destruct (Z.leb_spec (pend_lo p) b); [|lia].
  destruct (Z.leb_spec b (pend_hi p)); [|lia].
  reflexivity.
Qed.

(** The bytes of a code point are its UTF-8 encoding: Python's decoder
    reads them back as the code point. *)
Lemma utf8_decode_point (cp : Z) :
  is_code_point cp = true -> is_surrogate cp = false ->
  utf8_decode (codes (utf8_of_code_point cp)) None = [cp].
Proof.
  unfold is_code_point, is_surrogate. intros V S.
  apply andb_true_iff in V as [V0 V1]. apply Z.leb_le in V0. apply Z.ltb_lt in V1.
  assert (S' : cp < 55296 \/ 57343 < cp).
  { apply andb_false_iff in S as [S|S]; [apply Z.leb_gt in S|apply Z.leb_gt in S]; lia. }
  clear S.
  unfold utf8_of_code_point.
  destruct (Z.ltb_spec cp 128).
  { unfold codes. cbn [list_ascii_of_string map]. rewrite code_chr by lia.
    cbn [utf8_decode]. unfold utf8_lead. zcase. reflexivity. }
  destruct (Z.ltb_spec cp 2048).
  { unfold codes. cbn [list_ascii_of_string map].
    rewrite !code_chr by (Z.div_mod_to_equations; lia).
    assert (D : exists a b, cp / 64 = a /\ cp mod 64 = b /\ cp = 64 * a + b /\
                            2 <= a <= 31 /\ 0 <= b < 64)
      by (do 2 eexists; repeat split; try reflexivity; Z.div_mod_to_equations; lia).
    destruct D as (a & b & -> & -> & E & Ha & Hb).
    rewrite (utf8_decode_lead _ _ (mkPending 1 (192 + a - 192) 128 191))
      by (unfold utf8_lead; zcase; reflexivity).
    rewrite utf8_decode_next by (cbn [pend_lo pend_hi]; lia).
    cbn [pend_left pend_acc utf8_decode]. f_equal. lia. }
  destruct (Z.ltb_spec cp 65536).
  { unfold codes. cbn [list_ascii_of_string map].
    rewrite !code_chr by (Z.div_mod_to_equations; lia).
    assert (D : exists a b c, cp / 4096 = a /\ (cp / 64) mod 64 = b /\ cp mod 64 = c /\
                          cp = 4096 * a + 64 * b + c /\
                          0 <= a <= 15 /\ 0 <= b < 64 /\ 0 <= c < 64)
      by (do 3 eexists; repeat split; try reflexivity; Z.div_mod_to_equations; lia).
    destruct D as (a & b & c & -> & -> & -> & E & Ha & Hb & Hc).
    assert (L : exists lo hi,
               utf8_lead (224 + a) = (None, Some (mkPending 2 (224 + a - 224) lo hi)) /\
               lo <= 128 + b <= hi).
    { unfold utf8_lead.
      destruct (Z.eqb_spec a 0) as [->|N0]; [exists 160, 191; split; [reflexivity|lia]|].
      destruct (Z.eqb_spec a 13) as [->|N13]; [exists 128, 159; split; [reflexivity|lia]|].
      exists 128, 191. split; [|lia]. zcase. reflexivity. }
    destruct L as (lo & hi & L & B).
    rewrite (utf8_decode_lead _ _ _ L).
    rewrite utf8_decode_next by (cbn [pend_lo pend_hi]; lia). cbn [pend_left pend_acc].
    rewrite utf8_decode_next by (cbn [pend_lo pend_hi]; lia).
    cbn [pend_left pend_acc utf8_decode]. f_equal. lia. }
  unfold codes. cbn [list_ascii_of_string map].
  rewrite !code_chr by (Z.div_mod_to_equations; lia).
  assert (D : exists a b c d,
             cp / 262144 = a /\ (cp / 4096) mod 64 = b /\ (cp / 64) mod 64 = c /\
             cp mod 64 = d /\
             cp = 262144 * a + 4096 * b + 64 * c + d /\
             0 <= a <= 4 /\ 0 <= b < 64 /\ 0 <= c < 64 /\ 0 <= d < 64)
    by (do 4 eexists; repeat split; try reflexivity; Z.div_mod_to_equations; lia).
  destruct D as (a & b & c & d & -> & -> & -> & -> & E & Ha & Hb & Hc & Hd).
  assert (L : exists lo hi,
             utf8_lead (240 + a) = (None, Some (mkPending 3 (240 + a - 240) lo hi)) /\
             lo <= 128 + b <= hi).
  { unfold utf8_lead.
    destruct (Z.eqb_spec a 0) as [->|N0]; [exists 144, 191; split; [reflexivity|lia]|].
    destruct (Z.eqb_spec a 4) as [->|N4]; [exists 128, 143; split; [reflexivity|lia]|].
    exists 128, 191. split; [|lia]. zcase. reflexivity. }
  destruct L as (lo & hi & L & B).
  rewrite (utf8_decode_lead _ _ _ L).
  rewrite utf8_decode_next by (cbn [pend_lo pend_hi]; lia). cbn [pend_left pend_acc].
  rewrite utf8_decode_next by (cbn [pend_lo pend_hi]; lia). cbn [pend_left pend_acc].
  rewrite utf8_decode_next by (cbn [pend_lo pend_hi]; lia).
    cbn [pend_left pend_acc utf8_decode]. f_equal. lia.
Qed.

(** C5, amended. For every info-hash and every display name without
    surrogate the magnet builder returns
    "magnet:?xt=urn:btih:<hash>&dn=<name>&tr=<tracker>&tr=..." where the
    name is percent-encoded, UTF-8 byte by byte, except for its
    unreserved characters and its spaces, every tracker of the fixed
    list is percent-encoded except for its unreserved characters and its
    slashes, and the trackers come in the order of the fixed list; on a
    display name that holds a surrogate it raises [UnicodeEncodeError]. *)
Theorem magnet_form_of_build_magnet (info_hash name : ustring) :
  code_points name ->
  build_magnet_unicode info_hash name
  = if existsb is_surrogate name
    then Raise (mkExn UnicodeEncodeError "surrogates not allowed")
    else Ok (codes "magnet:?xt=urn:btih:" ++ info_hash
             ++ codes ("&dn=" ++ percent_encode_points (unreserved_or " ") name
                       ++ concat_strings
                            (map (fun tr => "&tr="
                                            ++ percent_encode (unreserved_or "/") tr)
                                 TRACKERS))%string)%list.
Proof.
  apply build_magnet_unicode_form.
Qed.

Lemma magnet_form_of_build_magnet_witness :
  build_magnet_unicode (codes hash_A40) example_wide_name
  = Ok (codes ("magnet:?xt=urn:btih:" ++ hash_A40 ++ "&dn=M%F0%9F%93%BD "
               ++ "&tr=udp%3A//tracker.opentrackr.org%3A1337/announce"
               ++ "&tr=udp%3A//open.demonii.com%3A1337/announce"
               ++ "&tr=udp%3A//tracker.coppersurfer.tk%3A6969/announce"
               ++ "&tr=udp%3A//tracker.leechers-paradise.org%3A6969/announce")) /\
  build_magnet_unicode (codes hash_A40) example_surrogate_name
  = Raise (mkExn UnicodeEncodeError "surrogates not allowed").
Proof.
  split.
  - rewrite (magnet_form_of_build_magnet (codes hash_A40) example_wide_name eq_refl).
    vm_compute. reflexivity.
  - rewrite (magnet_form_of_build_magnet (codes hash_A40) example_surrogate_name eq_refl).
    reflexivity.
Defined.

Lemma percent_bytes_query (bs : string) : all_chars query_char (percent_bytes bs).
Proof.
  induction bs as [|b bs IH]; [reflexivity|].
  cbn [percent_bytes]. apply all_chars_app. split; [|exact IH].
  each_char b; vm_compute; reflexivity.
Qed.

Lemma percent_encode_points_query (keep : ascii -> bool) (s : ustring) :
  (forall c, keep c = true -> query_char c = true) ->
  all_chars query_char (percent_encode_points keep s).
Proof.
  intros K. induction s as [|cp s IH]; [reflexivity|].
  cbn [percent_encode_points]. apply all_chars_app. split; [|exact IH].
  destruct ((cp <? 128) && keep (chr cp)) eqn:E; [|apply percent_bytes_query].
  apply andb_true_iff in E as [_ E].
  unfold all_chars. cbn. now rewrite (K _ E).
Qed.

(** X12. The info-hash comes back out of the magnet link built from it:
    for a hash of unreserved characters (letters, digits, [_.-~], which
    covers the hexadecimal and the base32 forms) and a display name of
    any code points but surrogates, [build_magnet] returns a link, and
    [parse_btih_from_magnet] of that link is the hash. *)
Theorem btih_of_built_magnet (info_hash : string) (name : ustring) :
  all_chars unreserved info_hash ->
  code_points name -> existsb is_surrogate name = false ->
  exists magnet : string,
    build_magnet_unicode (codes info_hash) name = Ok (codes magnet) /\
    parse_btih_from_magnet magnet = Some info_hash.
Proof.
  intros H V S.
  set (tail := "dn=" ++ percent_encode_points (unreserved_or " ") name
               ++ concat_strings
                    (map (fun tr => "&tr=" ++ percent_encode (unreserved_or "/") tr)
                         TRACKERS)).
  exists ("magnet:?xt=urn:btih:" ++ info_hash ++ String "&" tail). split.
  - rewrite (build_magnet_unicode_form (codes info_hash) name V), S.
    rewrite (codes_app "magnet:?xt=urn:btih:"), (codes_app info_hash). reflexivity.
  - apply btih_after_prefix; [exact H|].
    apply all_chars_app; split; [reflexivity|].
    apply all_chars_app; split; [|vm_compute; reflexivity].
    apply percent_encode_points_query, kept_with_space_query.
Qed.

Lemma btih_of_built_magnet_witness :
  exists magnet : string,
    build_magnet_unicode (codes "c12fe1c06bba254a9dc9f519b335aa7c1367a88a")
                         example_wide_name
    = Ok (codes magnet) /\
    parse_btih_from_magnet magnet = Some "c12fe1c06bba254a9dc9f519b335aa7c1367a88a".
Proof.
  apply (btih_of_built_magnet "c12fe1c06bba254a9dc9f519b335aa7c1367a88a"
                              example_wide_name);
    reflexivity.
Defined.
